(** * Verification of the aoc2025 utility library

    A shallow embedding of the TypeScript helpers of [src/utils] (math,
    ranges, array) and of the per-day test harness, with the properties
    the specification states about them (C1 to C10) and further
    properties of the helpers read off the code (X1 to X30).

    Conventions of the embedding.
    - A JavaScript [number] holding an integer is a [Z]; arithmetic on it
      is exact (which is what IEEE doubles do below 2^53).  The bitwise
      operators go through [to_int32], as ECMAScript prescribes.
    - A [while] loop is a [Fixpoint] on a fuel argument returning [option]:
      [None] means the fuel ran out.  A loop that yields [None] for every
      fuel never exits.
    - Arrays are lists; [array[i] = x] is stdpp's [<[i:=x]>]. *)

From Stdlib Require Import ZArith QArith Lia List Permutation String.
From Stdlib Require Import Sorting.Sorted Sorting.Mergesort.
From stdpp Require Import numbers base tactics option list.

Set Default Proof Using "Type".
Local Open Scope Z_scope.

(** ** ECMAScript integer operators *)

Module JS.

(** [ToInt32]: reduce modulo 2^32 into the signed range. *)
Definition to_int32 (z : Z) : Z := (z + 2 ^ 31) `mod` 2 ^ 32 - 2 ^ 31.

(** [x | y] *)
Definition bor (x y : Z) : Z := Z.lor (to_int32 x) (to_int32 y).

(** [x & y] *)
Definition band (x y : Z) : Z := Z.land (to_int32 x) (to_int32 y).

(** [x >> n]: sign-propagating shift of the 32-bit value, count taken
    modulo 32. *)
Definition sar (x n : Z) : Z := Z.shiftr (to_int32 x) (n `mod` 32).

(** [x << n]: the shifted value is wrapped back to 32 bits. *)
Definition shl (x n : Z) : Z := to_int32 (Z.shiftl (to_int32 x) (n `mod` 32)).

End JS.

(** ** math.ts *)

Module MathUtils.

Import JS.

(** First loop of [gcd]:
    [while (((a | b) & 1) === 0) { a >>= 1; b >>= 1; shift++; }] *)
Fixpoint strip_common (fuel : nat) (a b shift : Z) : option (Z * Z * Z) :=
  match fuel with
  | O => None
  | S fuel' =>
      if band (bor a b) 1 =? 0
      then strip_common fuel' (sar a 1) (sar b 1) (shift + 1)
      else Some (a, b, shift)
  end.

(** [while ((a & 1) === 0) a >>= 1;] (also the inner loop on [b]). *)
Fixpoint strip_twos (fuel : nat) (a : Z) : option Z :=
  match fuel with
  | O => None
  | S fuel' =>
      if band a 1 =? 0 then strip_twos fuel' (sar a 1) else Some a
  end.

(** [while (b) { while ((b & 1) === 0) b >>= 1;
                 if (a > b) [a, b] = [b, a];
                 b -= a; }]
    [inner] is the fuel handed to each run of the inner loop. *)
Fixpoint subtract_loop (fuel inner : nat) (a b : Z) : option Z :=
  match fuel with
  | O => None
  | S fuel' =>
      if b =? 0 then Some a
      else
        match strip_twos inner b with
        | None => None
        | Some b1 =>
            let '(a2, b2) := if a >? b1 then (b1, a) else (a, b1) in
            subtract_loop fuel' inner a2 (b2 - a2)
        end
  end.

(** [gcd(a, b)].  [Some r]: the call returns [r] within [fuel]
    iterations of each loop; [None]: some loop is still running. *)
Definition gcd (fuel : nat) (a b : Z) : option Z :=
  let a := Z.abs a in
  let b := Z.abs b in
  match strip_common fuel a b 0 with
  | None => None
  | Some (a, b, shift) =>
      match strip_twos fuel a with
      | None => None
      | Some a =>
          match subtract_loop fuel fuel a b with
          | None => None
          | Some a => Some (shl a shift)
          end
      end
  end.

(** [lcm(a, b) = Math.abs(a * b) / gcd(a, b)].  The quotient is a
    JavaScript number, kept here as an exact rational (rounding is not
    modelled: the reading is exact while [|a * b|] is at most 2^53 and
    the gcd divides it); a zero divisor would give [Infinity] or [NaN],
    for which [None] stands in the inner option. *)
Definition js_div (x y : Z) : option Q :=
  if y =? 0 then None else Some (inject_Z x / inject_Z y)%Q.

Definition lcm (fuel : nat) (a b : Z) : option (option Q) :=
  match gcd fuel a b with
  | None => None
  | Some g => Some (js_div (Z.abs (a * b)) g)
  end.

(** *** Permutations *)

Section Permutations.
Context {T : Type}.

(** [const temp = array[i]; array[i] = array[k]; array[k] = temp;]
    Both indices are inside the array wherever the loop below swaps
    ([k <= i < len]); outside, where JavaScript would grow the array,
    the model leaves it alone. *)
Definition swap (array : list T) (i k : nat) : list T :=
  match array !! i, array !! k with
  | Some x, Some y => <[k:=x]> (<[i:=y]> array)
  | _, _ => array
  end.

(** The [while (i < len)] loop of [getPermutations] (Heap's algorithm
    with the counters [c]).  The state is the caller's [array], which
    the loop permutes in place, the counters, [i], and [result];
    [result.push(array.slice())] appends a copy of the current
    contents.  [i % 2 && c[i]] is 0 for an even [i] and [c[i]] for an
    odd one.  The loop returns the final contents of [array] together
    with [result]. *)
Fixpoint heap_loop (fuel len : nat) (array : list T) (c : list nat)
    (i : nat) (result : list (list T)) : option (list T * list (list T)) :=
  match fuel with
  | O => None
  | S fuel' =>
      if (i <? len)%nat then
        let ci := default 0%nat (c !! i) in
        if (ci <? i)%nat then
          let k := if (i `mod` 2 =? 0)%nat then 0%nat else ci in
          let array' := swap array i k in
          heap_loop fuel' len array' (<[i:=S ci]> c) 0 (result ++ [array'])
        else heap_loop fuel' len array (<[i:=0%nat]> c) (S i) result
      else Some (array, result)
  end.

(** [[...array.slice(0, i), ...array.slice(i + 1)]] *)
Definition remaining (array : list T) (i : nat) : list T :=
  take i array ++ drop (S i) array.

(** [getPermutations(array)] and [getPermutationsLarger(array)].
    [getPermutations] returns the contents of its argument after the
    call next to the list of permutations; [getPermutationsLarger]
    only reads its argument.  The [for] loop of the latter visits the
    indices in order and appends one block per index. *)
Fixpoint getPermutations (fuel : nat) (array : list T) {struct fuel}
    : option (list T * list (list T)) :=
  match fuel with
  | O => None
  | S fuel' =>
      if (length array <=? 1)%nat then Some (array, [array])
      else if (8 <? length array)%nat then
        result ← getPermutationsLarger fuel' array; Some (array, result)
      else
        heap_loop fuel' (length array) array
          (replicate (length array) 0%nat) 0 [array]
  end
with getPermutationsLarger (fuel : nat) (array : list T) {struct fuel}
    : option (list (list T)) :=
  match fuel with
  | O => None
  | S fuel' =>
      if (length array <=? 1)%nat then Some [array]
      else
        blocks ← mapM (λ '(i, current),
                    match getPermutations fuel' (remaining array i) with
                    | Some (_, permutations) =>
                        Some ((current ::.) <$> permutations)
                    | None => None
                    end)
                  (imap pair array);
        Some (concat blocks)
  end.

End Permutations.

End MathUtils.

(** ** Running Heap's algorithm on index lists *)

Module PermCheck.

Import MathUtils.

Section Acc.
Context {T : Type}.

(** [heap_loop] with the emitted arrays pushed on the front of an
    accumulator: the same run, without the quadratic cost of appending. *)
Fixpoint heap_acc (fuel len : nat) (array : list T) (c : list nat)
    (i : nat) (acc : list (list T)) : option (list T * list (list T)) :=
  match fuel with
  | O => None
  | S fuel' =>
      if (i <? len)%nat then
        let ci := default 0%nat (c !! i) in
        if (ci <? i)%nat then
          let k := if (i `mod` 2 =? 0)%nat then 0%nat else ci in
          let array' := swap array i k in
          heap_acc fuel' len array' (<[i:=S ci]> c) 0 (array' :: acc)
        else heap_acc fuel' len array (<[i:=0%nat]> c) (S i) acc
      else Some (array, acc)
  end.
End Acc.

(** Iterations granted to the loop when it is run on index lists; the
    run on 8 elements, the longest, needs fewer. *)
Definition heap_fuel : nat := 300 * 400.

(** An index list read as a number in base 8: equal codes of two lists
    in a run would betray a repeated permutation. *)
Definition code (p : list nat) : N :=
  fold_left (λ acc d, acc * 8 + N.of_nat d)%N p 0%N.

(** [p] has [n] entries and holds every index below [n]. *)
Definition is_index_perm (n : nat) (p : list nat) : bool :=
  (length p =? n)%nat && forallb (λ i, existsb (Nat.eqb i) p) (seq 0 n).

(** Strictly increasing. *)
Fixpoint increasing (l : list N) : bool :=
  match l with
  | x :: (y :: _) as t => (x <? y)%N && increasing t
  | _ => true
  end.

Module NLeb <: Orders.TotalLeBool.
Definition t : Type := N.
Definition leb : t → t → bool := N.leb.
Theorem leb_total : ∀ x y, leb x y = true ∨ leb y x = true.
Proof. intros x y. unfold leb. rewrite !N.leb_le. lia. Qed.
End NLeb.

Module NSort := Sort NLeb.

(** The run of the loop on [[0, ..., n-1]] returns [n!] lists, each a
    permutation of the indices, with pairwise different codes; and there
    are no more than [n!] permutations of the indices. *)
Definition heap_check (n : nat) : bool :=
  match heap_acc heap_fuel n (seq 0 n) (replicate n 0%nat) 0 [seq 0 n] with
  | Some (_, acc) =>
      (length acc =? fact n)%nat
      && (length (permutations (seq 0 n)) =? fact n)%nat
      && forallb (is_index_perm n) acc
      && increasing (NSort.sort (code <$> acc))
  | None => false
  end.

(** What [getPermutations] is asked to produce: [n!] lists, no list
    twice, and a list is among them exactly when it is a permutation of
    [array]. *)
Definition all_orderings {T} (array : list T) (result : list (list T)) : Prop :=
  length result = fact (length array) ∧ NoDup result ∧
  ∀ p, p ∈ result ↔ p ≡ₚ array.

End PermCheck.

(** ** ranges.ts *)

Module Ranges.

(** A range is the two-element array [[start, end]]. *)
Abbreviation range := (Z * Z)%type.

(** [rangesOverlap([start1, end1], [start2, end2])] *)
Definition rangesOverlap (r1 r2 : range) : bool :=
  (r1.1 <=? r2.2) && (r2.1 <=? r1.2).

(** The store of range objects.  An array of ranges holds references
    (addresses); several arrays, or several slots of one array, may hold
    the same reference. *)
Abbreviation store := (list range).
Abbreviation ref := nat.

Definition deref (h : store) (p : ref) : range := default (0, 0) (h !! p).

(** [[...ranges].sort(([a], [b]) => a - b)]: the references are copied
    into a new array and sorted by the start of the range they point to.
    [Array.prototype.sort] is stable, which fixes the result; it is
    computed here by insertion from the right. *)
Fixpoint insert_by_start (h : store) (p : ref) (sorted : list ref) : list ref :=
  match sorted with
  | [] => [p]
  | q :: rest =>
      if (deref h p).1 - (deref h q).1 <=? 0 then p :: q :: rest
      else q :: insert_by_start h p rest
  end.

Definition sort_by_start (h : store) (ranges : list ref) : list ref :=
  foldr (insert_by_start h) [] ranges.

(** Body of [for (const [start, end] of sorted.slice(1))].  The state is
    the store and the array [merged]; [merged[merged.length - 1][1] = ...]
    writes into the range object the last slot refers to, and
    [merged.push([start, end])] allocates a new object.  The sum
    [lastEnd + 1] is the exact one, which is the double the code computes
    for bounds below 2^53 in absolute value ([safe] below); what depends on
    the value of the sum is stated for such bounds. *)
Definition merge_step (st : store * list ref) (p : ref) : store * list ref :=
  let '(h, merged) := st in
  let '(start, end_) := deref h p in
  match last merged with
  | Some lastp =>
      let lastEnd := (deref h lastp).2 in
      if start <=? lastEnd + 1
      then (<[lastp := ((deref h lastp).1, Z.max lastEnd end_)]> h, merged)
      else (h ++ [(start, end_)], merged ++ [length h])
  | None => st
  end.

(** [mergeRanges(ranges)] on the store [h]: the store after the call and
    the returned array of references. *)
Definition mergeRanges_on (h : store) (ranges : list ref) : store * list ref :=
  if (length ranges =? 0)%nat then (h, [])
  else
    match sort_by_start h ranges with
    | [] => (h, [])
    | first :: rest => fold_left merge_step rest (h, [first])
    end.

(** [mergeRanges] applied to an array literal: every range is an object
    of its own; the result is read back from the final store. *)
Definition mergeRanges (ranges : list range) : list range :=
  let '(h, merged) := mergeRanges_on ranges (seq 0 (length ranges)) in
  deref h <$> merged.

End Ranges.

(** ** The range loop read on values *)

Module RangesPure.

Import Ranges.

Fixpoint insert_range (r : range) (sorted : list range) : list range :=
  match sorted with
  | [] => [r]
  | s :: rest =>
      if r.1 - s.1 <=? 0 then r :: s :: rest else s :: insert_range r rest
  end.

Definition sort_ranges (ranges : list range) : list range :=
  foldr insert_range [] ranges.

(** The loop of [mergeRanges] with the last merged range kept apart as
    [cur]. *)
Fixpoint merge_from (cur : range) (rest : list range) : list range :=
  match rest with
  | [] => [cur]
  | (start, end_) :: rest' =>
      if start <=? cur.2 + 1
      then merge_from (cur.1, Z.max cur.2 end_) rest'
      else cur :: merge_from (start, end_) rest'
  end.

Definition merge_sorted (sorted : list range) : list range :=
  match sorted with
  | [] => []
  | first :: rest => merge_from first rest
  end.

(** The integer points a sequence of ranges covers. *)
Definition covers (ranges : list range) (x : Z) : Prop :=
  ∃ r, r ∈ ranges ∧ r.1 ≤ x ≤ r.2.

(** A closed interval has its start at or below its end. *)
Definition closed (r : range) : Prop := r.1 ≤ r.2.

(** Both bounds are safe integers ([Number.isSafeInteger]): below 2^53
    in absolute value, where [lastEnd + 1] is computed exactly. *)
Definition safe (r : range) : Prop := Z.abs r.1 < 2 ^ 53 ∧ Z.abs r.2 < 2 ^ 53.

(** Sorted by start with a gap of at least one integer between
    neighbours: neither overlapping nor adjacent. *)
Definition apart (r1 r2 : range) : Prop := r1.2 + 1 < r2.1.

Definition canonical (ranges : list range) : Prop :=
  Forall closed ranges ∧ Sorted apart ranges.

(** The order the comparator [([a], [b]) => a - b] sorts into. *)
Definition by_start (r1 r2 : range) : Prop := r1.1 ≤ r2.1.

End RangesPure.

(** ** array.ts *)

Module ArrayUtils.

(** A call either returns or throws. *)
Inductive outcome (A : Type) : Type :=
| Returned (a : A)
| Threw (name : string).
Arguments Returned {A} a.
Arguments Threw {A} name.

Section Generic.
Context {T : Type}.

(** [array.slice(start, end)] with the relative-index rules of
    ECMAScript: a negative index counts from the end, and both ends are
    clamped to the array. *)
Definition clamp_index (len k : Z) : Z :=
  if k <? 0 then Z.max (len + k) 0 else Z.min k len.

Definition slice (array : list T) (start end_ : Z) : list T :=
  let len := Z.of_nat (length array) in
  let k := clamp_index len start in
  let final := clamp_index len end_ in
  take (Z.to_nat (final - k)) (drop (Z.to_nat k) array).

(** [windows(array, size)].  The [for] loop runs [i] from 0 up to
    [array.length - size] inclusive. *)
Definition windows (array : list T) (size : Z) : list (list T) :=
  let len := Z.of_nat (length array) in
  if len <? size then []
  else (λ i, slice array i (i + size)) <$> seqZ 0 (len - size + 1).

(** [transpose(matrix)].  [matrix[0]] is [undefined] for an empty
    matrix and calling [.map] on it throws a [TypeError].  A row shorter
    than the first one yields [undefined] cells, hence the [option]. *)
Definition transpose (matrix : list (list T))
    : outcome (list (list (option T))) :=
  match matrix !! 0%nat with
  | None => Threw "TypeError"
  | Some row0 =>
      Returned (imap (λ colIndex _, (λ row : list T, row !! colIndex) <$> matrix) row0)
  end.

Context `{EqDecision T}.

(** A [Set] keeps its elements in insertion order; [add] ignores an
    element that is already there. *)
Definition Set_add (s : list T) (x : T) : list T :=
  if decide (x ∈ s) then s else s ++ [x].

(** [new Set(arr)] followed by the spread [[...set]]. *)
Definition Set_of (arr : list T) : list T := fold_left Set_add arr [].

(** A [Map] as the list of its entries in insertion order. *)
Definition Map_has {V} (m : list (T * V)) (k : T) : bool :=
  bool_decide (k ∈ m.*1).

Definition Map_set {V} (m : list (T * V)) (k : T) (v : V) : list (T * V) :=
  if Map_has m k
  then (λ e, if decide (e.1 = k) then (k, v) else e) <$> m
  else m ++ [(k, v)].

(** Body of the [for] loop of [unique] on the state [(seen, result)]. *)
Definition unique_step (st : list (T * bool) * list T) (item : T)
    : list (T * bool) * list T :=
  let '(seen, result) := st in
  if negb (Map_has seen item)
  then (Map_set seen item true, result ++ [item])
  else (seen, result).

Definition unique_small (arr : list T) : list T := Set_of arr.

Definition unique_large (arr : list T) : list T :=
  (fold_left unique_step arr ([], [])).2.

(** [unique(arr)] *)
Definition unique (arr : list T) : list T :=
  if (length arr <? 1000)%nat then unique_small arr else unique_large arr.

(** Each distinct element once, where it first occurs. *)
Fixpoint first_occurrences (arr : list T) : list T :=
  match arr with
  | [] => []
  | x :: rest => x :: filter (λ y, y ≠ x) (first_occurrences rest)
  end.

End Generic.

(** *** create2DArray *)

(** The JavaScript values a grid cell may hold. *)
Inductive value : Type :=
| VNumber (x : Q)
| VNaN
| VInfinity (negative : bool)
| VString (s : string)
| VBoolean (b : bool)
| VUndefined
| VObject (ref : nat).

(** [typeof v === "number" && Number.isInteger(v)] *)
Definition as_integer (v : value) : option Z :=
  match v with
  | VNumber x =>
      if (Qnum x `mod` Zpos (Qden x) =? 0) then Some (Qnum x `div` Zpos (Qden x))
      else None
  | _ => None
  end.

(** The test guarding the typed-array branch. *)
Definition small_unsigned (v : value) : bool :=
  match as_integer v with
  | Some n => (0 <=? n) && (n <? 256)
  | None => false
  end.

(** A row is a [Uint8Array] or a plain array. *)
Inductive row : Type :=
| Uint8Array (cells : list Z)
| PlainArray (cells : list value).

Section Coercion.

(** [ToNumber] on a string follows the numeric-literal grammar and on an
    object runs its conversion methods; neither is modelled, both are
    taken as given. *)
Variable string_to_number : string → value.
Variable object_to_number : nat → value.

Definition to_number (v : value) : value :=
  match v with
  | VString s => string_to_number s
  | VObject ref => object_to_number ref
  | VBoolean b => VNumber (if b then 1 else 0)
  | VUndefined => VNaN
  | _ => v
  end.

(** [ToUint8]: truncate towards zero, then reduce modulo 256; not a finite
    number gives 0. *)
Definition to_uint8 (v : value) : Z :=
  match to_number v with
  | VNumber x => (Qnum x ÷ Zpos (Qden x)) `mod` 256
  | _ => 0
  end.

(** [create2DArray(rows, cols, defaultValue)] *)
Definition create2DArray (rows cols : nat) (defaultValue : value) : list row :=
  if small_unsigned defaultValue then
    let uint8Array := replicate cols (to_uint8 defaultValue) in
    replicate rows (Uint8Array uint8Array)
  else
    replicate rows (PlainArray (replicate cols defaultValue)).

(** [r[j]] *)
Definition row_get (r : row) (j : nat) : value :=
  match r with
  | Uint8Array cells =>
      match cells !! j with Some c => VNumber (inject_Z c) | None => VUndefined end
  | PlainArray cells => default VUndefined (cells !! j)
  end.

(** [r[j] = v].  A typed array coerces the value and ignores an index
    outside the buffer; a plain array stores the value as it is and grows
    when the index is past its end. *)
Definition row_set (r : row) (j : nat) (v : value) : row :=
  match r with
  | Uint8Array cells => Uint8Array (<[j := to_uint8 v]> cells)
  | PlainArray cells =>
      if (j <? length cells)%nat then PlainArray (<[j := v]> cells)
      else PlainArray (cells ++ replicate (j - length cells) VUndefined ++ [v])
  end.

End Coercion.

Definition row_length (r : row) : nat :=
  match r with Uint8Array cells => length cells | PlainArray cells => length cells end.

Definition is_typed (r : row) : bool :=
  match r with Uint8Array _ => true | PlainArray _ => false end.

(** Two cells hold the same value: numbers are compared by value, so the
    integer read from a typed array equals the number it was filled
    with. *)
Definition same_value (v w : value) : Prop :=
  match v, w with
  | VNumber x, VNumber y => (x == y)%Q
  | _, _ => v = w
  end.

End ArrayUtils.

(** ** The day test harness (2024/day8/test.ts) *)

Module Harness.

Import ArrayUtils.

(** An answer is a number or a string. *)
Inductive answer : Type :=
| ANumber (n : Z)
| AString (s : string).

(** [{ input, expected }] *)
Record TestCase : Type := { input : string; expected : answer }.

(** [DayTests]: both parts are optional lists of cases. *)
Record DayTests : Type := {
  part1 : option (list TestCase);
  part2 : option (list TestCase)
}.

Section Runner.

(** The console the helpers write to.  [runTestPart] is imported from
    [utils/test_utils.ts]; it is asynchronous and the harness awaits it,
    so it is a function of the console it finds to its verdict and the
    console it leaves. *)
Variable console : Type.
Variable runTestPart :
  (string → answer) → list TestCase → nat → console → bool * console.

(** The two entry points of the day's solution, imported as [solution]. *)
Variable solution_part1 solution_part2 : string → answer.

(** [!cases?.length]: true for a missing list and for an empty one. *)
Definition no_length (cases : option (list TestCase)) : bool :=
  match cases with
  | None => true
  | Some l => (length l =? 0)%nat
  end.

(** [runPart1Tests()] on the module constant [tests].  The function is
    [async]: an exception thrown in its body rejects the promise it
    returns, [Threw] below.  The first branch begins with the call
    [log(...)]; [test.ts] imports [DayTests], [runTestPart] and [solution]
    only and declares [input], [tests] and the two functions, so [log] is
    bound nowhere and evaluating it throws a [ReferenceError] before
    anything is written and before [return true]. *)
Definition runPart1Tests (tests : DayTests) (out : console)
    : outcome (bool * console) :=
  if no_length (part1 tests) then Threw "ReferenceError"
  else Returned (runTestPart solution_part1 (default [] (part1 tests)) 1 out).

(** [runPart2Tests()], likewise. *)
Definition runPart2Tests (tests : DayTests) (out : console)
    : outcome (bool * console) :=
  if no_length (part2 tests) then Threw "ReferenceError"
  else Returned (runTestPart solution_part2 (default [] (part2 tests)) 2 out).

End Runner.

End Harness.

(** ** math.ts, the remaining helpers *)

Module MathMore.

Import Ascii JS MathUtils ArrayUtils.

(** The value of one character of a binary string: [binary[i] === "1" ? 1 : 0]. *)
Definition bit_of (ch : Ascii.ascii) : Z :=
  if Ascii.eqb ch "1"%char then 1 else 0.

(** [binaryToDecimal(binary)]: [result = (result << 1) | bit] for each
    character, with the 32-bit operators. *)
Definition binaryToDecimal (binary : string) : Z :=
  fold_left (λ result ch, bor (shl result 1) (bit_of ch))
    (list_ascii_of_string binary) 0.

(** The number a string of binary digits denotes, every character other
    than ["1"] counting as a zero digit. *)
Definition binary_value (binary : string) : Z :=
  fold_left (λ v ch, 2 * v + bit_of ch) (list_ascii_of_string binary) 0.

Section Counting.
Context {T : Type} `{EqDecision T}.

(** [map.get(k)] on a [Map] kept as its entries in insertion order. *)
Fixpoint Map_get {V} (m : list (T * V)) (k : T) : option V :=
  match m with
  | [] => None
  | (k', v) :: m' => if decide (k' = k) then Some v else Map_get m' k
  end.

(** [x || 0] on the result of [map.get]: a missing entry and a zero both
    give 0. *)
Definition or_zero (x : option Z) : Z :=
  match x with
  | Some c => if c =? 0 then 0 else c
  | None => 0
  end.

(** Equality on [T] is [SameValueZero], the equality [Map] and [Set] use
    for their keys.  [===] differs from it on [NaN] alone, which is not
    [===] to itself; [is_NaN] tells which values of [T] are [NaN] (none
    when [T] has no numbers). *)
Variable is_NaN : T → bool.

(** [x === y] *)
Definition strict_equal (x y : T) : bool :=
  negb (is_NaN x) && bool_decide (x = y).

(** [countOccurrences(array, value)] (array.ts) *)
Definition countOccurrences (array : list T) (value : T) : Z :=
  fold_left (λ count x, if strict_equal x value then count + 1 else count)
    array 0.

(** Body of the [for] loop of [mode] on the state
    [(freq, maxFreq, maxItem)]. *)
Definition mode_step (st : list (T * Z) * Z * option T) (item : T)
    : list (T * Z) * Z * option T :=
  let '(freq, maxFreq, maxItem) := st in
  let count := or_zero (Map_get freq item) + 1 in
  let freq := Map_set freq item count in
  if count >? maxFreq then (freq, count, Some item)
  else (freq, maxFreq, maxItem).

(** [mode(arr)]; [arr[0]] of an empty array is [undefined], here [None]. *)
Definition mode (arr : list T) : option T :=
  (fold_left mode_step arr ([], 0, head arr)).2.

(** [getFrequencyMap(array)] (array.ts): the entries of the returned
    [Map] in insertion order. *)
Definition getFrequencyMap (array : list T) : list (T * Z) :=
  fold_left (λ map item, Map_set map item (or_zero (Map_get map item) + 1))
    array [].

End Counting.

End MathMore.

(** ** Invariants of the counting loops *)

Module CountingInvariants.

Import ArrayUtils MathMore.

Section Invariants.
Context {T : Type} `{EqDecision T}.

(** The number of positions of [arr] that hold [x]. *)
Definition occurrences (arr : list T) (x : T) : Z :=
  Z.of_nat (length (filter (λ y, y = x) arr)).

(** The map built over a prefix holds the counts of that prefix. *)
Definition counts_of (map : list (T * Z)) (seen : list T) : Prop :=
  ∀ x, Map_get map x
       = if decide (x ∈ seen) then Some (occurrences seen x) else None.

(** State of [mode] after the elements [seen]: the counts, the highest
    count so far and an element that has it. *)
Definition mode_inv (arr : list T) (st : list (T * Z) * Z * option T)
    (seen : list T) : Prop :=
  counts_of st.1.1 seen
  ∧ (∀ x, occurrences seen x ≤ st.1.2)
  ∧ match seen with
    | [] => st.1.2 = 0 ∧ st.2 = head arr
    | _ => ∃ m, st.2 = Some m ∧ m ∈ seen ∧ occurrences seen m = st.1.2
    end.

End Invariants.

End CountingInvariants.

(** ** One round of getPermutationsLarger *)

Module PermRounds.

Import MathUtils.

(** The body of the [for] loop of [getPermutationsLarger], for a given
    recursive call. *)
Definition round_body {A} (rec : list A → option (list A * list (list A)))
    (array : list A) : nat * A → option (list (list A)) :=
  λ '(i, current),
    match rec (remaining array i) with
    | Some (_, permutations) => Some ((current ::.) <$> permutations)
    | None => None
    end.

End PermRounds.

(** ** array.ts, the remaining helpers *)

Module ArrayMore.

Import ArrayUtils.

(** [sum(numbers)]: [numbers.reduce((a, b) => a + b, 0)] *)
Definition sum (numbers : list Z) : Z := fold_left Z.add numbers 0.

(** A JavaScript number that is an integer or one of the infinities
    ([Math.min()] and [Math.max()] of no arguments). *)
Inductive extended : Type :=
| Finite (z : Z)
| PosInfinity
| NegInfinity.

Definition ext_min (a b : extended) : extended :=
  match a, b with
  | NegInfinity, _ | _, NegInfinity => NegInfinity
  | PosInfinity, x | x, PosInfinity => x
  | Finite x, Finite y => Finite (Z.min x y)
  end.

Definition ext_max (a b : extended) : extended :=
  match a, b with
  | PosInfinity, _ | _, PosInfinity => PosInfinity
  | NegInfinity, x | x, NegInfinity => x
  | Finite x, Finite y => Finite (Z.max x y)
  end.

(** [Math.min(...arr)] and [Math.max(...arr)] *)
Definition Math_min (arr : list Z) : extended :=
  fold_left (λ acc x, ext_min acc (Finite x)) arr PosInfinity.

Definition Math_max (arr : list Z) : extended :=
  fold_left (λ acc x, ext_max acc (Finite x)) arr NegInfinity.

(** [minMax(arr)]: the object [{ min, max }] as a pair. *)
Definition minMax (arr : list Z) : extended * extended :=
  (Math_min arr, Math_max arr).

(** [sequence(start, end, step)] on safe integers whose difference
    [end - start] is below 2^53 in absolute value: there the subtraction
    is exact, the rounded quotient has the floor of the exact one, and
    the elements [start + i * step] are exact.  Beyond that the doubles
    round and the code may return fewer numbers.  With [step = 0] the
    quotient is [NaN] when [end = start], which [new Float64Array] reads
    as length 0, and an infinity otherwise, which it refuses, as it
    refuses a negative length. *)
Definition sequence (start end_ step : Z) : outcome (list Z) :=
  if step =? 0 then
    if end_ =? start then Returned [] else Threw "RangeError"
  else
    let length := (end_ - start) `div` step + 1 in
    if length <? 0 then Threw "RangeError"
    else Returned ((λ i, start + i * step) <$> seqZ 0 length).

Section Generic.
Context {T : Type}.

(** [chunks(arr, size)]: the loop
    [for (let i = 0; i < arr.length; i += size)] on the state
    [(i, result)]. *)
Fixpoint chunks_loop (fuel : nat) (arr : list T) (size i : Z)
    (result : list (list T)) : option (list (list T)) :=
  match fuel with
  | O => None
  | S fuel' =>
      let len := Z.of_nat (length arr) in
      if i <? len then
        chunks_loop fuel' arr size (i + size)
          (result ++ [slice arr i (Z.min (i + size) len)])
      else Some result
  end.

Definition chunks (fuel : nat) (arr : list T) (size : Z)
    : option (list (list T)) :=
  chunks_loop fuel arr size 0 [].

(** [zip(...arrays)].  [Math.min()] of no lengths is [Infinity], and
    [Array.from({ length: Infinity })] throws a [RangeError].  Below the
    least length every [array[i]] is defined; the cells are kept as
    options, as in [transpose]. *)
Definition zip (arrays : list (list T)) : outcome (list (list (option T))) :=
  match length <$> arrays with
  | [] => Threw "RangeError"
  | n :: ns =>
      let minLength := foldr Nat.min n ns in
      Returned ((λ i, (λ array : list T, array !! i) <$> arrays)
                  <$> seq 0 minLength)
  end.

(** [pairs(arr)]: the nested loops over [i < j]; the preallocated array
    has exactly the length the loops fill. *)
Definition pairs (arr : list T) : list (T * T) :=
  let n := length arr in
  i ← seq 0 (n - 1);
  j ← seq (S i) (n - S i);
  match arr !! i, arr !! j with
  | Some x, Some y => [(x, y)]
  | _, _ => []
  end.

(** [getOverlappingPairs(arr)]:
    [arr.slice(0, -1).map((item, i) => [item, arr[i + 1]])].
    [arr[i + 1]] is defined for every [i] the map visits. *)
Definition getOverlappingPairs (arr : list T) : list (T * T) :=
  if (length arr <? 2)%nat then []
  else
    omap (λ '(i, item), pair item <$> arr !! S i)
      (imap pair (slice arr 0 (-1))).

(** [removeAtIndex(arr, index)] *)
Definition removeAtIndex (arr : list T) (index : Z) : list T :=
  let len := Z.of_nat (length arr) in
  if (index <? 0) || (len <=? index) then slice arr 0 len
  else slice arr 0 index ++ slice arr (index + 1) len.

(** [removeAtIndexInPlace(arr, index)]: the contents of [arr] after the
    call; [arr.splice(index, 1)] takes one element out at [index]. *)
Definition removeAtIndexInPlace (arr : list T) (index : Z) : list T :=
  let len := Z.of_nat (length arr) in
  if (index <? 0) || (len <=? index) then arr
  else delete (Z.to_nat index) arr.

(** [combinations(array, r)].  [fuel] bounds the depth of the recursion;
    [None] is a recursion that does not end (JavaScript then fails with a
    stack overflow).  The spread evaluates [combinations(rest, r)] before
    [combinations(rest, r - 1)].  On an empty array the last branch calls
    itself on the same arguments. *)
Fixpoint combinations (fuel : nat) (array : list T) (r : Z)
    : option (list (list T)) :=
  match fuel with
  | O => None
  | S fuel' =>
      let len := Z.of_nat (length array) in
      if len <? r then Some []
      else if r =? 0 then Some [[]]
      else if r =? len then Some [array]
      else if r =? 1 then Some ((λ el, [el]) <$> array)
      else
        match array with
        | [] => None
        | first :: rest =>
            match combinations fuel' rest r with
            | None => None
            | Some without =>
                match combinations fuel' rest (r - 1) with
                | None => None
                | Some with_ =>
                    Some (without ++ ((λ combo, first :: combo) <$> with_))
                end
            end
        end
  end.

Context `{EqDecision T}.

(** [hasIntersection(arr1, arr2)]: the shorter array goes into the
    [Set]. *)
Definition hasIntersection (arr1 arr2 : list T) : bool :=
  let '(arr1, arr2) :=
    if (length arr2 <? length arr1)%nat then (arr2, arr1) else (arr1, arr2) in
  let set := Set_of arr1 in
  existsb (λ item, bool_decide (item ∈ set)) arr2.

End Generic.

(** The binomial coefficient, by Pascal's rule. *)
Fixpoint binomial (n k : nat) : nat :=
  match n, k with
  | _, O => 1
  | O, S _ => 0
  | S n', S k' => binomial n' k' + binomial n' (S k')
  end.

End ArrayMore.

(** ** array.ts: sorting *)

Module SortUtils.

Import MathUtils ArrayUtils.

(** [Array.prototype.sort(compareFn)] on numbers.  The sort is stable,
    which fixes the result for a consistent comparator; it is computed
    here by insertion from the right. *)
Fixpoint sort_insert (compareFn : Z → Z → Z) (x : Z) (sorted : list Z)
    : list Z :=
  match sorted with
  | [] => [x]
  | y :: rest =>
      if compareFn x y <=? 0 then x :: y :: rest
      else y :: sort_insert compareFn x rest
  end.

Definition Array_sort (compareFn : Z → Z → Z) (arr : list Z) : list Z :=
  foldr (sort_insert compareFn) [] arr.

(** [sortNumbers(arr)]: [arr.slice().sort((a, b) => a - b)] *)
Definition sortNumbers (arr : list Z) : list Z :=
  Array_sort (λ a b, a - b) (slice arr 0 (Z.of_nat (length arr))).

(** [sortUnique(arr)]: [[...new Set(arr)].sort((a, b) => a - b)] *)
Definition sortUnique (arr : list Z) : list Z :=
  Array_sort (λ a b, a - b) (Set_of arr).

(** [getTopN(arr, n)]: [arr.slice().sort((a, b) => b - a).slice(0, n)] *)
Definition getTopN (arr : list Z) (n : Z) : list Z :=
  slice (Array_sort (λ a b, b - a) (slice arr 0 (Z.of_nat (length arr)))) 0 n.

(** Body of the [for (let j = low; j < high; j++)] loop of [partition]
    on the state [(arr, i)].  The indices the loop uses are inside the
    array ([0 <= low <= i + 1 <= j < high < arr.length]). *)
Definition partition_step (pivot : Z) (st : list Z * Z) (j : Z) : list Z * Z :=
  let '(arr, i) := st in
  match arr !! Z.to_nat j with
  | Some aj =>
      if aj <=? pivot
      then (swap arr (Z.to_nat (i + 1)) (Z.to_nat j), i + 1)
      else (arr, i)
  | None => (arr, i)
  end.

(** [partition(low, high)] of [quickSort]: the contents of [arr] after
    the call and the returned index. *)
Definition partition (arr : list Z) (low high : Z) : list Z * Z :=
  match arr !! Z.to_nat high with
  | Some pivot =>
      let '(arr, i) :=
        fold_left (partition_step pivot) (seqZ low (high - low)) (arr, low - 1) in
      (swap arr (Z.to_nat (i + 1)) (Z.to_nat high), i + 1)
  | None => (arr, low)
  end.

(** [sort(low, high)] of [quickSort]: the contents of [arr] after the
    call.  [fuel] bounds the depth of the recursion. *)
Fixpoint sort (fuel : nat) (arr : list Z) (low high : Z) : option (list Z) :=
  match fuel with
  | O => None
  | S fuel' =>
      if low <? high then
        let '(arr, pi) := partition arr low high in
        match sort fuel' arr low (pi - 1) with
        | Some arr => sort fuel' arr (pi + 1) high
        | None => None
        end
      else Some arr
  end.

(** [quickSort(arr)]: the contents of the caller's array after the
    call. *)
Definition quickSort (fuel : nat) (arr : list Z) : option (list Z) :=
  sort fuel arr 0 (Z.of_nat (length arr) - 1).

(** [count[num - min]++] on the array [count] of [range] numbers.  An
    index outside [0 .. range - 1] makes a [NaN] entry past the end or
    under a key that is no index; the second loop, which reads
    [count[i]] for [i < range] only, never sees it. *)
Definition count_step (min : Z) (count : list Z) (num : Z) : list Z :=
  let k := num - min in
  if (0 <=? k) && (k <? Z.of_nat (length count))
  then alter (λ c, c + 1) (Z.to_nat k) count
  else count.

(** [output[outIdx] = value].  A write at or past the length grows the
    array, leaving holes before the new element. *)
Definition Array_set {A} (array : list (option A)) (i : nat) (v : A)
    : list (option A) :=
  if (i <? length array)%nat then <[i := Some v]> array
  else array ++ replicate (i - length array) None ++ [Some v].

(** [while (count[i]-- > 0) { output[outIdx++] = i + min; }] on the
    state [(output, outIdx)]: the body runs [c] times for a count [c]. *)
Fixpoint emit (c : nat) (value : Z) (st : list (option Z) * nat)
    : list (option Z) * nat :=
  match c with
  | O => st
  | S c' => emit c' value (Array_set st.1 st.2 value, S st.2)
  end.

(** [countingSort(arr, min, max)].  [new Array(range)] throws a
    [RangeError] unless [0 <= range < 2^32].  [new Array(arr.length)]
    is an array of holes, [None] below. *)
Definition countingSort (arr : list Z) (min max : Z)
    : outcome (list (option Z)) :=
  let range := max - min + 1 in
  if (range <? 0) || (2 ^ 32 - 1 <? range) then Threw "RangeError"
  else
    let count := fold_left (count_step min) arr (replicate (Z.to_nat range) 0) in
    let output : list (option Z) := replicate (length arr) None in
    Returned
      (fold_left (λ st '(i, c), emit (Z.to_nat c) (Z.of_nat i + min) st)
         (imap pair count) (output, 0%nat)).1.

(** A comparator [compareFn] orders numbers by [R]. *)
Definition orders_by (compareFn : Z → Z → Z) (R : Z → Z → Prop) : Prop :=
  (∀ x y, compareFn x y ≤ 0 ↔ R x y)
  ∧ (∀ x y, R x y ∨ R y x)
  ∧ (∀ x y z, R x y → R y z → R x z)
  ∧ (∀ x y, R x y → R y x → x = y).

End SortUtils.

(** * Properties *)

Module JSFacts.

Import JS.

Lemma to_int32_range z : - 2 ^ 31 ≤ to_int32 z < 2 ^ 31.
Proof.
  unfold to_int32.
  pose proof (Z.mod_pos_bound (z + 2 ^ 31) (2 ^ 32) eq_refl). lia.
Qed.

Lemma to_int32_small z : - 2 ^ 31 ≤ z < 2 ^ 31 → to_int32 z = z.
Proof.
  intros Hz. unfold to_int32.
  rewrite Z.mod_small; lia.
Qed.

End JSFacts.

(** ** gcd and lcm *)

Module MathFacts.

Import JS JSFacts MathUtils.

(** With both operands zero the first loop never exits. *)
Lemma strip_common_zero fuel shift : strip_common fuel 0 0 shift = None.
Proof.
  revert shift. induction fuel as [|fuel IH]; intros shift; [done|].
  cbn [strip_common].
  change (band (bor 0 0) 1) with 0. change (sar 0 1) with 0.
  cbn [Z.eqb]. apply IH.
Qed.

(** With [a = 0] the second loop never exits. *)
Lemma strip_twos_zero fuel : strip_twos fuel 0 = None.
Proof.
  induction fuel as [|fuel IH]; [done|].
  cbn [strip_twos]. change (band 0 1) with 0. change (sar 0 1) with 0.
  cbn [Z.eqb]. apply IH.
Qed.

(** A zero [a] stays zero through the first loop, so [gcd(0, b)] never
    returns, whatever [b] is. *)
Lemma strip_common_zero_left fuel b shift a' b' shift' :
  strip_common fuel 0 b shift = Some (a', b', shift') → a' = 0.
Proof.
  revert b shift. induction fuel as [|fuel IH]; intros b shift; [done|].
  cbn [strip_common]. change (sar 0 1) with 0.
  destruct (band (bor 0 b) 1 =? 0); [apply IH|]. by intros [= <- _ _].
Qed.

Lemma gcd_zero_left fuel b : gcd fuel 0 b = None.
Proof.
  unfold gcd. change (Z.abs 0) with 0.
  destruct (strip_common fuel 0 (Z.abs b) 0) as [[[a' b'] shift']|] eqn:Hloop;
    [|done].
  apply strip_common_zero_left in Hloop as ->.
  by rewrite strip_twos_zero.
Qed.

(** *** The loops on the 31-bit range *)

Lemma band_one x : band x 1 = x `mod` 2.
Proof.
  unfold band. change (to_int32 1) with (Z.ones 1).
  rewrite Z.land_ones by lia. change (2 ^ 1) with 2.
  unfold to_int32. rewrite (Z.mod_eq (x + 2 ^ 31)) by lia.
  replace (x + 2 ^ 31 - 2 ^ 32 * ((x + 2 ^ 31) `div` 2 ^ 32) - 2 ^ 31)
    with (x + (- (2 ^ 31 * ((x + 2 ^ 31) `div` 2 ^ 32))) * 2) by lia.
  apply Z_mod_plus_full.
Qed.

Lemma bor_parity a b :
  (band (bor a b) 1 =? 0) = negb (Z.odd a || Z.odd b).
Proof.
  rewrite band_one. unfold bor.
  rewrite Zmod_odd, <- !Z.bit0_odd, Z.lor_spec, !Z.bit0_odd.
  assert (Hp : ∀ x, Z.odd (to_int32 x) = Z.odd x).
  { intros x. pose proof (band_one x) as H. unfold band in H.
    change (to_int32 1) with (Z.ones 1) in H.
    rewrite Z.land_ones in H by lia. change (2 ^ 1) with 2 in H.
    rewrite !Zmod_odd in H.
    destruct (Z.odd (to_int32 x)), (Z.odd x); done. }
  rewrite !Hp. by destruct (Z.odd a), (Z.odd b).
Qed.

Lemma band_one_parity a : (band a 1 =? 0) = negb (Z.odd a).
Proof. rewrite band_one, Zmod_odd. by destruct (Z.odd a). Qed.

Lemma sar_one a : - 2 ^ 31 ≤ a < 2 ^ 31 → sar a 1 = a `div` 2.
Proof.
  intros Ha. unfold sar. rewrite to_int32_small by done.
  change (1 `mod` 32) with 1. by rewrite Z.shiftr_div_pow2.
Qed.

Lemma even_double a : Z.odd a = false → a = 2 * (a `div` 2).
Proof.
  intros Ha. pose proof (Z.div_mod a 2 ltac:(lia)) as H.
  rewrite Zmod_odd, Ha in H. lia.
Qed.

(** Halving one operand keeps the gcd with an odd number. *)
Lemma gcd_double_odd x c : Z.odd c = true → Z.gcd (2 * x) c = Z.gcd x c.
Proof.
  intros Hc. apply Z.divide_antisym_nonneg; try apply Z.gcd_nonneg.
  - apply Z.gcd_greatest; [|apply Z.gcd_divide_r].
    apply Z.gauss with 2; [apply Z.gcd_divide_l|].
    apply Z.divide_antisym_nonneg; [apply Z.gcd_nonneg|lia| |apply Z.divide_1_l].
    assert (Hd : (Z.gcd (Z.gcd (2 * x) c) 2 | Z.gcd c 2)).
    { apply Z.gcd_greatest; [|apply Z.gcd_divide_r].
      etrans; [apply Z.gcd_divide_l|apply Z.gcd_divide_r]. }
    assert (Hc2 : Z.gcd c 2 = 1).
    { destruct (Z.gcd_divide_r c 2) as [k Hk].
      pose proof (Z.gcd_nonneg c 2).
      pose proof (Z.divide_pos_le _ 2 ltac:(lia) (Z.gcd_divide_r c 2)).
      pose proof (Z.gcd_eq_0_r c 2).
      assert (Z.gcd c 2 = 1 ∨ Z.gcd c 2 = 2) as [|H2] by lia; [done|].
      destruct (Z.gcd_divide_l c 2) as [j Hj]. rewrite H2 in Hj.
      rewrite Hj, Z.mul_comm, Z.odd_mul in Hc. done. }
    by rewrite Hc2 in Hd.
  - apply Z.gcd_greatest; [|apply Z.gcd_divide_r].
    etrans; [apply Z.gcd_divide_l|]. by exists 2.
Qed.

Lemma strip_twos_spec fuel a :
  0 < a < 2 ^ 31 → (Z.to_nat a < fuel)%nat →
  ∃ a', strip_twos fuel a = Some a' ∧ 0 < a' ≤ a ∧ Z.odd a' = true ∧
        (Z.odd a = true → a' = a) ∧
        (∀ c, Z.odd c = true → Z.gcd a' c = Z.gcd a c).
Proof.
  revert a. induction fuel as [|fuel IH]; intros a Ha Hf; [lia|].
  cbn [strip_twos]. rewrite band_one_parity.
  destruct (Z.odd a) eqn:Hodd; cbn [negb].
  - exists a. repeat split; auto; lia.
  - rewrite sar_one by lia.
    pose proof (even_double a Hodd) as Hd.
    destruct (IH (a `div` 2)) as (a' & -> & Hr & Ho & _ & Hg); [lia|lia|].
    exists a'. repeat split; [lia|lia|done|done|].
    intros c Hc. rewrite (Hg c Hc).
    rewrite <- (gcd_double_odd (a `div` 2) c Hc). by rewrite <- Hd.
Qed.

Lemma strip_common_spec fuel a b s :
  0 < a < 2 ^ 31 → 0 ≤ b < 2 ^ 31 → (Z.to_nat a < fuel)%nat →
  ∃ a' b' k, strip_common fuel a b s = Some (a', b', s + k) ∧ 0 ≤ k ∧
             0 < a' ≤ a ∧ 0 ≤ b' ≤ b ∧ Z.odd a' || Z.odd b' = true ∧
             Z.gcd a b = Z.gcd a' b' * 2 ^ k.
Proof.
  revert a b s. induction fuel as [|fuel IH]; intros a b s Ha Hb Hf; [lia|].
  cbn [strip_common]. rewrite bor_parity.
  destruct (Z.odd a || Z.odd b) eqn:Hodd; cbn [negb].
  - exists a, b, 0. rewrite Z.add_0_r. repeat split; auto; lia.
  - apply orb_false_elim in Hodd as [Hoa Hob].
    rewrite !sar_one by lia.
    pose proof (even_double a Hoa) as Hda. pose proof (even_double b Hob) as Hdb.
    destruct (IH (a `div` 2) (b `div` 2) (s + 1))
      as (a' & b' & k & -> & Hk & Hra & Hrb & Ho & Hg); [lia|lia|lia|].
    exists a', b', (k + 1).
    replace (s + (k + 1)) with (s + 1 + k) by lia.
    repeat split; [lia|lia|lia|lia|lia|done|].
    rewrite Hda, Hdb at 1. rewrite Z.gcd_mul_mono_l_nonneg by lia.
    rewrite Hg, Z.pow_add_r by lia. lia.
Qed.

Lemma subtract_loop_spec fuel inner a b :
  0 < a < 2 ^ 31 → Z.odd a = true → 0 ≤ b < 2 ^ 31 →
  (Z.to_nat (a + b) < fuel)%nat → (Z.to_nat (a + b) < inner)%nat →
  subtract_loop fuel inner a b = Some (Z.gcd a b).
Proof.
  revert a b. induction fuel as [|fuel IH]; intros a b Ha Hoa Hb Hf Hi; [lia|].
  cbn [subtract_loop]. destruct (Z.eqb_spec b 0) as [->|Hb0].
  { by rewrite Z.gcd_0_r, Z.abs_eq by lia. }
  destruct (strip_twos_spec inner b) as (b1 & -> & Hr & Hob & _ & Hg); [lia|lia|].
  specialize (Hg a Hoa). rewrite Z.gtb_ltb.
  destruct (Z.ltb_spec b1 a).
  - rewrite IH; [|lia|done|lia|lia|lia].
    by rewrite Z.gcd_sub_diag_r, Hg, Z.gcd_comm.
  - rewrite IH; [|lia|done|lia|lia|lia].
    by rewrite Z.gcd_sub_diag_r, (Z.gcd_comm a b1), Hg, Z.gcd_comm.
Qed.

Lemma shl_small x n :
  0 ≤ n < 32 → 0 ≤ x → x * 2 ^ n < 2 ^ 31 → shl x n = x * 2 ^ n.
Proof.
  intros Hn Hx Hlt. unfold shl.
  assert (x < 2 ^ 31).
  { pose proof (Z.pow_pos_nonneg 2 n ltac:(lia) ltac:(lia)). nia. }
  rewrite (to_int32_small x), Z.mod_small, Z.shiftl_mul_pow2 by lia.
  apply to_int32_small.
  pose proof (Z.pow_pos_nonneg 2 n ltac:(lia) ltac:(lia)). nia.
Qed.

(** On operands of fewer than 32 bits with [a] nonzero, [gcd] returns,
    and returns the mathematical gcd. *)
Lemma gcd_correct fuel a b :
  0 < Z.abs a < 2 ^ 31 → Z.abs b < 2 ^ 31 →
  (Z.to_nat (Z.abs a + Z.abs b) < fuel)%nat →
  gcd fuel a b = Some (Z.gcd a b).
Proof.
  intros Ha Hb Hf. unfold gcd.
  destruct (strip_common_spec fuel (Z.abs a) (Z.abs b) 0)
    as (a1 & b1 & k & -> & Hk & Hra & Hrb & Ho & Hg); [lia|lia|lia|].
  destruct (strip_twos_spec fuel a1) as (a2 & -> & Hr2 & Ho2 & Hsame & Hg2);
    [lia|lia|].
  rewrite subtract_loop_spec by (done || lia).
  assert (Hgg : Z.gcd a1 b1 = Z.gcd a2 b1).
  { destruct (Z.odd a1) eqn:Ho1; [by rewrite Hsame|].
    cbn in Ho. by rewrite Hg2. }
  rewrite Z.gcd_abs_l, Z.gcd_abs_r, Hgg in Hg.
  assert (0 < Z.gcd a2 b1).
  { pose proof (Z.gcd_nonneg a2 b1). pose proof (Z.gcd_eq_0_l a2 b1). lia. }
  assert (Z.gcd a b ≤ Z.abs a).
  { apply Z.divide_pos_le; [lia|]. rewrite <- (Z.gcd_abs_l a b).
    apply Z.gcd_divide_l. }
  assert (k < 31).
  { destruct (Z.lt_ge_cases k 31); [done|].
    pose proof (Z.pow_le_mono_r 2 31 k ltac:(lia) ltac:(lia)). nia. }
  rewrite Z.add_0_l, shl_small, <- Hg; [done|lia|lia|lia].
Qed.

(** In range the order of the operands does not matter. *)
Lemma gcd_comm_in_range fuel a b :
  0 < Z.abs a < 2 ^ 31 → 0 < Z.abs b < 2 ^ 31 →
  (Z.to_nat (Z.abs a + Z.abs b) < fuel)%nat →
  gcd fuel a b = gcd fuel b a.
Proof.
  intros Ha Hb Hf. rewrite !gcd_correct by lia. by rewrite Z.gcd_comm.
Qed.

(** In range, and with a product that a double holds exactly, [lcm]
    returns a finite number whose product with the gcd is [|a * b|]. *)
Lemma lcm_gcd_in_range fuel a b :
  0 < Z.abs a < 2 ^ 31 → 0 < Z.abs b < 2 ^ 31 → Z.abs (a * b) ≤ 2 ^ 53 →
  (Z.to_nat (Z.abs a + Z.abs b) < fuel)%nat →
  ∃ q, lcm fuel a b = Some (Some q) ∧
       (q * inject_Z (Z.gcd a b) == inject_Z (Z.abs (a * b)))%Q.
Proof.
  intros Ha Hb _ Hf. unfold lcm, js_div. rewrite gcd_correct by lia.
  assert (Hg : Z.gcd a b ≠ 0).
  { pose proof (Z.gcd_eq_0_l a b). lia. }
  destruct (Z.eqb_spec (Z.gcd a b) 0) as [|_]; [done|].
  eexists; split; [done|].
  field. intros H0. apply Hg.
  unfold Qeq in H0. cbn in H0. lia.
Qed.

(** *** Where the loops do not exit *)

Lemma strip_twos_mono fuel fuel' a r :
  (fuel ≤ fuel')%nat → strip_twos fuel a = Some r → strip_twos fuel' a = Some r.
Proof.
  revert fuel' a. induction fuel as [|fuel IH]; intros fuel' a Hle; [done|].
  destruct fuel' as [|fuel']; [lia|]. cbn [strip_twos].
  destruct (band a 1 =? 0); [|done]. apply IH. lia.
Qed.

Lemma strip_twos_two_pow_31 fuel r :
  strip_twos fuel 2147483648 = Some r → r = -1.
Proof.
  intros Hr.
  apply (strip_twos_mono _ (fuel + 40)) in Hr; [|lia].
  assert (H40 : strip_twos 40 2147483648 = Some (-1)) by (by vm_compute).
  apply (strip_twos_mono _ (fuel + 40)) in H40; [|lia]. congruence.
Qed.

(** From [a = -1] the subtraction loop alternates between [b = 1] and
    [b = 2] for ever. *)
Lemma subtract_loop_minus_one fuel inner b :
  b = 1 ∨ b = 2 → subtract_loop fuel inner (-1) b = None.
Proof.
  revert b. induction fuel as [|fuel IH]; intros b Hb; [done|].
  cbn [subtract_loop].
  destruct (strip_twos inner b) as [b1|] eqn:Hb1.
  - assert (b1 = 1) as ->.
    { apply (strip_twos_mono _ (inner + 2)) in Hb1; [|lia].
      replace (inner + 2)%nat with (S (S inner)) in Hb1 by lia.
      destruct Hb as [-> | ->]; vm_compute in Hb1; congruence. }
    destruct Hb as [-> | ->]; cbn [Z.eqb Z.gtb Z.compare]; apply IH; auto.
  - by destruct Hb as [-> | ->].
Qed.

(** C1.  The specification wants [gcd] to return on every pair of
    integers, with [gcd(0, 0)] a sentinel.  The code has no guard for
    zero operands: on [(0, 0)] the test [((a | b) & 1) === 0] of the
    first loop stays true, so the call never returns, whatever the
    number of iterations allowed. *)
Theorem gcd_zero_zero_never_returns : ∀ fuel, gcd fuel 0 0 = None.
Proof.
  intros fuel. unfold gcd. change (Z.abs 0) with 0.
  by rewrite strip_common_zero.
Qed.

(** C8.  Commutativity breaks when one operand is zero: [gcd(5, 0)]
    returns 5 after one test of each loop, while [gcd(0, 5)] never leaves
    the loop [while ((a & 1) === 0) a >>= 1]. *)
Theorem gcd_zero_operand_order :
  gcd 1 5 0 = Some 5 ∧ ∀ fuel, gcd fuel 0 5 = None.
Proof.
  split; [by vm_compute|]. intros fuel. apply gcd_zero_left.
Qed.

(** C6.  [lcm(2147483648, 1)] never returns, so the identity
    [lcm(a, b) * gcd(a, b) = |a * b|] has no left-hand side there: [gcd]
    reads 2^31 through the 32-bit operators as -2^31, strips it down to
    -1, and the subtraction loop then alternates between [b = 1] and
    [b = 2]. *)
Theorem lcm_two_pow_31_never_returns :
  ∀ fuel, lcm fuel 2147483648 1 = None.
Proof.
  intros [|fuel]; [done|]. unfold lcm, gcd. cbn [strip_common].
  change (band (bor (Z.abs 2147483648) (Z.abs 1)) 1 =? 0) with false.
  cbn match. change (Z.abs 2147483648) with 2147483648.
  change (Z.abs 1) with 1.
  destruct (strip_twos (S fuel) 2147483648) as [r|] eqn:Hr; [|done].
  apply strip_twos_two_pow_31 in Hr as ->.
  rewrite subtract_loop_minus_one; auto.
Qed.

End MathFacts.

(** ** getPermutations *)

Module PermFacts.
Import MathUtils PermCheck.

Section Loop.
Context {T : Type}.
Implicit Types (array : list T) (c : list nat) (result : list (list T)).

Lemma heap_loop_acc fuel len array c i result :
  heap_loop fuel len array c i result
  = (λ r, (r.1, reverse r.2)) <$> heap_acc fuel len array c i (reverse result).
Proof.
  revert array c i result.
  induction fuel as [|fuel IH]; intros array c i result; [done|].
  cbn [heap_loop heap_acc].
  destruct (i <? len)%nat.
  - destruct (default 0%nat (c !! i) <? i)%nat.
    + by rewrite IH, reverse_snoc.
    + apply IH.
  - by rewrite <- (reverse_involutive result) at 1.
Qed.

Lemma heap_loop_mono fuel fuel' len array c i result r :
  (fuel ≤ fuel')%nat →
  heap_loop fuel len array c i result = Some r →
  heap_loop fuel' len array c i result = Some r.
Proof.
  revert fuel' array c i result.
  induction fuel as [|fuel IH]; intros fuel' array c i result Hle; [done|].
  destruct fuel' as [|fuel']; [lia|]. cbn [heap_loop].
  destruct (i <? len)%nat; [|done].
  destruct (default 0%nat (c !! i) <? i)%nat; apply IH; lia.
Qed.
End Loop.

Lemma swap_fmap {A B} (f : A → B) (array : list A) i k :
  swap (f <$> array) i k = f <$> swap array i k.
Proof.
  unfold swap. rewrite !list_lookup_fmap.
  destruct (array !! i) as [x|], (array !! k) as [y|]; cbn; try done.
  by rewrite !list_fmap_insert.
Qed.

(** The loop moves elements by index only, so it commutes with a
    relabelling of the elements. *)
Lemma heap_loop_fmap {A B} (f : A → B) fuel len (array : list A) c i
    (result : list (list A)) :
  heap_loop fuel len (f <$> array) c i (fmap (M:=list) f <$> result)
  = prod_map (fmap (M:=list) f) (fmap (M:=list) (fmap (M:=list) f))
      <$> heap_loop fuel len array c i result.
Proof.
  revert array c i result.
  induction fuel as [|fuel IH]; intros array c i result; [done|].
  cbn [heap_loop].
  destruct (i <? len)%nat; [|done].
  destruct (default 0%nat (c !! i) <? i)%nat; [|apply IH].
  rewrite swap_fmap, <- IH. by rewrite fmap_app.
Qed.

Lemma increasing_cons x l :
  increasing (x :: l) = true → Forall (λ y, (x < y)%N) l ∧ increasing l = true.
Proof.
  revert x. induction l as [|y l IH]; intros x H; [by split|].
  cbn [increasing] in H. apply andb_prop in H as [Hxy Hl].
  apply N.ltb_lt in Hxy. split; [|done].
  constructor; [done|].
  destruct (IH y Hl) as [Hall _].
  apply (List.Forall_impl _ (P:=λ z, (y < z)%N)); [|exact Hall].
  intros z. cbn. lia.
Qed.

Lemma increasing_NoDup l : increasing l = true → NoDup l.
Proof.
  induction l as [|x l IH]; intros H; [constructor|].
  destruct (increasing_cons x l H) as [Hall Hl].
  constructor; [|by apply IH].
  intros Hin. rewrite List.Forall_forall in Hall.
  apply list_elem_of_In in Hin. specialize (Hall x Hin). lia.
Qed.

Lemma is_index_perm_sound n p : is_index_perm n p = true → p ≡ₚ seq 0 n.
Proof.
  unfold is_index_perm. intros H. apply andb_prop in H as [Hlen Hall].
  apply Nat.eqb_eq in Hlen. symmetry.
  apply NoDup_Permutation_bis.
  - apply NoDup_ListNoDup, NoDup_seq.
  - rewrite List.length_seq. lia.
  - intros i Hi. rewrite forallb_forall in Hall.
    specialize (Hall i Hi). apply existsb_exists in Hall as (j & Hj & Hij).
    apply Nat.eqb_eq in Hij. by subst.
Qed.

Lemma heap_check_sound n :
  heap_check n = true →
  ∃ final res,
    heap_loop heap_fuel n (seq 0 n) (replicate n 0%nat) 0 [seq 0 n]
    = Some (final, res)
    ∧ length res = fact n ∧ NoDup res ∧ ∀ p, p ∈ res ↔ p ≡ₚ seq 0 n.
Proof.
  unfold heap_check. rewrite heap_loop_acc. cbn [reverse rev_append].
  change (reverse [seq 0 n]) with [seq 0 n].
  destruct (heap_acc _ _ _ _ _ _) as [[final acc]|]; [|done].
  intros H. repeat (apply andb_prop in H as [H ?]).
  exists final, (reverse acc). cbn. split; [done|].
  match goal with H : (length acc =? _)%nat = true |- _ => apply Nat.eqb_eq in H; rename H into Hlen end.
  match goal with H : (length (permutations _) =? _)%nat = true |- _ => apply Nat.eqb_eq in H; rename H into Hall end.
  match goal with H : forallb _ acc = true |- _ => rename H into Hperm end.
  match goal with H : increasing _ = true |- _ => apply increasing_NoDup in H; rename H into Hnd end.
  assert (Hnd' : NoDup (reverse acc)).
  { rewrite reverse_Permutation. apply (NoDup_fmap_1 code).
    by rewrite (NSort.Permuted_sort (code <$> acc)). }
  assert (Hsound : ∀ p, p ∈ reverse acc → p ≡ₚ seq 0 n).
  { intros p Hp. rewrite elem_of_reverse, list_elem_of_In in Hp.
    rewrite forallb_forall in Hperm. by apply is_index_perm_sound, Hperm. }
  split; [by rewrite length_reverse|]. split; [done|].
  intros p; split; [apply Hsound|].
  intros Hp.
  assert (Hincl : incl (permutations (seq 0 n)) (reverse acc)).
  { apply NoDup_length_incl.
    - by apply NoDup_ListNoDup.
    - rewrite length_reverse. lia.
    - intros q Hq. apply list_elem_of_In, permutations_Permutation.
      symmetry. by apply Hsound, list_elem_of_In. }
  apply list_elem_of_In, Hincl, list_elem_of_In, permutations_Permutation.
  by symmetry.
Qed.

Lemma heap_check_all : forallb heap_check [2; 3; 4; 5; 6; 7; 8]%nat = true.
Proof. by vm_compute. Qed.

Lemma all_orderings_short {T} (array : list T) :
  (length array ≤ 1)%nat → all_orderings array [array].
Proof.
  intros Hlen. split; [|split].
  - destruct array as [|x [|y array]]; cbn in *; done || lia.
  - apply NoDup_singleton.
  - intros p. rewrite list_elem_of_singleton. split; [by intros ->|].
    destruct array as [|x [|y array]]; cbn in Hlen; [| |lia].
    + intros Hp. by apply Permutation_nil_r in Hp.
    + intros Hp. by apply Permutation_singleton_r in Hp.
Qed.

Lemma fmap_index_inj {T} (f : nat → T) n (p q : list nat) :
  (∀ i j, (i < n)%nat → (j < n)%nat → f i = f j → i = j) →
  Forall (λ i, (i < n)%nat) p → Forall (λ i, (i < n)%nat) q →
  f <$> p = f <$> q → p = q.
Proof.
  intros Hinj Hp. revert q.
  induction Hp as [|i p Hi Hp IH]; intros [|j q] Hq Heq; try done.
  apply Forall_cons_1 in Hq as [Hj Hq]. injection Heq as Hij Heq.
  f_equal; [by apply Hinj|by apply IH].
Qed.

Lemma index_perm_bound n p : p ≡ₚ seq 0 n → Forall (λ i, (i < n)%nat) p.
Proof.
  intros Hp. rewrite Hp. apply Forall_seq. intros; lia.
Qed.

(** Arrays of 2 to 8 distinct elements: the loop returns, and its result
    holds every ordering once. *)
Lemma heap_orderings {T} (array : list T) n :
  length array = n → (2 ≤ n ≤ 8)%nat → NoDup array →
  ∃ final result,
    (∀ fuel, (heap_fuel ≤ fuel)%nat →
       heap_loop fuel n array (replicate n 0%nat) 0 [array] = Some (final, result))
    ∧ all_orderings array result.
Proof.
  intros Hlen Hn Hnd.
  assert (Hcheck : heap_check n = true).
  { pose proof heap_check_all as Hall. rewrite forallb_forall in Hall.
    apply Hall.
    assert (n = 2 ∨ n = 3 ∨ n = 4 ∨ n = 5 ∨ n = 6 ∨ n = 7 ∨ n = 8)%nat
      as Hcases by lia.
    cbn [In]. intuition auto. }
  destruct (heap_check_sound n Hcheck) as (fin & res & Hrun & Hcount & Hres & Hmem).
  destruct array as [|d array0] eqn:Harr; [cbn in Hlen; lia|].
  rewrite <- Harr in *. clear Harr array0.
  set (f := λ i, default d (array !! i)).
  assert (Hf : array = f <$> seq 0 n).
  { apply list_eq. intros i. rewrite list_lookup_fmap.
    destruct (decide (i < n)%nat) as [Hi|Hi].
    - rewrite lookup_seq_lt by done. cbn. unfold f.
      destruct (lookup_lt_is_Some_2 array i) as [x ->]; [lia|done].
    - rewrite lookup_seq_ge, lookup_ge_None_2 by lia. done. }
  assert (Hinj : ∀ i j, (i < n)%nat → (j < n)%nat → f i = f j → i = j).
  { intros i j Hi Hj. unfold f.
    destruct (lookup_lt_is_Some_2 array i) as [x Hx]; [lia|].
    destruct (lookup_lt_is_Some_2 array j) as [y Hy]; [lia|].
    rewrite Hx, Hy. cbn. intros Hxy. subst y.
    exact (proj1 (NoDup_alt array) Hnd i j x Hx Hy). }
  exists (f <$> fin), (fmap (M:=list) f <$> res). split.
  - intros fuel Hfuel.
    apply (heap_loop_mono heap_fuel); [done|].
    rewrite Hf.
    change [f <$> seq 0 n] with (fmap (M:=list) f <$> [seq 0 n]).
    by rewrite heap_loop_fmap, Hrun.
  - split; [|split].
    + by rewrite length_fmap, Hcount, Hlen.
    + apply NoDup_fmap_2_strong; [|done].
      intros p q Hp Hq. apply (fmap_index_inj f n); [done| |].
      * by apply index_perm_bound, Hmem.
      * by apply index_perm_bound, Hmem.
    + intros p. rewrite list_elem_of_fmap. split.
      * intros (q & -> & Hq). rewrite Hf. by apply fmap_Permutation, Hmem.
      * intros Hp. rewrite Hf in Hp.
        apply Permutation_map_inv in Hp as (q & -> & Hq).
        exists q. split; [done|]. by apply Hmem.
Qed.

Section Larger.
Context {T : Type}.
Implicit Types (array : list T).

Lemma getPermutations_S fuel array :
  getPermutations (S fuel) array
  = if (length array <=? 1)%nat then Some (array, [array])
    else if (8 <? length array)%nat then
      result ← getPermutationsLarger fuel array; Some (array, result)
    else heap_loop fuel (length array) array
           (replicate (length array) 0%nat) 0 [array].
Proof. done. Qed.

Lemma getPermutationsLarger_S fuel array :
  getPermutationsLarger (S fuel) array
  = if (length array <=? 1)%nat then Some [array]
    else
      blocks ← mapM (λ '(i, current),
                  match getPermutations fuel (remaining array i) with
                  | Some (_, permutations) =>
                      Some ((current ::.) <$> permutations)
                  | None => None
                  end)
                (imap pair array);
      Some (concat blocks).
Proof. done. Qed.

Lemma remaining_Permutation array i x :
  array !! i = Some x → array ≡ₚ x :: remaining array i.
Proof.
  intros Hx. rewrite <- (take_drop_middle array i x Hx) at 1.
  unfold remaining. symmetry. apply Permutation_middle.
Qed.

Lemma Forall_exists_Forall2 {A B} (R : A → B → Prop) (l : list A) :
  Forall (λ x, ∃ y, R x y) l → ∃ k, Forall2 R l k.
Proof.
  induction 1 as [|x l [y Hy] _ [k Hk]]; [by exists []|].
  exists (y :: k). by constructor.
Qed.

Lemma length_concat_uniform {A} (blocks : list (list A)) m :
  Forall (λ b, length b = m) blocks →
  length (concat blocks) = (length blocks * m)%nat.
Proof.
  induction 1 as [|b blocks Hb _ IH]; [done|].
  cbn. rewrite length_app, IH, Hb. lia.
Qed.

Lemma NoDup_concat_blocks {A} (blocks : list (list A)) :
  Forall NoDup blocks →
  (∀ i j b1 b2 x, blocks !! i = Some b1 → blocks !! j = Some b2 →
                  x ∈ b1 → x ∈ b2 → i = j) →
  NoDup (concat blocks).
Proof.
  induction 1 as [|b blocks Hb _ IH]; intros Hdisj; [constructor|].
  cbn. apply NoDup_app. split; [done|]. split.
  - intros x Hx Hin. apply list_elem_of_In, in_concat in Hin as (b' & Hb' & Hxb').
    apply list_elem_of_In, list_elem_of_lookup in Hb' as [j Hj].
    apply list_elem_of_In in Hxb'.
    by specialize (Hdisj 0%nat (S j) b b' x eq_refl Hj Hx Hxb').
  - apply IH. intros i j b1 b2 x Hi Hj H1 H2.
    by specialize (Hdisj (S i) (S j) b1 b2 x Hi Hj H1 H2) as [= ->].
Qed.

(** One round of [getPermutationsLarger], given that the recursive
    calls on the shorter arrays return every ordering once. *)
Lemma larger_orderings array bound :
  (2 ≤ length array)%nat → NoDup array →
  (∀ i x, array !! i = Some x →
     ∃ res, all_orderings (remaining array i) res ∧
            ∀ fuel, (bound < fuel)%nat →
              ∃ fin, getPermutations fuel (remaining array i) = Some (fin, res)) →
  ∃ result,
    (∀ fuel, (bound < fuel)%nat →
       getPermutationsLarger (S fuel) array = Some result)
    ∧ all_orderings array result.
Proof.
  intros Hlen Hnd Hrec.
  set (R := λ (ix : nat * T) (blk : list (list T)),
         ∃ res, blk = (ix.2 ::.) <$> res ∧
                all_orderings (remaining array ix.1) res ∧
                ∀ fuel, (bound < fuel)%nat →
                  ∃ fin, getPermutations fuel (remaining array ix.1)
                         = Some (fin, res)).
  destruct (Forall_exists_Forall2 R (imap pair array)) as [blocks Hblocks].
  { apply Forall_forall. intros [i x] Hix.
    apply list_elem_of_lookup in Hix as [j Hj].
    rewrite list_lookup_imap in Hj.
    destruct (array !! j) as [y|] eqn:Hy; [|done]. injection Hj as <- <-.
    destruct (Hrec j y Hy) as (res & Hres & Hfuel).
    by exists ((y ::.) <$> res), res. }
  assert (Hat : ∀ j blk, blocks !! j = Some blk →
            ∃ x res, array !! j = Some x ∧ blk = (x ::.) <$> res ∧
                     all_orderings (remaining array j) res).
  { intros j blk Hj.
    destruct (Forall2_lookup_r _ _ _ _ _ Hblocks Hj) as ([i x] & Hix & res & -> & Hres & _).
    rewrite list_lookup_imap in Hix.
    destruct (array !! j) as [y|] eqn:Hy; [|done]. injection Hix as <- <-.
    by exists y, res. }
  assert (Hto : ∀ j x, array !! j = Some x →
            ∃ res, blocks !! j = Some ((x ::.) <$> res) ∧
                   all_orderings (remaining array j) res).
  { intros j x Hx.
    destruct (Forall2_lookup_l _ _ _ j (j, x) Hblocks) as (blk & Hblk & res & -> & Hres & _).
    { by rewrite list_lookup_imap, Hx. }
    by exists res. }
  exists (concat blocks). split.
  - intros fuel Hfuel. rewrite getPermutationsLarger_S.
    destruct (Nat.leb_spec (length array) 1); [lia|].
    erewrite (mapM_Some_2 _ _ blocks); [done|].
    eapply Forall2_impl; [exact Hblocks|].
    intros [i x] blk (res & -> & _ & Hrun). cbn [fst snd] in *.
    by destruct (Hrun fuel Hfuel) as [fin ->].
  - split; [|split].
    + rewrite (length_concat_uniform blocks (fact (length array - 1))).
      * rewrite <- (Forall2_length _ _ _ Hblocks), length_imap.
        destruct (length array) as [|m]; [lia|].
        cbn [fact]. replace (S m - 1)%nat with m by lia. lia.
      * apply Forall_lookup. intros j blk Hj.
        destruct (Hat j blk Hj) as (x & res & Hx & -> & Hlenres & _).
        rewrite length_fmap, Hlenres.
        apply remaining_Permutation, Permutation_length in Hx.
        cbn in Hx. f_equal. lia.
    + apply NoDup_concat_blocks.
      * apply Forall_lookup. intros j blk Hj.
        destruct (Hat j blk Hj) as (x & res & Hx & -> & _ & Hndres & _).
        apply NoDup_fmap_2; [|done]. intros p q [=]. done.
      * intros i j b1 b2 p Hi Hj Hp1 Hp2.
        destruct (Hat i b1 Hi) as (x & res1 & Hx & -> & _).
        destruct (Hat j b2 Hj) as (y & res2 & Hy & -> & _).
        apply list_elem_of_fmap in Hp1 as (q1 & -> & _).
        apply list_elem_of_fmap in Hp2 as (q2 & [= <- _] & _).
        exact (proj1 (NoDup_alt array) Hnd i j x Hx Hy).
    + intros p. rewrite list_elem_of_In, in_concat. split.
      * intros (blk & Hblk & Hp).
        apply list_elem_of_In, list_elem_of_lookup in Hblk as [j Hj].
        destruct (Hat j blk Hj) as (x & res & Hx & -> & _ & _ & Hmem).
        apply list_elem_of_In, list_elem_of_fmap in Hp as (q & -> & Hq).
        rewrite (remaining_Permutation array j x Hx).
        by apply Permutation_cons, Hmem.
      * intros Hp.
        destruct p as [|x q].
        { apply Permutation_nil in Hp.
          rewrite Hp in Hlen. cbn in Hlen. lia. }
        assert (Hx : x ∈ array) by (rewrite <- Hp; left).
        apply list_elem_of_lookup in Hx as [j Hj].
        destruct (Hto j x Hj) as (res & Hblk & _ & _ & Hmem).
        exists ((x ::.) <$> res). split.
        { apply list_elem_of_In, list_elem_of_lookup. eauto. }
        apply list_elem_of_In, list_elem_of_fmap. exists q. split; [done|].
        apply Hmem. rewrite (remaining_Permutation array j x Hj) in Hp.
        by apply Permutation_cons_inv in Hp.
Qed.

(** [getPermutations] returns, within a number of iterations fixed by
    the length alone, every ordering of an array of distinct elements
    exactly once. *)
Lemma getPermutations_orderings n array :
  length array = n → NoDup array →
  ∃ final result,
    (∀ fuel, (heap_fuel + 2 * n < fuel)%nat →
       getPermutations fuel array = Some (final, result))
    ∧ all_orderings array result.
Proof.
  revert array. induction n as [|m IH]; intros array Hlen Hnd.
  { exists array, [array]. split; [|apply all_orderings_short; lia].
    intros [|fuel] Hfuel; [lia|]. rewrite getPermutations_S.
    by destruct (Nat.leb_spec (length array) 1); [|lia]. }
  destruct (decide (S m ≤ 1)%nat) as [Hle1|Hgt1].
  { exists array, [array]. split; [|apply all_orderings_short; lia].
    intros [|fuel] Hfuel; [lia|]. rewrite getPermutations_S.
    by destruct (Nat.leb_spec (length array) 1); [|lia]. }
  destruct (decide (S m ≤ 8)%nat) as [Hle8|Hgt8].
  - destruct (heap_orderings array (S m)) as (fin & res & Hrun & Hres);
      [done|lia|done|].
    exists fin, res. split; [|done].
    intros [|fuel] Hfuel; [lia|]. rewrite getPermutations_S, Hlen.
    destruct (Nat.leb_spec (S m) 1); [lia|].
    destruct (Nat.ltb_spec 8 (S m)); [lia|].
    apply Hrun. lia.
  - destruct (larger_orderings array (heap_fuel + 2 * m)) as (res & Hrun & Hres);
      [lia|done| |].
    { intros i x Hx.
      assert (Hperm := remaining_Permutation array i x Hx).
      destruct (IH (remaining array i)) as (fin & res & Hrun & Hres).
      - apply Permutation_length in Hperm. cbn in Hperm. lia.
      - rewrite Hperm in Hnd. by apply NoDup_cons_1_2 in Hnd.
      - exists res. split; [done|]. intros fuel Hfuel. exists fin. by apply Hrun. }
    exists array, res. split; [|done].
    intros [|[|fuel]] Hfuel; [lia|lia|]. rewrite getPermutations_S, Hlen.
    destruct (Nat.leb_spec (S m) 1); [lia|].
    destruct (Nat.ltb_spec 8 (S m)); [|lia].
    rewrite Hrun by lia. done.
Qed.

End Larger.

(** C7.  For an array of distinct elements [getPermutations] returns (the
    fuel bound depends on the length only) a list holding every ordering
    of the array exactly once, [n!] of them.  Above 8 elements the call
    is answered by [getPermutationsLarger] and not refused.  On [1, 2, 3]
    the six orderings come out in the order the specification lists. *)
Theorem getPermutations_all_orderings {T} (array : list T) :
  NoDup array →
  (∃ final result,
     (∀ fuel, (heap_fuel + 2 * length array < fuel)%nat →
        getPermutations fuel array = Some (final, result))
     ∧ all_orderings array result)
  ∧ (∀ fuel, (8 < length array)%nat →
       getPermutations (S fuel) array
       = (λ result, (array, result)) <$> getPermutationsLarger fuel array)
  ∧ (∃ final,
       getPermutations 20 [1; 2; 3]
       = Some (final, [[1; 2; 3]; [2; 1; 3]; [3; 1; 2];
                       [1; 3; 2]; [2; 3; 1]; [3; 2; 1]])).
Proof.
  intros Hnd. split; [by apply (getPermutations_orderings (length array))|].
  split; [|by eexists; vm_compute].
  intros fuel Hlen. rewrite getPermutations_S.
  destruct (Nat.leb_spec (length array) 1); [lia|].
  destruct (Nat.ltb_spec 8 (length array)); [|lia].
  by destruct (getPermutationsLarger fuel array).
Qed.

Lemma getPermutations_all_orderings_witness :
  NoDup [1; 2; 3] ∧
  ∃ final result,
    (∀ fuel, (heap_fuel + 2 * 3 < fuel)%nat →
       getPermutations fuel [1; 2; 3] = Some (final, result))
    ∧ all_orderings [1; 2; 3] result.
Proof.
  assert (Hnd : NoDup [1; 2; 3]).
  { apply (bool_decide_unpack _). vm_compute. exact I. }
  split; [exact Hnd|].
  exact (proj1 (getPermutations_all_orderings [1; 2; 3] Hnd)).
Defined.

End PermFacts.

(** ** mergeRanges *)

Module RangeFacts.

Import Ranges RangesPure.

Lemma insert_by_start_deref h p sorted :
  deref h <$> insert_by_start h p sorted
  = insert_range (deref h p) (deref h <$> sorted).
Proof.
  induction sorted as [|q sorted IH]; [done|].
  rewrite fmap_cons. cbn [insert_by_start insert_range].
  destruct (_ <=? 0); [done|]. by rewrite fmap_cons, IH.
Qed.

Lemma sort_by_start_deref h ranges :
  deref h <$> sort_by_start h ranges = sort_ranges (deref h <$> ranges).
Proof.
  induction ranges as [|p ranges IH]; [done|].
  change (sort_by_start h (p :: ranges))
    with (insert_by_start h p (sort_by_start h ranges)).
  by rewrite insert_by_start_deref, IH.
Qed.

Lemma insert_by_start_perm h p sorted : insert_by_start h p sorted ≡ₚ p :: sorted.
Proof.
  induction sorted as [|q sorted IH]; [done|].
  cbn [insert_by_start]. destruct (_ <=? 0); [done|].
  rewrite IH. apply perm_swap.
Qed.

Lemma sort_by_start_perm h ranges : sort_by_start h ranges ≡ₚ ranges.
Proof.
  induction ranges as [|p ranges IH]; [done|].
  change (sort_by_start h (p :: ranges))
    with (insert_by_start h p (sort_by_start h ranges)).
  by rewrite insert_by_start_perm, IH.
Qed.

Lemma deref_insert_ne h p q r : p ≠ q → deref (<[p:=r]> h) q = deref h q.
Proof. intros Hne. unfold deref. by rewrite list_lookup_insert_ne. Qed.

Lemma deref_insert_eq h p r : (p < length h)%nat → deref (<[p:=r]> h) p = r.
Proof. intros Hp. unfold deref. by rewrite list_lookup_insert_eq. Qed.

Lemma deref_app_l h r q : (q < length h)%nat → deref (h ++ [r]) q = deref h q.
Proof. intros Hq. unfold deref. by rewrite lookup_app_l. Qed.

Lemma deref_app_new h r : deref (h ++ [r]) (length h) = r.
Proof. unfold deref. by rewrite list_lookup_middle. Qed.

Lemma deref_fmap_ext h h' (l : list ref) :
  (∀ q, q ∈ l → deref h' q = deref h q) → deref h' <$> l = deref h <$> l.
Proof.
  intros Hl. apply list_fmap_ext. intros i q Hq. apply Hl.
  by eapply list_elem_of_lookup_2.
Qed.

(** The loop on the store computes [merge_from] as long as the object
    being extended is referenced neither by the ranges still to come nor
    by the part of [merged] already completed. *)
Lemma fold_merge_step rest : ∀ h done lastp,
  (lastp < length h)%nat → lastp ∉ rest → lastp ∉ done →
  Forall (λ p, (p < length h)%nat) rest →
  Forall (λ p, (p < length h)%nat) done →
  let st := fold_left merge_step rest (h, done ++ [lastp]) in
  deref st.1 <$> st.2
  = (deref h <$> done) ++ merge_from (deref h lastp) (deref h <$> rest).
Proof.
  induction rest as [|p rest IH]; intros h done lastp Hlast Hrest Hdone Hbr Hbd.
  { cbn. by rewrite fmap_app. }
  apply Forall_cons_1 in Hbr as [Hp Hbr].
  apply not_elem_of_cons in Hrest as [Hne Hrest].
  cbn [fold_left merge_step fmap list_fmap merge_from]. rewrite last_snoc.
  destruct (deref h p) as [start end_] eqn:Hdp.
  destruct (start <=? (deref h lastp).2 + 1).
  - rewrite IH.
    + rewrite deref_insert_eq by done.
      rewrite (deref_fmap_ext h _ done), (deref_fmap_ext h _ rest); [done| |].
      * intros q Hq. apply deref_insert_ne. by intros ->.
      * intros q Hq. apply deref_insert_ne. by intros ->.
    + by rewrite length_insert.
    + done.
    + done.
    + by rewrite length_insert.
    + by rewrite length_insert.
  - rewrite <- Hdp. rewrite IH.
    + rewrite deref_app_new, fmap_app, <- app_assoc. cbn.
      rewrite (deref_fmap_ext h _ done), (deref_fmap_ext h _ rest);
        [by rewrite deref_app_l, Hdp| |].
      * intros q Hq. apply deref_app_l.
        by eapply (proj1 (Forall_forall _ _) Hbr).
      * intros q Hq. apply deref_app_l.
        by eapply (proj1 (Forall_forall _ _) Hbd).
    + rewrite length_app. cbn. lia.
    + intros Hin. apply (proj1 (Forall_forall _ _) Hbr) in Hin. lia.
    + intros Hin. apply elem_of_app in Hin as [Hin|Hin].
      * apply (proj1 (Forall_forall _ _) Hbd) in Hin. lia.
      * apply list_elem_of_singleton in Hin. lia.
    + eapply Forall_impl; [exact Hbr|]. intros q Hq. rewrite length_app. cbn in *. lia.
    + apply Forall_app. split.
      * eapply Forall_impl; [exact Hbd|]. intros q Hq. rewrite length_app. cbn in *. lia.
      * constructor; [|constructor]. rewrite length_app. cbn. lia.
Qed.

Lemma deref_seq (l : store) : deref l <$> seq 0 (length l) = l.
Proof.
  apply list_eq. intros i. rewrite list_lookup_fmap.
  destruct (decide (i < length l)%nat) as [Hi|Hi].
  - rewrite lookup_seq_lt by done. cbn. unfold deref.
    by destruct (lookup_lt_is_Some_2 l i Hi) as [r ->].
  - by rewrite lookup_seq_ge, lookup_ge_None_2 by lia.
Qed.

(** On an array of distinct range objects the call computes the value-level
    loop on the sorted values. *)
Lemma mergeRanges_pure ranges :
  mergeRanges ranges = merge_sorted (sort_ranges ranges).
Proof.
  unfold mergeRanges, mergeRanges_on. rewrite length_seq.
  destruct (Nat.eqb_spec (length ranges) 0) as [Hlen|Hlen].
  { by destruct ranges. }
  pose proof (sort_by_start_deref ranges (seq 0 (length ranges))) as Hsort.
  pose proof (sort_by_start_perm ranges (seq 0 (length ranges))) as Hperm.
  rewrite deref_seq in Hsort. rewrite <- Hsort.
  destruct (sort_by_start ranges (seq 0 (length ranges))) as [|first rest];
    [reflexivity|].
  assert (Hnd : NoDup (first :: rest)) by (rewrite Hperm; apply NoDup_seq).
  assert (Hb : Forall (λ p, (p < length ranges)%nat) (first :: rest)).
  { rewrite Hperm. apply Forall_seq. intros; lia. }
  apply NoDup_cons in Hnd as [Hfirst _]. apply Forall_cons_1 in Hb as [Hbf Hbr].
  pose proof (fold_merge_step rest ranges [] first Hbf Hfirst) as Hfold.
  cbn [app] in Hfold.
  destruct (fold_left merge_step rest (ranges, [first])) as [h merged].
  rewrite fmap_cons. cbn [merge_sorted].
  apply Hfold; [apply not_elem_of_nil|done|constructor].
Qed.

(** *** Sorting *)

Lemma insert_range_perm r sorted : insert_range r sorted ≡ₚ r :: sorted.
Proof.
  induction sorted as [|s sorted IH]; [done|].
  cbn [insert_range]. destruct (_ <=? 0); [done|].
  rewrite IH. apply perm_swap.
Qed.

Lemma sort_ranges_perm ranges : sort_ranges ranges ≡ₚ ranges.
Proof.
  induction ranges as [|r ranges IH]; [done|].
  change (sort_ranges (r :: ranges)) with (insert_range r (sort_ranges ranges)).
  by rewrite insert_range_perm, IH.
Qed.

Lemma insert_range_sorted r sorted :
  StronglySorted by_start sorted → StronglySorted by_start (insert_range r sorted).
Proof.
  induction 1 as [|s sorted Hs IH Hall]; [repeat constructor|].
  cbn [insert_range]. destruct (Z.leb_spec (r.1 - s.1) 0).
  - constructor; [by constructor|].
    constructor; [unfold by_start; lia|].
    eapply Forall_impl; [exact Hall|]. unfold by_start. intros; lia.
  - constructor; [done|].
    rewrite insert_range_perm. constructor; [unfold by_start; lia|done].
Qed.

Lemma sort_ranges_sorted ranges : StronglySorted by_start (sort_ranges ranges).
Proof.
  induction ranges as [|r ranges IH]; [constructor|].
  by apply insert_range_sorted.
Qed.

(** *** Arrays that share range objects *)

(** While [merged] still is [[first]], the object [first] may come up
    again among the ranges to merge (the caller listed it twice): it is
    then read with the end it has grown to, which on a closed range merges
    to the same effect as its original end.  Once a range has been pushed,
    sortedness keeps [first] out of what remains. *)
Lemma fold_merge_step_first (h : store) first s0 e0 rest : ∀ E,
  (first < length h)%nat → deref h first = (s0, e0) → s0 ≤ e0 → e0 ≤ E →
  Forall (λ p, (p < length h)%nat) rest →
  StronglySorted by_start (deref h <$> rest) →
  let st := fold_left merge_step rest (<[first := (s0, E)]> h, [first]) in
  deref st.1 <$> st.2 = merge_from (s0, E) (deref h <$> rest).
Proof.
  induction rest as [|q rest IH]; intros E Hfirst Hh Hclosed HE Hb Hsorted.
  { cbn. by rewrite deref_insert_eq. }
  apply Forall_cons_1 in Hb as [Hq Hb].
  rewrite fmap_cons in Hsorted.
  apply StronglySorted_inv in Hsorted as [Hsorted Hq_le].
  rewrite fmap_cons. cbn [fold_left merge_step last].
  rewrite (deref_insert_eq h first) by done. cbn [fst snd].
  destruct (decide (q = first)) as [->|Hne].
  - rewrite (deref_insert_eq h first), Hh by done. cbn [merge_from fst snd].
    destruct (Z.leb_spec s0 (E + 1)); [|lia].
    rewrite list_insert_insert_eq, Z.max_id, Z.max_l by lia. by apply IH.
  - rewrite deref_insert_ne by done.
    destruct (deref h q) as [start end_] eqn:Hdq. cbn [merge_from fst snd].
    destruct (Z.leb_spec start (E + 1)).
    + rewrite list_insert_insert_eq. apply IH; try done. lia.
    + rewrite length_insert.
      pose proof (fold_merge_step rest (<[first:=(s0, E)]> h ++ [(start, end_)])
                    [first] (length h)) as Hfold.
      cbn [app] in Hfold |- *. rewrite length_app, length_insert in Hfold.
      rewrite Hfold; clear Hfold.
      * rewrite fmap_cons, deref_app_l, deref_insert_eq by (by rewrite ?length_insert).
        cbn [fmap list_fmap app]. f_equal.
        rewrite <- (length_insert h first (s0, E)), deref_app_new. f_equal.
        apply deref_fmap_ext. intros r Hr.
        rewrite deref_app_l
          by (rewrite length_insert; by apply (proj1 (Forall_forall _ _) Hb)).
        apply deref_insert_ne. intros ->.
        assert (Hle : by_start (start, end_) (deref h r)).
        { apply (proj1 (Forall_forall _ _) Hq_le).
          apply list_elem_of_fmap. eauto. }
        unfold by_start in Hle. rewrite Hh in Hle. cbn in Hle. lia.
      * cbn. lia.
      * intros Hin. apply (proj1 (Forall_forall _ _) Hb) in Hin. lia.
      * rewrite list_elem_of_singleton. lia.
      * eapply Forall_impl; [exact Hb|]. cbn. intros; lia.
      * constructor; [cbn; lia|constructor].
Qed.

(** Whatever references the caller's array holds, repeated or not, the
    ranges read from the returned array are those [mergeRanges] computes
    from the values, provided the ranges are closed. *)
Lemma mergeRanges_on_values (h : store) (ranges : list ref) :
  Forall (λ p, (p < length h)%nat) ranges →
  Forall closed (deref h <$> ranges) →
  let st := mergeRanges_on h ranges in
  deref st.1 <$> st.2 = mergeRanges (deref h <$> ranges).
Proof.
  intros Hb Hclosed. cbn zeta. rewrite mergeRanges_pure.
  unfold mergeRanges_on.
  destruct (Nat.eqb_spec (length ranges) 0) as [Hlen|Hlen].
  { by destruct ranges. }
  rewrite <- sort_by_start_deref.
  pose proof (sort_ranges_sorted (deref h <$> ranges)) as Hsorted.
  rewrite <- sort_by_start_deref in Hsorted.
  rewrite <- (sort_by_start_perm h ranges) in Hb, Hclosed.
  destruct (sort_by_start h ranges) as [|first rest]; [done|].
  apply Forall_cons_1 in Hb as [Hfirst Hb].
  rewrite fmap_cons in Hclosed, Hsorted.
  apply Forall_cons_1 in Hclosed as [Hc _].
  apply StronglySorted_inv in Hsorted as [Hsorted _].
  destruct (deref h first) as [s0 e0] eqn:Hh. unfold closed in Hc. cbn in Hc.
  rewrite fmap_cons, Hh. cbn [merge_sorted].
  rewrite <- (fold_merge_step_first h first s0 e0 rest e0) by (done || lia).
  rewrite list_insert_id; [done|].
  unfold deref in Hh.
  destruct (lookup_lt_is_Some_2 h first Hfirst) as [r Hr].
  rewrite Hr in Hh |- *. cbn in Hh. by subst.
Qed.

(** *** Coverage *)

Lemma covers_nil x : ¬ covers [] x.
Proof. intros (r & Hr & _). by apply not_elem_of_nil in Hr. Qed.

Lemma covers_cons r ranges x :
  covers (r :: ranges) x ↔ r.1 ≤ x ≤ r.2 ∨ covers ranges x.
Proof.
  unfold covers. split.
  - intros (r' & Hr' & Hx). apply elem_of_cons in Hr' as [->|Hr']; eauto.
  - intros [Hx|(r' & Hr' & Hx)].
    + exists r. split; [left|done].
    + exists r'. split; [by right|done].
Qed.

Lemma covers_perm ranges ranges' x :
  ranges ≡ₚ ranges' → covers ranges x ↔ covers ranges' x.
Proof.
  intros Hp. unfold covers. by setoid_rewrite Hp.
Qed.

Lemma merge_from_covers rest : ∀ cur,
  Forall (by_start cur) rest → StronglySorted by_start rest →
  ∀ x, covers (merge_from cur rest) x ↔ covers (cur :: rest) x.
Proof.
  induction rest as [|[start end_] rest IH]; intros cur Hcur Hsorted x; [done|].
  apply Forall_cons_1 in Hcur as [Hcs Hcur].
  apply StronglySorted_inv in Hsorted as [Hsorted Hse].
  unfold by_start in Hcs. cbn in Hcs.
  cbn [merge_from]. destruct (Z.leb_spec start (cur.2 + 1)).
  - rewrite IH, !covers_cons; [|done|done]. cbn.
    pose proof (Z.max_spec cur.2 end_). intuition lia.
  - rewrite covers_cons, IH, !covers_cons; done.
Qed.

(** *** Shape of the result *)

Lemma merge_from_head cur rest :
  ∃ end_ tail, merge_from cur rest = (cur.1, end_) :: tail ∧ cur.2 ≤ end_.
Proof.
  revert cur. induction rest as [|[start end_] rest IH]; intros cur.
  { exists cur.2, []. by destruct cur. }
  cbn [merge_from]. destruct (start <=? cur.2 + 1).
  - destruct (IH (cur.1, Z.max cur.2 end_)) as (e & tl & -> & He).
    exists e, tl. cbn in *. split; [done|lia].
  - exists cur.2, (merge_from (start, end_) rest). by destruct cur.
Qed.

Lemma merge_from_canonical rest : ∀ cur,
  closed cur → Forall closed rest → canonical (merge_from cur rest).
Proof.
  induction rest as [|[start end_] rest IH]; intros cur Hcur Hrest.
  { split; [by repeat constructor|repeat constructor]. }
  apply Forall_cons_1 in Hrest as [Hse Hrest].
  cbn [merge_from]. destruct (Z.leb_spec start (cur.2 + 1)).
  - apply IH; [|done]. unfold closed in *. cbn in *. lia.
  - destruct (IH (start, end_) Hse Hrest) as [Hc Hs].
    split; [by constructor|]. constructor; [done|].
    destruct (merge_from_head (start, end_) rest) as (e & tl & -> & _).
    constructor. unfold apart. cbn. lia.
Qed.

Lemma merge_from_length cur rest :
  (length (merge_from cur rest) ≤ S (length rest))%nat.
Proof.
  revert cur. induction rest as [|[start end_] rest IH]; intros cur; [done|].
  cbn [merge_from length]. destruct (start <=? cur.2 + 1).
  - etrans; [apply IH|lia].
  - cbn [length]. specialize (IH (start, end_)). lia.
Qed.

Lemma canonical_cons_inv r ranges :
  canonical (r :: ranges) →
  closed r ∧ canonical ranges ∧ Forall (apart r) ranges.
Proof.
  revert r. induction ranges as [|s ranges IH]; intros r [Hc Hs].
  { apply Forall_cons_1 in Hc as [Hr _].
    split; [done|]. split; [split; constructor|constructor]. }
  apply Forall_cons_1 in Hc as [Hr Hc].
  apply Sorted_inv in Hs as [Hs Hhd]. apply HdRel_inv in Hhd.
  destruct (IH s (conj Hc Hs)) as (Hcs & Hcan & Hall).
  split; [done|]. split; [by split|].
  constructor; [done|].
  eapply Forall_impl; [exact Hall|].
  unfold apart, closed in *. intros; lia.
Qed.

(** A set of integers has at most one canonical description. *)
Lemma canonical_unique l1 : ∀ l2,
  canonical l1 → canonical l2 → (∀ x, covers l1 x ↔ covers l2 x) → l1 = l2.
Proof.
  induction l1 as [|a l1 IH]; intros [|b l2] H1 H2 Hcov.
  - done.
  - destruct (canonical_cons_inv _ _ H2) as (Hb & _ & _).
    destruct (covers_nil b.1). apply Hcov, covers_cons. unfold closed in Hb. lia.
  - destruct (canonical_cons_inv _ _ H1) as (Ha & _ & _).
    destruct (covers_nil a.1). apply Hcov, covers_cons. unfold closed in Ha. lia.
  - destruct (canonical_cons_inv _ _ H1) as (Ha & Hc1 & Hall1).
    destruct (canonical_cons_inv _ _ H2) as (Hb & Hc2 & Hall2).
    unfold closed in Ha, Hb.
    assert (Hout : ∀ (r : range) l y, Forall (apart r) l → covers l y → r.2 + 1 < y).
    { intros r l y Hall (c & Hc & Hy).
      apply (proj1 (Forall_forall _ _) Hall) in Hc. unfold apart in Hc. lia. }
    assert (Hin : ∀ y, a.1 ≤ y ≤ a.2 ∨ covers l1 y ↔ b.1 ≤ y ≤ b.2 ∨ covers l2 y).
    { intros y. rewrite <- !covers_cons. apply Hcov. }
    assert (Hstart : a.1 = b.1).
    { destruct (proj1 (Hin a.1)) as [?|Hc]; [lia| |apply (Hout b) in Hc; [|done]];
      (destruct (proj2 (Hin b.1)) as [?|Hc']; [lia| |apply (Hout a) in Hc'; [|done]]);
      lia. }
    assert (Hend : a.2 = b.2).
    { destruct (Z.lt_trichotomy a.2 b.2) as [Hlt|[Heq|Hgt]]; [|done|].
      - destruct (proj2 (Hin (a.2 + 1))) as [?|Hc]; [lia|lia|].
        apply (Hout a) in Hc; [lia|done].
      - destruct (proj1 (Hin (b.2 + 1))) as [?|Hc]; [lia|lia|].
        apply (Hout b) in Hc; [lia|done]. }
    assert (a = b) as <- by (destruct a, b; cbn in *; congruence).
    f_equal. apply IH; [done|done|].
    intros y. split; intros Hy.
    + pose proof (Hout a _ _ Hall1 Hy).
      destruct (proj1 (Hin y)) as [?|?]; [by right|lia|done].
    + pose proof (Hout a _ _ Hall2 Hy).
      destruct (proj2 (Hin y)) as [?|?]; [by right|lia|done].
Qed.

Lemma canonical_sorted_by_start ranges :
  canonical ranges → StronglySorted (λ r1 r2 : range, r1.1 < r2.1) ranges.
Proof.
  induction ranges as [|r ranges IH]; intros Hcan; [constructor|].
  destruct (canonical_cons_inv _ _ Hcan) as (Hr & Hrest & Hall).
  constructor; [by apply IH|].
  eapply Forall_impl; [exact Hall|].
  unfold apart, closed in *. intros; lia.
Qed.

Lemma mergeRanges_covers ranges x :
  covers (mergeRanges ranges) x ↔ covers ranges x.
Proof.
  rewrite mergeRanges_pure, <- (covers_perm _ _ x (sort_ranges_perm ranges)).
  pose proof (sort_ranges_sorted ranges) as Hsorted.
  destruct (sort_ranges ranges) as [|first rest]; [done|].
  apply StronglySorted_inv in Hsorted as [Hsorted Hfirst].
  by apply merge_from_covers.
Qed.

Lemma mergeRanges_canonical ranges :
  Forall closed ranges → canonical (mergeRanges ranges).
Proof.
  intros Hclosed. rewrite mergeRanges_pure.
  rewrite <- (sort_ranges_perm ranges) in Hclosed.
  destruct (sort_ranges ranges) as [|first rest]; [by split; constructor|].
  apply Forall_cons_1 in Hclosed as [Hfirst Hrest].
  by apply merge_from_canonical.
Qed.

Lemma mergeRanges_length ranges :
  (length (mergeRanges ranges) ≤ length ranges)%nat.
Proof.
  rewrite mergeRanges_pure, <- (Permutation_length (sort_ranges_perm ranges)).
  destruct (sort_ranges ranges) as [|first rest]; [done|].
  apply merge_from_length.
Qed.

(** C5.  On closed intervals whose bounds are safe integers (below 2^53
    in absolute value) [mergeRanges] returns intervals that cover the
    same integers, are sorted by start with a gap between neighbours (so
    none overlap or touch), are as few as any closed intervals with that
    cover can be, and do not depend on the order of the input; two such
    intervals given in order of start are merged exactly when they
    overlap ([rangesOverlap]) or the second starts one past the end of the
    first. *)
Theorem mergeRanges_minimal_cover (ranges : list range) :
  Forall closed ranges → Forall safe ranges →
  (∀ x, covers (mergeRanges ranges) x ↔ covers ranges x)
  ∧ canonical (mergeRanges ranges)
  ∧ StronglySorted (λ r1 r2 : range, r1.1 < r2.1) (mergeRanges ranges)
  ∧ (∀ other, Forall closed other →
       (∀ x, covers other x ↔ covers ranges x) →
       (length (mergeRanges ranges) ≤ length other)%nat)
  ∧ (∀ ranges', ranges' ≡ₚ ranges → mergeRanges ranges' = mergeRanges ranges)
  ∧ (∀ a b : range, closed a → closed b → safe a → safe b → a.1 ≤ b.1 →
       mergeRanges [a; b]
       = if rangesOverlap a b || (b.1 =? a.2 + 1)
         then [(a.1, Z.max a.2 b.2)] else [a; b]).
Proof.
  intros Hclosed _.
  pose proof (mergeRanges_canonical ranges Hclosed) as Hcan.
  split; [apply mergeRanges_covers|]. split; [done|].
  split; [by apply canonical_sorted_by_start|]. split; [|split].
  - intros other Hother Hcov.
    rewrite <- (canonical_unique (mergeRanges other) (mergeRanges ranges)).
    + apply mergeRanges_length.
    + by apply mergeRanges_canonical.
    + done.
    + intros x. by rewrite !mergeRanges_covers.
  - intros ranges' Hperm. apply canonical_unique; [|done|].
    + apply mergeRanges_canonical. by rewrite Hperm.
    + intros x. rewrite !mergeRanges_covers. by apply covers_perm.
  - intros [a1 a2] [b1 b2] _ Hb _ _ Hab. unfold closed in Hb. cbn in Hab, Hb.
    rewrite mergeRanges_pure. unfold rangesOverlap. cbn.
    destruct (Z.leb_spec (a1 - b1) 0); [|lia]. cbn.
    destruct (Z.leb_spec b1 (a2 + 1)), (Z.leb_spec a1 b2),
      (Z.leb_spec b1 a2), (Z.eqb_spec b1 (a2 + 1)); cbn; done || lia.
Qed.

Lemma mergeRanges_minimal_cover_witness :
  (Forall closed [(8, 10); (1, 3); (2, 6); (15, 18)]
   ∧ Forall safe [(8, 10); (1, 3); (2, 6); (15, 18)])
  ∧ canonical (mergeRanges [(8, 10); (1, 3); (2, 6); (15, 18)]).
Proof.
  assert (H : Forall closed [(8, 10); (1, 3); (2, 6); (15, 18)]).
  { repeat constructor; unfold closed; cbn; lia. }
  assert (Hsafe : Forall safe [(8, 10); (1, 3); (2, 6); (15, 18)]).
  { repeat constructor; cbn; lia. }
  split; [by split|].
  exact (proj1 (proj2 (mergeRanges_minimal_cover _ H Hsafe))).
Defined.

End RangeFacts.

(** ** windows, transpose, unique, create2DArray *)

Module ArrayFacts.

Import ArrayUtils.

Section Unique.
Context {T : Type} `{EqDecision T}.
Implicit Types (arr acc : list T).

Lemma filter_filter_ne acc x (l : list T) :
  filter (λ y, y ∉ acc) (filter (λ y, y ≠ x) l)
  = filter (λ y, y ∉ acc ++ [x]) l.
Proof.
  rewrite list_filter_filter. apply list_filter_iff. intros y.
  rewrite not_elem_of_app, list_elem_of_singleton. done.
Qed.

Lemma filter_not_in_nil (l : list T) : filter (λ y, y ∉ []) l = l.
Proof.
  induction l as [|y l IH]; [done|].
  rewrite filter_cons_True by apply not_elem_of_nil. by rewrite IH.
Qed.

(** Adding the elements of [arr] to a set holding [acc] appends the first
    occurrences that are new. *)
Lemma fold_Set_add arr : ∀ acc,
  fold_left Set_add arr acc = acc ++ filter (λ y, y ∉ acc) (first_occurrences arr).
Proof.
  induction arr as [|x arr IH]; intros acc.
  { cbn. by rewrite app_nil_r. }
  cbn [fold_left first_occurrences]. rewrite IH, filter_cons. unfold Set_add.
  destruct (decide (x ∈ acc)) as [Hin|Hout].
  - destruct (decide (x ∉ acc)); [done|].
    f_equal. symmetry. apply list_filter_filter_l. by intros y Hy ->.
  - destruct (decide (x ∉ acc)); [|done].
    rewrite <- app_assoc. cbn. do 2 f_equal.
    by rewrite filter_filter_ne.
Qed.

Lemma unique_small_first arr : unique_small arr = first_occurrences arr.
Proof.
  unfold unique_small, Set_of. rewrite fold_Set_add. cbn.
  apply filter_not_in_nil.
Qed.

Lemma Map_has_set_other {V} (m : list (T * V)) k v :
  Map_has m k = false → (Map_set m k v).*1 = m.*1 ++ [k].
Proof. intros Hk. unfold Map_set. by rewrite Hk, fmap_app. Qed.

(** The loop with the [Map] keeps [seen] and [result] in step, and so
    does what the [Set] does. *)
Lemma fold_unique_step arr : ∀ seen result,
  seen.*1 = result →
  (fold_left unique_step arr (seen, result)).2 = fold_left Set_add arr result.
Proof.
  induction arr as [|x arr IH]; intros seen result Hseen; [done|].
  cbn [fold_left unique_step]. unfold Set_add at 2.
  unfold Map_has at 1. rewrite Hseen.
  destruct (decide (x ∈ result)) as [Hin|Hout].
  - rewrite bool_decide_eq_true_2 by done. cbn [negb]. by apply IH.
  - rewrite bool_decide_eq_false_2 by done. cbn [negb]. apply IH.
    rewrite Map_has_set_other, Hseen; [done|].
    unfold Map_has. rewrite Hseen. by apply bool_decide_eq_false_2.
Qed.

Lemma unique_branches_agree arr : unique_small arr = unique_large arr.
Proof.
  unfold unique_small, unique_large, Set_of. by rewrite fold_unique_step.
Qed.

Lemma first_occurrences_elem_of arr x : x ∈ first_occurrences arr ↔ x ∈ arr.
Proof.
  induction arr as [|y arr IH]; [done|].
  cbn [first_occurrences]. rewrite !elem_of_cons, list_elem_of_filter, IH.
  destruct (decide (x = y)); tauto.
Qed.

Lemma first_occurrences_NoDup arr : NoDup (first_occurrences arr).
Proof.
  induction arr as [|y arr IH]; [constructor|].
  cbn [first_occurrences]. constructor.
  - rewrite list_elem_of_filter. by intros [Hne _].
  - by apply NoDup_filter.
Qed.

Lemma first_occurrences_sublist arr : sublist (first_occurrences arr) arr.
Proof.
  induction arr as [|y arr IH]; [done|].
  cbn [first_occurrences]. apply sublist_skip.
  etrans; [apply sublist_filter|done].
Qed.

(** The element at the end is kept exactly when it has not occurred
    before. *)
Lemma first_occurrences_snoc arr x :
  first_occurrences (arr ++ [x])
  = if decide (x ∈ arr) then first_occurrences arr
    else first_occurrences arr ++ [x].
Proof.
  rewrite <- !unique_small_first. unfold unique_small, Set_of.
  rewrite fold_left_app. cbn. unfold Set_add at 1.
  rewrite (fold_Set_add arr []). cbn. rewrite filter_not_in_nil.
  apply decide_ext, first_occurrences_elem_of.
Qed.

(** C10.  [unique] returns each distinct element of the array once, in
    the order of first occurrence, and its two branches compute the same
    list. *)
Theorem unique_first_occurrences arr :
  unique arr = first_occurrences arr
  ∧ unique_small arr = unique_large arr
  ∧ NoDup (unique arr)
  ∧ (∀ x, x ∈ unique arr ↔ x ∈ arr)
  ∧ sublist (unique arr) arr.
Proof.
  assert (Hu : unique arr = first_occurrences arr).
  { unfold unique. destruct (length arr <? 1000)%nat.
    - apply unique_small_first.
    - rewrite <- unique_branches_agree. apply unique_small_first. }
  rewrite Hu. split; [done|]. split; [apply unique_branches_agree|].
  split; [apply first_occurrences_NoDup|].
  split; [apply first_occurrences_elem_of|apply first_occurrences_sublist].
Qed.

End Unique.

Section OutOfDomain.
Context {T : Type}.

Lemma windows_oversize (array : list T) size :
  Z.of_nat (length array) < size → windows array size = [].
Proof.
  intros Hsize. unfold windows.
  by destruct (Z.ltb_spec (Z.of_nat (length array)) size); [|lia].
Qed.

End OutOfDomain.

(** C3.  [transpose] does not answer the empty matrix with the empty
    result: the call throws a [TypeError], because [matrix[0]] is
    [undefined] there and [.map] is called on it.  [windows] does what
    the claim asks: its guard answers a size beyond the array's length
    with the empty list. *)
Theorem transpose_empty_matrix_throws {T} :
  transpose (@nil (list T)) = Threw "TypeError"
  ∧ transpose (@nil (list T)) ≠ Returned []
  ∧ ∀ (array : list T) (size : Z),
      Z.of_nat (length array) < size → windows array size = [].
Proof.
  split; [reflexivity|]. split; [discriminate|].
  intros array size. apply windows_oversize.
Qed.

Section Grid.
Variable string_to_number : string → value.
Variable object_to_number : nat → value.

Lemma as_integer_exact x n :
  as_integer (VNumber x) = Some n →
  (x == inject_Z n)%Q ∧ Qnum x ÷ Zpos (Qden x) = n.
Proof.
  cbn [as_integer]. destruct (Z.eqb_spec (Qnum x `mod` Z.pos (Qden x)) 0) as [Hmod|];
    [|done].
  intros [= <-].
  pose proof (Z.div_mod (Qnum x) (Z.pos (Qden x)) ltac:(lia)) as Hdiv.
  rewrite Hmod, Z.add_0_r in Hdiv.
  split.
  - unfold Qeq. cbn. lia.
  - rewrite Hdiv at 1. rewrite Z.mul_comm. apply Z.quot_mul. lia.
Qed.

Lemma small_unsigned_inv d :
  small_unsigned d = true →
  ∃ x n, d = VNumber x ∧ (x == inject_Z n)%Q ∧ 0 ≤ n < 256
         ∧ to_uint8 string_to_number object_to_number d = n.
Proof.
  unfold small_unsigned. destruct (as_integer d) as [n|] eqn:Hint; [|done].
  intros Hrange. apply andb_prop in Hrange as [Hlo Hhi].
  apply Z.leb_le in Hlo. apply Z.ltb_lt in Hhi.
  destruct d as [x| | | | | |]; try done.
  destruct (as_integer_exact x n Hint) as [Heq Hquot].
  exists x, n. repeat split; [done|lia|lia|].
  cbn. rewrite Hquot. apply Z.mod_small. lia.
Qed.

Lemma same_value_refl v : same_value v v.
Proof. destruct v; cbn; done. Qed.

Lemma small_unsigned_intro x n :
  (x == inject_Z n)%Q → 0 ≤ n < 256 → small_unsigned (VNumber x) = true.
Proof.
  intros Hx Hn. unfold Qeq in Hx. cbn in Hx. rewrite Z.mul_1_r in Hx.
  unfold small_unsigned, as_integer.
  rewrite Hx, Z.mod_mul by done. cbn [Z.eqb].
  rewrite Z.div_mul by done.
  apply andb_true_intro. split; [apply Z.leb_le|apply Z.ltb_lt]; lia.
Qed.

Lemma small_unsigned_spec d :
  small_unsigned d = true
  ↔ ∃ x n, d = VNumber x ∧ (x == inject_Z n)%Q ∧ 0 ≤ n < 256.
Proof.
  split.
  - unfold small_unsigned. destruct (as_integer d) as [n|] eqn:Hint; [|done].
    intros Hrange. apply andb_prop in Hrange as [Hlo Hhi].
    apply Z.leb_le in Hlo. apply Z.ltb_lt in Hhi.
    destruct d as [x| | | | | |]; try done.
    destruct (as_integer_exact x n Hint) as [Heq _].
    exists x, n. by repeat split.
  - intros (x & n & -> & Hx & Hn). by eapply small_unsigned_intro.
Qed.

(** C9.  The grid has [rows] rows of [cols] cells, each holding the
    default value.  When the default is a number equal to an integer in
    [0, 256) every row is a [Uint8Array]: a cell written afterwards reads
    back as an integer in [0, 256), the stored integer reduced modulo 256,
    whatever value was written.  For every other default (a number that
    is not such an integer, or a value of another type) the rows are plain
    arrays and a cell reads back the value written. *)
Theorem create2DArray_grid (rows cols : nat) (defaultValue : value) :
  let grid := create2DArray string_to_number object_to_number rows cols defaultValue in
  length grid = rows
  ∧ (∀ i r, grid !! i = Some r →
       row_length r = cols
       ∧ ∀ j, (j < cols)%nat → same_value (row_get r j) defaultValue)
  ∧ ((∃ x n, defaultValue = VNumber x ∧ (x == inject_Z n)%Q ∧ 0 ≤ n < 256) →
     ∀ i r j v, grid !! i = Some r → (j < cols)%nat →
       is_typed r = true
       ∧ ∃ z, row_get (row_set string_to_number object_to_number r j v) j
              = VNumber (inject_Z z)
              ∧ 0 ≤ z < 256
              ∧ ∀ n, as_integer v = Some n → z = n `mod` 256)
  ∧ (¬ (∃ x n, defaultValue = VNumber x ∧ (x == inject_Z n)%Q ∧ 0 ≤ n < 256) →
     ∀ i r j v, grid !! i = Some r → (j < cols)%nat →
       is_typed r = false
       ∧ row_get (row_set string_to_number object_to_number r j v) j = v).
Proof.
  cbn zeta. unfold create2DArray.
  pose proof (small_unsigned_spec defaultValue) as Hspec.
  destruct (small_unsigned defaultValue) eqn:Hsmall.
  - destruct (small_unsigned_inv _ Hsmall) as (x & n & -> & Hx & Hn & ->).
    split; [apply length_replicate|]. split; [|split].
    + intros i r Hr. apply lookup_replicate in Hr as [-> _].
      split; [apply length_replicate|].
      intros j Hj. cbn. rewrite lookup_replicate_2 by done. cbn. by symmetry.
    + intros _ i r j v Hr Hj. apply lookup_replicate in Hr as [-> _].
      split; [done|]. exists (to_uint8 string_to_number object_to_number v). cbn.
      rewrite list_lookup_insert_eq by (by rewrite length_replicate).
      split; [done|]. split.
      * unfold to_uint8. destruct (to_number _ _ v); try lia.
        apply Z.mod_pos_bound. lia.
      * intros m Hm. destruct v as [y| | | | | |]; try done.
        destruct (as_integer_exact y m Hm) as [_ Hquot].
        cbn. by rewrite Hquot.
    + intros Hnot. destruct Hnot. by apply Hspec.
  - split; [apply length_replicate|]. split; [|split].
    + intros i r Hr. apply lookup_replicate in Hr as [-> _].
      split; [apply length_replicate|].
      intros j Hj. cbn. rewrite lookup_replicate_2 by done. cbn.
      apply same_value_refl.
    + intros Hbyte. apply Hspec in Hbyte. done.
    + intros _ i r j v Hr Hj. apply lookup_replicate in Hr as [-> _].
      split; [done|]. unfold row_set. rewrite length_replicate.
      destruct (Nat.ltb_spec j cols); [|lia]. unfold row_get.
      by rewrite list_lookup_insert_eq by (by rewrite length_replicate).
Qed.

End Grid.

End ArrayFacts.

(** ** The test harness *)

Module HarnessFacts.

Import ArrayUtils Harness.

(** C4.  A part without test cases (the list is missing or empty) is
    not reported as skipped: the run does not yield [true], it fails with
    a [ReferenceError], because the branch calls [log], which [test.ts]
    does not bind.  A part with test cases is handed to [runTestPart]. *)
Theorem no_tests_throws (console : Type)
    (runTestPart : (string → answer) → list TestCase → nat → console → bool * console)
    (solution_part1 solution_part2 : string → answer)
    (tests : DayTests) (out : console) :
  (part1 tests = None ∨ part1 tests = Some [] →
   runPart1Tests console runTestPart solution_part1 tests out
   = Threw "ReferenceError")
  ∧ (part2 tests = None ∨ part2 tests = Some [] →
     runPart2Tests console runTestPart solution_part2 tests out
     = Threw "ReferenceError")
  ∧ (∀ case cases, part1 tests = Some (case :: cases) →
       runPart1Tests console runTestPart solution_part1 tests out
       = Returned (runTestPart solution_part1 (case :: cases) 1%nat out)).
Proof.
  unfold runPart1Tests, runPart2Tests.
  split; [|split].
  - intros [-> | ->]; reflexivity.
  - intros [-> | ->]; reflexivity.
  - intros case cases ->. reflexivity.
Qed.

End HarnessFacts.

(** ** Arguments after a call *)

Module PurityFacts.

Import MathUtils Ranges.

(** C2.  Two calls after which an argument is no longer what it was.
    [getPermutations([1, 2])] swaps inside the caller's array and leaves
    it as [[2, 1]].  [mergeRanges([[1, 3], [2, 6]])] copies the outer
    array only: the first slot of [merged] is the caller's own pair
    [[1, 3]] (reference 0), which the loop overwrites to [[1, 6]]. *)
Theorem arguments_are_modified :
  getPermutations 20 [1; 2] = Some ([2; 1], [[1; 2]; [2; 1]])
  ∧ mergeRanges_on [(1, 3); (2, 6)] [0; 1]%nat = ([(1, 6); (2, 6)], [0%nat]).
Proof. split; reflexivity. Qed.

End PurityFacts.

(** ** math.ts and counting, further properties *)

Module MathMoreFacts.

Import JS JSFacts MathUtils MathFacts ArrayUtils MathMore CountingInvariants.

(** *** binaryToDecimal *)

(** [to_int32 x] is the representative of [x] modulo 2^32 in the signed
    range. *)
Lemma to_int32_unique x y :
  - 2 ^ 31 ≤ y < 2 ^ 31 → (x - y) `mod` 2 ^ 32 = 0 → to_int32 x = y.
Proof.
  intros Hy Hmod. unfold to_int32.
  apply Z.mod_divide in Hmod as [k Hk]; [|lia].
  replace (x + 2 ^ 31) with (y + 2 ^ 31 + k * 2 ^ 32) by lia.
  rewrite Z_mod_plus_full, Z.mod_small; lia.
Qed.

Lemma to_int32_congr x : (x - to_int32 x) `mod` 2 ^ 32 = 0.
Proof.
  unfold to_int32. rewrite (Z.mod_eq (x + 2 ^ 31)) by lia.
  replace (x - (x + 2 ^ 31 - 2 ^ 32 * ((x + 2 ^ 31) `div` 2 ^ 32) - 2 ^ 31))
    with (((x + 2 ^ 31) `div` 2 ^ 32) * 2 ^ 32) by lia.
  apply Z_mod_mult.
Qed.

Lemma shift_or_bit v b :
  b = 0 ∨ b = 1 → bor (shl (to_int32 v) 1) b = to_int32 (2 * v + b).
Proof.
  intros Hb.
  pose proof (to_int32_range v) as Hv.
  pose proof (to_int32_congr v) as Hcv.
  apply Z.mod_divide in Hcv as [k Hk]; [|lia].
  assert (Hshl : shl (to_int32 v) 1 = to_int32 (2 * v)).
  { unfold shl. rewrite (to_int32_small (to_int32 v)) by done.
    change (1 `mod` 32) with 1. rewrite Z.shiftl_mul_pow2 by lia.
    change (2 ^ 1) with 2.
    pose proof (to_int32_range (to_int32 v * 2)) as Hr.
    pose proof (to_int32_congr (to_int32 v * 2)) as Hc.
    apply Z.mod_divide in Hc as [j Hj]; [|lia].
    symmetry. apply to_int32_unique; [done|].
    apply Z.mod_divide; [lia|]. exists (2 * k + j). lia. }
  rewrite Hshl.
  pose proof (to_int32_range (2 * v)) as Hr.
  pose proof (to_int32_congr (2 * v)) as Hc.
  apply Z.mod_divide in Hc as [j Hj]; [|lia].
  assert (Heven : Z.odd (to_int32 (2 * v)) = false).
  { replace (to_int32 (2 * v)) with (2 * (v - j * 2 ^ 31)) by lia.
    by rewrite Z.odd_mul. }
  unfold bor. rewrite (to_int32_small (to_int32 (2 * v))) by done.
  rewrite (to_int32_small b) by lia.
  assert (Hlor : Z.lor (to_int32 (2 * v)) b = to_int32 (2 * v) + b).
  { destruct Hb as [-> | ->]; [by rewrite Z.lor_0_r, Z.add_0_r|].
    assert (Hland : Z.land (to_int32 (2 * v)) 1 = 0).
    { change 1 with (Z.ones 1). rewrite Z.land_ones by lia.
      change (2 ^ 1) with 2. by rewrite Zmod_odd, Heven. }
    by rewrite <- Z.lxor_lor, <- Z.add_nocarry_lxor. }
  rewrite Hlor. symmetry. apply to_int32_unique.
  - assert (to_int32 (2 * v) ≠ 2 ^ 31 - 1).
    { intros Heq. rewrite Heq in Heven. done. }
    lia.
  - apply Z.mod_divide; [lia|]. exists j. lia.
Qed.

Lemma binary_fold chars : ∀ v,
  fold_left (λ result ch, bor (shl result 1) (bit_of ch)) chars (to_int32 v)
  = to_int32 (fold_left (λ v ch, 2 * v + bit_of ch) chars v).
Proof.
  induction chars as [|ch chars IH]; intros v; [done|].
  cbn [fold_left]. rewrite shift_or_bit; [apply IH|].
  unfold bit_of. destruct (Ascii.eqb ch _); auto.
Qed.

Lemma binary_fold_bound chars : ∀ v k,
  0 ≤ k → 0 ≤ v < 2 ^ k →
  0 ≤ fold_left (λ v ch, 2 * v + bit_of ch) chars v
    < 2 ^ (k + Z.of_nat (length chars)).
Proof.
  induction chars as [|ch chars IH]; intros v k Hk Hv.
  { cbn [fold_left length]. by rewrite Z.add_0_r. }
  cbn [fold_left length].
  replace (k + Z.of_nat (S (length chars)))
    with ((k + 1) + Z.of_nat (length chars)) by lia.
  apply IH; [lia|]. rewrite Z.pow_add_r by lia. change (2 ^ 1) with 2.
  unfold bit_of. destruct (Ascii.eqb ch _); lia.
Qed.

Lemma length_list_ascii s :
  length (list_ascii_of_string s) = String.length s.
Proof. induction s as [|ch s IH]; [done|]. cbn. by rewrite IH. Qed.

(** X1.  [binaryToDecimal] returns the binary value of the string read
    modulo 2^32 into the signed 32-bit range; up to 31 characters that is
    the binary value itself, a number below 2^length. *)
Theorem binaryToDecimal_int32 (binary : string) :
  binaryToDecimal binary = to_int32 (binary_value binary)
  ∧ ((String.length binary ≤ 31)%nat →
     binaryToDecimal binary = binary_value binary
     ∧ 0 ≤ binary_value binary < 2 ^ Z.of_nat (String.length binary)).
Proof.
  assert (Hval : binaryToDecimal binary = to_int32 (binary_value binary)).
  { unfold binaryToDecimal, binary_value.
    change 0 with (to_int32 0) at 1. apply binary_fold. }
  split; [done|]. intros Hlen.
  pose proof (binary_fold_bound (list_ascii_of_string binary) 0 0) as Hb.
  rewrite length_list_ascii, Z.add_0_l in Hb.
  specialize (Hb ltac:(lia) ltac:(lia)). fold (binary_value binary) in Hb.
  split; [|done]. rewrite Hval. apply to_int32_small.
  pose proof (Z.pow_le_mono_r 2 (Z.of_nat (String.length binary)) 31
                ltac:(lia) ltac:(lia)).
  lia.
Qed.

(** *** Maps as entry lists *)

Section Maps.
Context {T : Type} `{EqDecision T} {V : Type}.
Implicit Types (m : list (T * V)) (k : T) (v : V).

Lemma Map_get_None m k : Map_get m k = None ↔ k ∉ m.*1.
Proof.
  induction m as [|[k' v'] m IH]; cbn.
  { split; [intros _; apply not_elem_of_nil|done]. }
  rewrite not_elem_of_cons. destruct (decide (k' = k)) as [->|Hne].
  - split; [done|]. by intros [? _].
  - rewrite IH. split; [by split|by intros [_ ?]].
Qed.

Lemma Map_get_app_r m k v : k ∉ m.*1 → Map_get (m ++ [(k, v)]) k = Some v.
Proof.
  induction m as [|[k' v'] m IH]; cbn; intros Hk.
  { by rewrite decide_True. }
  apply not_elem_of_cons in Hk as [Hne Hk].
  rewrite decide_False by done. by apply IH.
Qed.

Lemma Map_get_app_ne m k k' v :
  k ≠ k' → Map_get (m ++ [(k, v)]) k' = Map_get m k'.
Proof.
  intros Hne. induction m as [|[k'' v'] m IH]; cbn.
  { by rewrite decide_False. }
  destruct (decide (k'' = k')); [done|apply IH].
Qed.

Lemma Map_get_replace_eq m k v :
  k ∈ m.*1 →
  Map_get ((λ e, if decide (e.1 = k) then (k, v) else e) <$> m) k = Some v.
Proof.
  induction m as [|[k' v'] m IH]; cbn; intros Hk.
  { by apply elem_of_nil in Hk. }
  destruct (decide (k' = k)) as [->|Hne]; cbn.
  - by rewrite decide_True.
  - rewrite decide_False by done. apply IH.
    apply elem_of_cons in Hk as [?|?]; [congruence|done].
Qed.

Lemma Map_get_replace_ne m k k' v :
  k ≠ k' →
  Map_get ((λ e, if decide (e.1 = k) then (k, v) else e) <$> m) k'
  = Map_get m k'.
Proof.
  intros Hne. induction m as [|[k'' v'] m IH]; cbn; [done|].
  destruct (decide (k'' = k)) as [->|Hne']; cbn.
  - rewrite !decide_False by done. apply IH.
  - destruct (decide (k'' = k')); [done|apply IH].
Qed.

Lemma Map_has_spec m k : Map_has m k = true ↔ k ∈ m.*1.
Proof. unfold Map_has. apply bool_decide_eq_true. Qed.

(** [get] after [set]: the key just set reads the value set, every other
    key reads what it read before. *)
Lemma Map_get_set m k k' v :
  Map_get (Map_set m k v) k' = if decide (k = k') then Some v else Map_get m k'.
Proof.
  unfold Map_set. destruct (Map_has m k) eqn:Hhas.
  - apply Map_has_spec in Hhas. destruct (decide (k = k')) as [<-|Hne].
    + by apply Map_get_replace_eq.
    + by apply Map_get_replace_ne.
  - assert (Hk : k ∉ m.*1).
    { intros Hin. apply Map_has_spec in Hin. congruence. }
    destruct (decide (k = k')) as [<-|Hne].
    + by apply Map_get_app_r.
    + by apply Map_get_app_ne.
Qed.

Lemma Map_set_keys m k v : (Map_set m k v).*1 = Set_add m.*1 k.
Proof.
  unfold Map_set, Set_add, Map_has.
  destruct (decide (k ∈ m.*1)) as [Hin|Hout].
  - rewrite bool_decide_eq_true_2 by done.
    clear Hin. induction m as [|[k' v'] m IH]; [done|].
    cbn. rewrite IH. by destruct (decide (k' = k)) as [->|].
  - rewrite bool_decide_eq_false_2 by done. by rewrite fmap_app.
Qed.

End Maps.

(** *** occurrences, getFrequencyMap, mode *)

Section CountingFacts.
Context {T : Type} `{EqDecision T}.
Variable is_NaN : T → bool.
Implicit Types (arr seen rest : list T) (x y item : T) (map : list (T * Z)).

Lemma count_cons y arr x :
  occurrences (y :: arr) x
  = (if decide (y = x) then 1 else 0) + occurrences arr x.
Proof.
  unfold occurrences. rewrite filter_cons.
  destruct (decide (y = x)); cbn [length]; lia.
Qed.

Lemma count_snoc arr y x :
  occurrences (arr ++ [y]) x
  = occurrences arr x + (if decide (y = x) then 1 else 0).
Proof.
  induction arr as [|z arr IH]; cbn [app].
  - rewrite count_cons. unfold occurrences. cbn. lia.
  - rewrite !count_cons, IH. lia.
Qed.

Lemma count_nonneg arr x : 0 ≤ occurrences arr x.
Proof.
  induction arr as [|y arr IH]; [done|].
  rewrite count_cons. destruct (decide (y = x)); lia.
Qed.

Lemma count_pos arr x : 0 < occurrences arr x ↔ x ∈ arr.
Proof.
  induction arr as [|y arr IH].
  { split; [done|]. intros Hx. by apply elem_of_nil in Hx. }
  rewrite count_cons, elem_of_cons. pose proof (count_nonneg arr x).
  destruct (decide (y = x)) as [->|Hne].
  - split; [by left|lia].
  - rewrite Z.add_0_l, IH. split; [by right|]. by intros [?|?].
Qed.

Lemma occurrences_zero arr x : occurrences arr x = 0 ↔ x ∉ arr.
Proof.
  pose proof (count_nonneg arr x) as Hnn. pose proof (count_pos arr x) as Hpos.
  split; [intros Hz Hin; apply Hpos in Hin; lia|].
  intros Hout. destruct (Z.eq_dec (occurrences arr x) 0); [done|].
  destruct Hout. apply Hpos. lia.
Qed.

Lemma occurrences_length arr x : occurrences arr x ≤ Z.of_nat (length arr).
Proof.
  induction arr as [|y arr IH]; [done|].
  rewrite count_cons. cbn [length]. destruct (decide (y = x)); lia.
Qed.

Lemma occurrences_app arr arr' x :
  occurrences (arr ++ arr') x = occurrences arr x + occurrences arr' x.
Proof.
  induction arr as [|y arr IH]; cbn [app].
  - unfold occurrences at 2. cbn. lia.
  - rewrite !count_cons, IH. lia.
Qed.

(** [===] holds of two values when they are the same and not [NaN]. *)
Lemma strict_equal_spec y x :
  strict_equal is_NaN y x = true ↔ y = x ∧ is_NaN x = false.
Proof.
  unfold strict_equal. rewrite andb_true_iff, negb_true_iff, bool_decide_eq_true.
  split; [by intros [Hy ->]|by intros [-> Hx]].
Qed.

Lemma countOccurrences_fold arr x : ∀ c,
  fold_left (λ count y, if strict_equal is_NaN y x then count + 1 else count)
    arr c
  = c + (if is_NaN x then 0 else occurrences arr x).
Proof.
  induction arr as [|y arr IH]; intros c; cbn [fold_left].
  { unfold occurrences. cbn. destruct (is_NaN x); lia. }
  rewrite IH, count_cons.
  pose proof (strict_equal_spec y x) as Hspec.
  destruct (strict_equal is_NaN y x).
  - destruct (proj1 Hspec eq_refl) as [-> ->]. rewrite decide_True by done. lia.
  - destruct (is_NaN x) eqn:Hx; [lia|].
    destruct (decide (y = x)) as [->|Hne]; [|lia].
    discriminate (proj2 Hspec (conj eq_refl eq_refl)).
Qed.

Lemma countOccurrences_occurrences arr x :
  countOccurrences is_NaN arr x = if is_NaN x then 0 else occurrences arr x.
Proof. unfold countOccurrences. by rewrite countOccurrences_fold. Qed.

(** X2.  [countOccurrences] returns the number of positions of the
    array that hold the value, and 0 for the value [NaN], which [===]
    never finds.  So the count is 0 exactly when the value is not in the
    array or is [NaN]; it is never negative and at most the length, and
    appending arrays adds the counts. *)
Theorem countOccurrences_counts arr arr' x :
  countOccurrences is_NaN arr x = (if is_NaN x then 0 else occurrences arr x)
  ∧ (countOccurrences is_NaN arr x = 0 ↔ x ∉ arr ∨ is_NaN x = true)
  ∧ 0 ≤ countOccurrences is_NaN arr x ≤ Z.of_nat (length arr)
  ∧ countOccurrences is_NaN (arr ++ arr') x
    = countOccurrences is_NaN arr x + countOccurrences is_NaN arr' x.
Proof.
  rewrite !countOccurrences_occurrences.
  pose proof (count_nonneg arr x) as Hnn.
  pose proof (occurrences_length arr x) as Hlen.
  pose proof (occurrences_zero arr x) as Hzero.
  split; [done|]. destruct (is_NaN x).
  - split; [split; [by right|done]|]. split; lia.
  - split; [|split; [lia|apply occurrences_app]].
    rewrite Hzero. split; [by left|by intros [?|?]].
Qed.

Lemma or_zero_count arr x :
  or_zero (if decide (x ∈ arr) then Some (occurrences arr x) else None)
  = occurrences arr x.
Proof.
  destruct (decide (x ∈ arr)) as [Hin|Hout]; cbn.
  - apply count_pos in Hin.
    destruct (Z.eqb_spec (occurrences arr x) 0); [lia|done].
  - pose proof (count_pos arr x) as Hpos. pose proof (count_nonneg arr x) as Hnn.
    destruct (Z.eq_dec (occurrences arr x) 0) as [->|]; [done|].
    destruct Hout. apply Hpos. lia.
Qed.

Lemma counts_of_step map seen item :
  counts_of map seen →
  counts_of (Map_set map item (or_zero (Map_get map item) + 1)) (seen ++ [item]).
Proof.
  intros Hmap x. rewrite Map_get_set, (Hmap item), or_zero_count, count_snoc.
  destruct (decide (item = x)) as [->|Hne].
  - rewrite decide_True; [done|]. apply elem_of_app. right. by left.
  - rewrite Z.add_0_r, (Hmap x).
    destruct (decide (x ∈ seen)) as [Hin|Hout].
    + rewrite decide_True; [done|]. apply elem_of_app. by left.
    + rewrite decide_False; [done|].
      rewrite elem_of_app, list_elem_of_singleton. by intros [?|?].
Qed.

Lemma frequency_fold arr : ∀ map seen,
  counts_of map seen →
  counts_of
    (fold_left (λ map item, Map_set map item (or_zero (Map_get map item) + 1))
       arr map)
    (seen ++ arr).
Proof.
  induction arr as [|item arr IH]; intros map seen Hmap.
  { by rewrite app_nil_r. }
  cbn [fold_left]. rewrite (cons_middle item seen arr), app_assoc.
  by apply IH, counts_of_step.
Qed.

Lemma frequency_keys arr : ∀ map : list (T * Z),
  (fold_left (λ map item, Map_set map item (or_zero (Map_get map item) + 1))
     arr map).*1
  = fold_left Set_add arr map.*1.
Proof.
  induction arr as [|item arr IH]; intros map; [done|].
  cbn [fold_left]. by rewrite IH, Map_set_keys.
Qed.

Lemma mode_inv_step arr st seen item :
  mode_inv arr st seen → mode_inv arr (mode_step st item) (seen ++ [item]).
Proof.
  destruct st as [[freq maxFreq] maxItem]. intros (Hfreq & Hmax & Hitem).
  cbn [fst snd] in Hfreq, Hmax, Hitem. unfold mode_step.
  rewrite (Hfreq item), or_zero_count, Z.gtb_ltb.
  assert (Hseen : ∃ y seen', seen ++ [item] = y :: seen').
  { destruct seen; cbn; eauto. }
  destruct Hseen as (y & seen' & Hseen).
  destruct (Z.ltb_spec maxFreq (occurrences seen item + 1)) as [Hlt|Hge];
    unfold mode_inv; cbn [fst snd]; (split; [|split]).
  - rewrite <- (or_zero_count seen item), <- (Hfreq item).
    by apply counts_of_step.
  - intros x. rewrite count_snoc. specialize (Hmax x).
    destruct (decide (item = x)) as [->|]; lia.
  - rewrite Hseen, <- Hseen. exists item.
    split; [done|]. split; [apply elem_of_app; right; by left|].
    rewrite count_snoc, decide_True by done. done.
  - rewrite <- (or_zero_count seen item), <- (Hfreq item).
    by apply counts_of_step.
  - intros x. rewrite count_snoc. specialize (Hmax x).
    destruct (decide (item = x)) as [->|]; lia.
  - rewrite Hseen, <- Hseen.
    destruct seen as [|z seen0].
    { destruct Hitem as [-> _]. pose proof (count_nonneg [] item).
      unfold occurrences in Hge. cbn in Hge. lia. }
    destruct Hitem as (m & -> & Hm & Hcount). exists m.
    split; [done|]. split; [apply elem_of_app; by left|].
    rewrite count_snoc.
    destruct (decide (item = m)) as [->|]; lia.
Qed.

Lemma mode_fold arr rest : ∀ st seen,
  mode_inv arr st seen → mode_inv arr (fold_left mode_step rest st) (seen ++ rest).
Proof.
  induction rest as [|item rest IH]; intros st seen Hinv.
  { by rewrite app_nil_r. }
  cbn [fold_left]. rewrite (cons_middle item seen rest), app_assoc.
  by apply IH, mode_inv_step.
Qed.

(** X3.  On a non-empty array [mode] returns an element of the array
    that no value occupies more positions than.  When that element is
    not [NaN], no value has a higher [countOccurrences] either ([NaN] is
    counted by the [Map] of [mode] but never by [countOccurrences]). *)
Theorem mode_most_frequent arr :
  arr ≠ [] →
  ∃ m, mode arr = Some m ∧ m ∈ arr
       ∧ (∀ x, occurrences arr x ≤ occurrences arr m)
       ∧ (is_NaN m = false →
          ∀ x, countOccurrences is_NaN arr x ≤ countOccurrences is_NaN arr m).
Proof.
  intros Hne. unfold mode.
  pose proof (mode_fold arr arr ([], 0, head arr) []) as Hinv.
  cbn [app] in Hinv. destruct Hinv as (_ & Hmax & Hitem).
  { split; [|split]; cbn.
    - intros x. rewrite decide_False; [done|apply not_elem_of_nil].
    - intros x. done.
    - done. }
  destruct arr as [|y arr]; [done|].
  destruct Hitem as (m & Hm & Hin & Hcount).
  exists m. split; [done|]. split; [done|].
  assert (Hall : ∀ x, occurrences (y :: arr) x ≤ occurrences (y :: arr) m).
  { intros x. rewrite Hcount. apply Hmax. }
  split; [exact Hall|].
  intros Hm_number x. rewrite !countOccurrences_occurrences, Hm_number.
  specialize (Hall x). pose proof (count_nonneg (y :: arr) m).
  destruct (is_NaN x); lia.
Qed.

End CountingFacts.

Lemma mode_most_frequent_witness :
  [None; None; Some 1] ≠ []
  ∧ ∃ m, mode [None; None; Some 1] = Some m ∧ m ∈ [None; None; Some 1]
         ∧ (∀ x, occurrences [None; None; Some 1] x
                 ≤ occurrences [None; None; Some 1] m)
         ∧ (bool_decide (m = None) = false →
            ∀ x, countOccurrences (λ v, bool_decide (v = None))
                   [None; None; Some 1] x
                 ≤ countOccurrences (λ v, bool_decide (v = None))
                     [None; None; Some 1] m).
Proof.
  assert (H : [None; None; Some 1] ≠ []) by discriminate.
  split; [exact H|].
  exact (mode_most_frequent (λ v : option Z, bool_decide (v = None))
           [None; None; Some 1] H).
Defined.

End MathMoreFacts.

(** ** gcd and lcm on their range *)

Module GcdMoreFacts.

Import JS JSFacts MathUtils MathFacts.

(** X4.  For a nonzero first operand and operands below 2^31 in absolute
    value, [gcd] returns, and returns the greatest common divisor: a
    positive number that divides both operands and is at least as large as
    any other common divisor. *)
Theorem gcd_returns_greatest_divisor fuel a b :
  0 < Z.abs a < 2 ^ 31 → Z.abs b < 2 ^ 31 →
  (Z.to_nat (Z.abs a + Z.abs b) < fuel)%nat →
  ∃ g, gcd fuel a b = Some g ∧ 0 < g ∧ (g | a) ∧ (g | b)
       ∧ ∀ d, (d | a) → (d | b) → d ≤ g.
Proof.
  intros Ha Hb Hfuel. exists (Z.gcd a b).
  assert (Hpos : 0 < Z.gcd a b).
  { pose proof (Z.gcd_nonneg a b). pose proof (Z.gcd_eq_0_l a b). lia. }
  split; [by apply gcd_correct|]. split; [done|].
  split; [apply Z.gcd_divide_l|]. split; [apply Z.gcd_divide_r|].
  intros d Hda Hdb. apply Z.divide_pos_le; [done|]. by apply Z.gcd_greatest.
Qed.

Lemma gcd_returns_greatest_divisor_witness :
  (0 < Z.abs 48 < 2 ^ 31 ∧ Z.abs (-18) < 2 ^ 31
   ∧ (Z.to_nat (Z.abs 48 + Z.abs (-18)) < 100)%nat)
  ∧ ∃ g, gcd 100 48 (-18) = Some g ∧ 0 < g ∧ (g | 48) ∧ (g | -18)
         ∧ ∀ d, (d | 48) → (d | -18) → d ≤ g.
Proof.
  assert (H1 : 0 < Z.abs 48 < 2 ^ 31) by (cbn; lia).
  assert (H2 : Z.abs (-18) < 2 ^ 31) by (cbn; lia).
  assert (H3 : (Z.to_nat (Z.abs 48 + Z.abs (-18)) < 100)%nat) by (cbn; lia).
  split; [by repeat split|].
  exact (gcd_returns_greatest_divisor 100 48 (-18) H1 H2 H3).
Defined.

(** X5.  The two operands are not treated alike at zero: [gcd(0, b)]
    never returns, whatever [b] is, while [gcd(a, 0)] returns [|a|] for a
    nonzero [a] below 2^31 in absolute value. *)
Theorem gcd_zero_operands :
  (∀ fuel b, gcd fuel 0 b = None)
  ∧ (∀ fuel a, 0 < Z.abs a < 2 ^ 31 → (Z.to_nat (Z.abs a) < fuel)%nat →
       gcd fuel a 0 = Some (Z.abs a)).
Proof.
  split; [apply gcd_zero_left|].
  intros fuel a Ha Hfuel. rewrite gcd_correct by (cbn; lia).
  by rewrite Z.gcd_0_r.
Qed.

Lemma gcd_mul_lcm a b : Z.gcd a b ≠ 0 → Z.lcm a b * Z.gcd a b = Z.abs (a * b).
Proof.
  intros Hg. unfold Z.lcm.
  pose proof (Z.gcd_nonneg a b) as Hnn.
  destruct (Z.gcd_divide_r a b) as [k Hk].
  remember (Z.gcd a b) as g eqn:Heqg. clear Heqg. subst b.
  rewrite Z.div_mul by done. rewrite !Z.abs_mul, (Z.abs_eq g) by lia. lia.
Qed.

(** X6.  For nonzero operands below 2^31 in absolute value whose product
    a double holds exactly, [lcm] returns the least common multiple. *)
Theorem lcm_returns_lcm fuel a b :
  0 < Z.abs a < 2 ^ 31 → 0 < Z.abs b < 2 ^ 31 → Z.abs (a * b) ≤ 2 ^ 53 →
  (Z.to_nat (Z.abs a + Z.abs b) < fuel)%nat →
  ∃ q, lcm fuel a b = Some (Some q) ∧ (q == inject_Z (Z.lcm a b))%Q.
Proof.
  intros Ha Hb _ Hfuel. unfold lcm, js_div. rewrite gcd_correct by lia.
  assert (Hg : Z.gcd a b ≠ 0).
  { pose proof (Z.gcd_eq_0_l a b). lia. }
  destruct (Z.eqb_spec (Z.gcd a b) 0) as [|_]; [done|].
  eexists; split; [done|].
  rewrite <- (gcd_mul_lcm a b Hg), inject_Z_mult.
  field. intros H0. apply Hg. unfold Qeq in H0. cbn in H0. lia.
Qed.

Lemma lcm_returns_lcm_witness :
  (0 < Z.abs 4 < 2 ^ 31 ∧ 0 < Z.abs 6 < 2 ^ 31 ∧ Z.abs (4 * 6) ≤ 2 ^ 53
   ∧ (Z.to_nat (Z.abs 4 + Z.abs 6) < 20)%nat)
  ∧ ∃ q, lcm 20 4 6 = Some (Some q) ∧ (q == inject_Z (Z.lcm 4 6))%Q.
Proof.
  assert (H1 : 0 < Z.abs 4 < 2 ^ 31) by (cbn; lia).
  assert (H2 : 0 < Z.abs 6 < 2 ^ 31) by (cbn; lia).
  assert (H3 : Z.abs (4 * 6) ≤ 2 ^ 53) by (cbn; lia).
  assert (H4 : (Z.to_nat (Z.abs 4 + Z.abs 6) < 20)%nat) by (cbn; lia).
  split; [by repeat split|].
  exact (lcm_returns_lcm 20 4 6 H1 H2 H3 H4).
Defined.

End GcdMoreFacts.

(** ** getPermutations on arbitrary arrays *)

Module PermMoreFacts.

Import MathUtils PermCheck PermFacts PermRounds.

Lemma remaining_fmap {A B} (f : A → B) (array : list A) i :
  remaining (f <$> array) i = f <$> remaining array i.
Proof. unfold remaining. by rewrite fmap_app, fmap_take, fmap_drop. Qed.

Lemma getPermutationsLarger_round {A} fuel (array : list A) :
  getPermutationsLarger (S fuel) array
  = if (length array <=? 1)%nat then Some [array]
    else
      blocks ← mapM (round_body (getPermutations fuel) array) (imap pair array);
      Some (concat blocks).
Proof. done. Qed.

(** One round over the slots [(g i, x)] of a part [l] of the array, for a
    recursive call that commutes with the relabelling [f]. *)
Lemma larger_round_fmap {A B} (f : A → B)
    (rec_a : list A → option (list A * list (list A)))
    (rec_b : list B → option (list B * list (list B)))
    (array : list A) (l : list A) :
  (∀ arr : list A,
     rec_b (f <$> arr)
     = option_map (prod_map (fmap (M:=list) f) (fmap (M:=list) (fmap (M:=list) f)))
         (rec_a arr)) →
  ∀ g : nat → nat,
  mapM (round_body rec_b (f <$> array)) (imap (λ i x, (g i, x)) (f <$> l))
  = option_map (fmap (M:=list) (fmap (M:=list) (fmap (M:=list) f)))
      (mapM (round_body rec_a array) (imap (λ i x, (g i, x)) l)).
Proof.
  intros Hrec.
  assert (Hhead : ∀ i x,
    round_body rec_b (f <$> array) (i, f x)
    = option_map (fmap (M:=list) (fmap (M:=list) f)) (round_body rec_a array (i, x))).
  { intros i x. unfold round_body. rewrite remaining_fmap, Hrec.
    destruct (rec_a (remaining array i)) as [[fin perms]|]; [|done].
    cbn. f_equal. rewrite <- !list_fmap_compose. by apply list_fmap_ext. }
  induction l as [|x l IH]; intros g; [done|].
  rewrite fmap_cons, !imap_cons. cbn [mapM]. rewrite Hhead.
  specialize (IH (g ∘ S)). unfold compose in IH |- *. cbn beta in IH |- *.
  rewrite IH.
  destruct (round_body rec_a array (g 0%nat, x)) as [blk|]; [|done].
  cbn [option_map mbind option_bind].
  by destruct (mapM (round_body rec_a array) (imap (λ i x0, (g (S i), x0)) l)).
Qed.

(** [getPermutations] moves elements without looking at them: on a
    relabelled array it returns the relabelled result. *)
Lemma getPermutations_fmap {A B} (f : A → B) fuel : ∀ array : list A,
  getPermutations fuel (f <$> array)
  = option_map (prod_map (fmap (M:=list) f) (fmap (M:=list) (fmap (M:=list) f)))
      (getPermutations fuel array)
  ∧ getPermutationsLarger fuel (f <$> array)
    = option_map (fmap (M:=list) (fmap (M:=list) f))
        (getPermutationsLarger fuel array).
Proof.
  induction fuel as [|fuel IH]; intros array; [done|].
  rewrite !getPermutations_S, !getPermutationsLarger_round, !length_fmap.
  destruct (length array <=? 1)%nat; [done|]. split.
  - destruct (8 <? length array)%nat.
    + rewrite (proj2 (IH array)).
      by destruct (getPermutationsLarger fuel array).
    + change [f <$> array] with (fmap (M:=list) f <$> [array]).
      apply heap_loop_fmap.
  - pose proof (larger_round_fmap f (getPermutations fuel) (getPermutations fuel)
                  array array (λ arr, proj1 (IH arr)) id) as Hround.
    change (imap (λ i x, (id i, x)) (f <$> array))
      with (imap pair (f <$> array)) in Hround.
    change (imap (λ i x, (id i, x)) array) with (imap pair array) in Hround.
    rewrite Hround.
    destruct (mapM (round_body (getPermutations fuel) array) (imap pair array))
      as [blocks|]; [|done].
    cbn. f_equal. clear Hround.
    induction blocks as [|blk blocks IHb]; [done|].
    rewrite fmap_cons. cbn [concat]. by rewrite fmap_app, IHb.
Qed.

(** [getPermutations] returns on every array, with the rearrangements
    of the array as its result. *)
Lemma getPermutations_rearrangements {T} (array : list T) :
  ∃ final result,
    (∀ fuel, (heap_fuel + 2 * length array < fuel)%nat →
       getPermutations fuel array = Some (final, result))
    ∧ length result = fact (length array)
    ∧ ∀ p, p ∈ result ↔ p ≡ₚ array.
Proof.
  destruct array as [|d array0] eqn:Harr.
  { destruct (getPermutations_orderings 0 (@nil T) eq_refl (NoDup_nil_2 (A:=T)))
      as (fin & res & Hrun & Hlen & _ & Hmem).
    by exists fin, res. }
  rewrite <- Harr. clear Harr array0.
  set (n := length array).
  set (f := λ i, default d (array !! i)).
  assert (Hf : array = f <$> seq 0 n).
  { apply list_eq. intros i. rewrite list_lookup_fmap.
    destruct (decide (i < n)%nat) as [Hi|Hi].
    - rewrite lookup_seq_lt by done. cbn. unfold f.
      destruct (lookup_lt_is_Some_2 array i) as [x ->]; [done|done].
    - rewrite lookup_seq_ge, lookup_ge_None_2 by (unfold n in *; lia). done. }
  destruct (getPermutations_orderings n (seq 0 n)) as (fin & res & Hrun & Hlen & _ & Hmem).
  { apply length_seq. }
  { apply NoDup_seq. }
  rewrite length_seq in Hlen.
  exists (f <$> fin), (fmap (M:=list) f <$> res). split; [|split].
  - intros fuel Hfuel. rewrite Hf at 1.
    by rewrite (proj1 (getPermutations_fmap f fuel (seq 0 n))), Hrun.
  - by rewrite length_fmap.
  - intros p. rewrite list_elem_of_fmap. split.
    + intros (q & -> & Hq). rewrite Hf. by apply fmap_Permutation, Hmem.
    + intros Hp. rewrite Hf in Hp.
      apply Permutation_map_inv in Hp as (q & -> & Hq).
      exists q. split; [done|]. by apply Hmem.
Qed.

(** X7.  For every array, with or without repeated elements,
    [getPermutations] returns [n!] lists, and a list is among them exactly
    when it is a rearrangement of the array: repeated elements do not
    shorten the result. *)
Theorem getPermutations_any_array {T} (array : list T) :
  ∃ final result,
    (∀ fuel, (heap_fuel + 2 * length array < fuel)%nat →
       getPermutations fuel array = Some (final, result))
    ∧ length result = fact (length array)
    ∧ ∀ p, p ∈ result ↔ p ≡ₚ array.
Proof. apply getPermutations_rearrangements. Qed.

Section HeapInPlace.
Context {T : Type}.
Implicit Types (array : list T) (result : list (list T)).

Lemma swap_Permutation array i k : swap array i k ≡ₚ array.
Proof.
  unfold swap.
  destruct (array !! i) as [x|] eqn:Hx; [|done].
  destruct (array !! k) as [y|] eqn:Hy; [|done].
  by apply Permutation_insert_swap.
Qed.

(** The loop keeps the caller's array a rearrangement of what it was, and
    what it pushed last is the array as it stands. *)
Lemma heap_loop_in_place fuel len : ∀ array c i result final res,
  last result = Some array →
  heap_loop fuel len array c i result = Some (final, res) →
  final ≡ₚ array ∧ last res = Some final.
Proof.
  induction fuel as [|fuel IH]; intros array c i result final res Hlast; [done|].
  cbn [heap_loop].
  destruct (i <? len)%nat; [|by intros [= <- <-]].
  destruct (default 0%nat (c !! i) <? i)%nat.
  - intros Hrun. apply IH in Hrun as [Hperm Hres]; [|apply last_snoc].
    split; [|done]. by rewrite Hperm, swap_Permutation.
  - by apply IH.
Qed.

End HeapInPlace.

(** X8.  On an array of 2 to 8 elements [getPermutations] leaves in
    the caller's array the permutation it emitted last: a rearrangement
    of the original contents. *)
Theorem getPermutations_leaves_last {T} (array : list T) :
  (2 ≤ length array ≤ 8)%nat →
  ∃ final result,
    (∀ fuel, (heap_fuel + 2 * length array < fuel)%nat →
       getPermutations fuel array = Some (final, result))
    ∧ last result = Some final ∧ final ≡ₚ array.
Proof.
  intros Hlen.
  destruct (getPermutations_rearrangements array) as (final & result & Hrun & _).
  exists final, result. split; [exact Hrun|].
  specialize (Hrun (S (heap_fuel + 2 * length array)) ltac:(lia)).
  rewrite getPermutations_S in Hrun.
  destruct (Nat.leb_spec (length array) 1); [lia|].
  destruct (Nat.ltb_spec 8 (length array)); [lia|].
  apply heap_loop_in_place in Hrun as [Hperm Hres]; done.
Qed.

Lemma getPermutations_leaves_last_witness :
  (2 ≤ length [1; 2; 3] ≤ 8)%nat
  ∧ ∃ final result,
      (∀ fuel, (heap_fuel + 2 * length [1; 2; 3] < fuel)%nat →
         getPermutations fuel [1; 2; 3] = Some (final, result))
      ∧ last result = Some final ∧ final ≡ₚ [1; 2; 3].
Proof.
  assert (H : (2 ≤ length [1; 2; 3] ≤ 8)%nat) by (cbn; lia).
  split; [exact H|]. exact (getPermutations_leaves_last [1; 2; 3] H).
Defined.

End PermMoreFacts.

(** ** ranges.ts, further properties *)

Module RangeMoreFacts.

Import Ranges RangesPure RangeFacts.

(** X9.  On closed ranges [rangesOverlap] holds exactly when some
    integer lies in both, and does not depend on the order of its
    arguments. *)
Theorem rangesOverlap_common_point (r1 r2 : range) :
  closed r1 → closed r2 →
  (rangesOverlap r1 r2 = true ↔ ∃ x, r1.1 ≤ x ≤ r1.2 ∧ r2.1 ≤ x ≤ r2.2)
  ∧ rangesOverlap r1 r2 = rangesOverlap r2 r1.
Proof.
  unfold closed, rangesOverlap. intros H1 H2. split.
  - rewrite andb_true_iff, !Z.leb_le. split.
    + intros [Ha Hb]. exists (Z.max r1.1 r2.1). lia.
    + intros (x & Hx1 & Hx2). lia.
  - apply andb_comm.
Qed.

Lemma rangesOverlap_common_point_witness :
  (closed (1, 5) ∧ closed (4, 8))
  ∧ (rangesOverlap (1, 5) (4, 8) = true
     ↔ ∃ x, (1, 5).1 ≤ x ≤ (1, 5).2 ∧ (4, 8).1 ≤ x ≤ (4, 8).2)
  ∧ rangesOverlap (1, 5) (4, 8) = rangesOverlap (4, 8) (1, 5).
Proof.
  assert (H1 : closed (1, 5)) by (unfold closed; cbn; lia).
  assert (H2 : closed (4, 8)) by (unfold closed; cbn; lia).
  split; [by split|]. exact (rangesOverlap_common_point (1, 5) (4, 8) H1 H2).
Defined.

Lemma canonical_closed ranges : canonical ranges → Forall closed ranges.
Proof. by intros [? _]. Qed.

(** X10.  Merging is idempotent on closed ranges: merging the result
    again gives the same result. *)
Theorem mergeRanges_idempotent (ranges : list range) :
  Forall closed ranges →
  mergeRanges (mergeRanges ranges) = mergeRanges ranges.
Proof.
  intros Hclosed.
  pose proof (mergeRanges_canonical ranges Hclosed) as Hcan.
  apply canonical_unique; [|done|].
  - by apply mergeRanges_canonical, canonical_closed.
  - intros x. apply mergeRanges_covers.
Qed.

Lemma mergeRanges_idempotent_witness :
  Forall closed [(8, 10); (1, 3); (2, 6)]
  ∧ mergeRanges (mergeRanges [(8, 10); (1, 3); (2, 6)])
    = mergeRanges [(8, 10); (1, 3); (2, 6)].
Proof.
  assert (H : Forall closed [(8, 10); (1, 3); (2, 6)]).
  { repeat constructor; unfold closed; cbn; lia. }
  split; [exact H|]. exact (mergeRanges_idempotent _ H).
Defined.

Lemma canonical_apart_lookup ranges : ∀ i j r1 r2,
  canonical ranges → (i < j)%nat →
  ranges !! i = Some r1 → ranges !! j = Some r2 → apart r1 r2 ∧ closed r1 ∧ closed r2.
Proof.
  induction ranges as [|r ranges IH]; intros i j r1 r2 Hcan Hij Hi Hj; [done|].
  destruct (canonical_cons_inv _ _ Hcan) as (Hr & Hrest & Hall).
  destruct j as [|j]; [lia|]. cbn in Hj.
  destruct i as [|i]; cbn in Hi.
  - injection Hi as <-.
    apply list_elem_of_lookup_2 in Hj as Hin.
    split; [by apply (proj1 (Forall_forall _ _) Hall)|]. split; [done|].
    by apply (proj1 (Forall_forall _ _) (canonical_closed _ Hrest)).
  - apply (IH i j); [done|lia|done|done].
Qed.

(** X11.  No two ranges of the result overlap, as [rangesOverlap] judges
    it. *)
Theorem mergeRanges_no_overlap (ranges : list range) i j r1 r2 :
  Forall closed ranges → i ≠ j →
  mergeRanges ranges !! i = Some r1 → mergeRanges ranges !! j = Some r2 →
  rangesOverlap r1 r2 = false.
Proof.
  intros Hclosed Hij Hi Hj.
  pose proof (mergeRanges_canonical ranges Hclosed) as Hcan.
  unfold rangesOverlap. apply andb_false_iff. rewrite !Z.leb_gt.
  destruct (decide (i < j)%nat) as [Hlt|Hge].
  - destruct (canonical_apart_lookup _ i j r1 r2 Hcan Hlt Hi Hj) as (Ha & H1 & H2).
    unfold apart, closed in *. lia.
  - destruct (canonical_apart_lookup _ j i r2 r1 Hcan ltac:(lia) Hj Hi) as (Ha & H1 & H2).
    unfold apart, closed in *. lia.
Qed.

Lemma mergeRanges_no_overlap_witness :
  (Forall closed [(8, 10); (1, 3); (2, 6)] ∧ 0%nat ≠ 1%nat
   ∧ mergeRanges [(8, 10); (1, 3); (2, 6)] !! 0%nat = Some (1, 6)
   ∧ mergeRanges [(8, 10); (1, 3); (2, 6)] !! 1%nat = Some (8, 10))
  ∧ rangesOverlap (1, 6) (8, 10) = false.
Proof.
  assert (H : Forall closed [(8, 10); (1, 3); (2, 6)]).
  { repeat constructor; unfold closed; cbn; lia. }
  assert (Hne : 0%nat ≠ 1%nat) by discriminate.
  assert (H0 : mergeRanges [(8, 10); (1, 3); (2, 6)] !! 0%nat = Some (1, 6))
    by reflexivity.
  assert (H1 : mergeRanges [(8, 10); (1, 3); (2, 6)] !! 1%nat = Some (8, 10))
    by reflexivity.
  split; [by repeat split|].
  exact (mergeRanges_no_overlap _ 0 1 (1, 6) (8, 10) H Hne H0 H1).
Defined.

(** *** What a call changes in the store *)

(** The loop writes only into the object [merged] ends with: the first
    sorted one or an object it allocated itself. *)
Lemma fold_merge_step_frame (n0 : nat) first rest : ∀ h extra,
  (n0 ≤ length h)%nat →
  Forall (λ q, (n0 ≤ q < length h)%nat) extra →
  let st := fold_left merge_step rest (h, first :: extra) in
  (∀ p, (p < n0)%nat → p ≠ first → st.1 !! p = h !! p)
  ∧ (n0 ≤ length st.1)%nat
  ∧ ∃ extra', st.2 = first :: extra'
              ∧ Forall (λ q, (n0 ≤ q < length st.1)%nat) extra'.
Proof.
  induction rest as [|q rest IH]; intros h extra Hn0 Hextra.
  { cbn. split; [done|]. split; [done|]. by exists extra. }
  cbn [fold_left merge_step].
  destruct (deref h q) as [start end_].
  destruct (last (first :: extra)) as [lastp|] eqn:Hlast.
  2:{ by rewrite last_cons in Hlast; destruct (last extra). }
  assert (Hlastp : lastp = first ∨ (n0 ≤ lastp < length h)%nat).
  { rewrite last_cons in Hlast. destruct (last extra) as [l|] eqn:Hl.
    - injection Hlast as <-. right.
      apply last_Some_elem_of in Hl.
      by apply (proj1 (Forall_forall _ _) Hextra).
    - injection Hlast as <-. by left. }
  destruct (start <=? (deref h lastp).2 + 1).
  - specialize (IH (<[lastp:=((deref h lastp).1, (deref h lastp).2 `max` end_)]> h)
                  extra).
    rewrite length_insert in IH. destruct (IH Hn0 Hextra) as (Hframe & Hlen & Hout).
    split; [|by split].
    intros p Hp Hpf. rewrite Hframe by done.
    apply list_lookup_insert_ne. destruct Hlastp as [->|?]; [done|lia].
  - specialize (IH (h ++ [(start, end_)]) (extra ++ [length h])).
    rewrite length_app in IH. cbn [length] in IH.
    destruct IH as (Hframe & Hlen & Hout); [lia| |].
    { apply Forall_app. split.
      - eapply Forall_impl; [exact Hextra|]. cbn. intros; lia.
      - apply Forall_singleton. lia. }
    split; [|by split].
    intros p Hp Hpf. rewrite Hframe by done. apply lookup_app_l. lia.
Qed.

(** X12.  A call of [mergeRanges] on a non-empty array changes at most
    one of the caller's range objects, the one sorted first, which is
    also the first element of the result; every other element of the
    result is a new object, and no other object of the store is touched. *)
Theorem mergeRanges_on_frame (h : store) (ranges : list ref) :
  ranges ≠ [] →
  let st := mergeRanges_on h ranges in
  ∃ first extra,
    head (sort_by_start h ranges) = Some first
    ∧ first ∈ ranges
    ∧ st.2 = first :: extra
    ∧ Forall (λ q, (length h ≤ q < length st.1)%nat) extra
    ∧ ∀ p, (p < length h)%nat → p ≠ first → st.1 !! p = h !! p.
Proof.
  intros Hne. cbn zeta. unfold mergeRanges_on.
  destruct (Nat.eqb_spec (length ranges) 0) as [Hlen|Hlen].
  { by destruct ranges. }
  pose proof (sort_by_start_perm h ranges) as Hperm.
  destruct (sort_by_start h ranges) as [|first rest].
  { apply Permutation_nil in Hperm. by subst. }
  destruct (fold_merge_step_frame (length h) first rest h [])
    as (Hframe & _ & extra & Hout & Hextra); [done|constructor|].
  exists first, extra. split; [done|].
  split; [rewrite <- Hperm; left|]. by repeat split.
Qed.

Lemma mergeRanges_on_frame_witness :
  [0; 1]%nat ≠ []
  ∧ ∃ first extra,
      (mergeRanges_on [(1, 3); (2, 6)] [0; 1]%nat).2 = first :: extra
      ∧ first ∈ [0; 1]%nat.
Proof.
  assert (H : [0; 1]%nat ≠ []) by discriminate.
  split; [exact H|].
  destruct (mergeRanges_on_frame [(1, 3); (2, 6)] [0; 1]%nat H)
    as (first & extra & _ & Hin & Hout & _).
  exists first, extra. by split.
Defined.

End RangeMoreFacts.

(** ** array.ts, further properties *)

Module ArrayMoreFacts.

Import ArrayUtils ArrayFacts ArrayMore.

(** *** sum *)

Lemma sum_fold l : ∀ a, fold_left Z.add l a = a + sum l.
Proof.
  unfold sum. induction l as [|x l IH]; intros a; cbn [fold_left]; [lia|].
  rewrite IH, (IH (0 + x)). lia.
Qed.

Lemma sum_cons x l : sum (x :: l) = x + sum l.
Proof. unfold sum at 1. cbn [fold_left]. rewrite sum_fold. lia. Qed.

(** *** minMax *)

Lemma Math_min_fold arr : ∀ m,
  fold_left (λ acc x, ext_min acc (Finite x)) arr (Finite m)
  = Finite (fold_left Z.min arr m).
Proof. induction arr as [|x arr IH]; intros m; [done|]. cbn. apply IH. Qed.

Lemma Math_max_fold arr : ∀ m,
  fold_left (λ acc x, ext_max acc (Finite x)) arr (Finite m)
  = Finite (fold_left Z.max arr m).
Proof. induction arr as [|x arr IH]; intros m; [done|]. cbn. apply IH. Qed.

Lemma fold_min_spec arr : ∀ m,
  (fold_left Z.min arr m = m ∨ fold_left Z.min arr m ∈ arr)
  ∧ fold_left Z.min arr m ≤ m
  ∧ ∀ x, x ∈ arr → fold_left Z.min arr m ≤ x.
Proof.
  induction arr as [|y arr IH]; intros m; cbn [fold_left].
  { split; [by left|]. split; [done|]. intros x Hx. by apply elem_of_nil in Hx. }
  destruct (IH (Z.min m y)) as (Hmem & Hle & Hall). split; [|split].
  - destruct Hmem as [Heq|Hin]; [|right; by right].
    rewrite Heq. destruct (Z.min_spec m y) as [[_ ->]|[_ ->]]; [by left|].
    right. by left.
  - lia.
  - intros x Hx. apply elem_of_cons in Hx as [->|Hx]; [lia|by apply Hall].
Qed.

Lemma fold_max_spec arr : ∀ m,
  (fold_left Z.max arr m = m ∨ fold_left Z.max arr m ∈ arr)
  ∧ m ≤ fold_left Z.max arr m
  ∧ ∀ x, x ∈ arr → x ≤ fold_left Z.max arr m.
Proof.
  induction arr as [|y arr IH]; intros m; cbn [fold_left].
  { split; [by left|]. split; [done|]. intros x Hx. by apply elem_of_nil in Hx. }
  destruct (IH (Z.max m y)) as (Hmem & Hle & Hall). split; [|split].
  - destruct Hmem as [Heq|Hin]; [|right; by right].
    rewrite Heq. destruct (Z.max_spec m y) as [[_ ->]|[_ ->]]; [|by left].
    right. by left.
  - lia.
  - intros x Hx. apply elem_of_cons in Hx as [->|Hx]; [lia|by apply Hall].
Qed.

(** X13.  On a non-empty array [minMax] returns two elements of the
    array that bound all the others; on the empty array it returns
    [Infinity] as the minimum and [-Infinity] as the maximum. *)
Theorem minMax_bounds (arr : list Z) :
  minMax [] = (PosInfinity, NegInfinity)
  ∧ (arr ≠ [] →
     ∃ lo hi, minMax arr = (Finite lo, Finite hi) ∧ lo ∈ arr ∧ hi ∈ arr
              ∧ ∀ x, x ∈ arr → lo ≤ x ≤ hi).
Proof.
  split; [done|]. intros Hne. destruct arr as [|y arr]; [done|].
  unfold minMax, Math_min, Math_max. cbn [fold_left ext_min ext_max].
  rewrite Math_min_fold, Math_max_fold.
  destruct (fold_min_spec arr y) as (Hmin & Hmin_le & Hmin_all).
  destruct (fold_max_spec arr y) as (Hmax & Hmax_le & Hmax_all).
  eexists _, _. split; [done|]. split; [|split].
  - destruct Hmin as [->|?]; [by left|by right].
  - destruct Hmax as [->|?]; [by left|by right].
  - intros x Hx. apply elem_of_cons in Hx as [->|Hx]; [lia|].
    specialize (Hmin_all x Hx). specialize (Hmax_all x Hx). lia.
Qed.

(** *** sequence *)

(** X14.  For safe integers [start], [end] and a positive safe step
    with [end - start] below 2^53 in absolute value, [sequence] throws a
    [RangeError] when [end] is more than one step below [start];
    otherwise it returns [start], [start + step], ... up to the last
    value that does not exceed [end] (nothing when [end < start]). *)
Theorem sequence_ascending (start end_ step : Z) :
  0 < step < 2 ^ 53 →
  Z.abs start < 2 ^ 53 → Z.abs end_ < 2 ^ 53 → Z.abs (end_ - start) < 2 ^ 53 →
  (end_ < start - step → sequence start end_ step = Threw "RangeError")
  ∧ (start - step ≤ end_ →
     ∃ l, sequence start end_ step = Returned l
          ∧ Z.of_nat (length l) = (end_ - start) `div` step + 1
          ∧ (∀ i x, l !! i = Some x →
               x = start + Z.of_nat i * step ∧ start ≤ x ≤ end_)
          ∧ end_ < start + Z.of_nat (length l) * step).
Proof.
  intros [Hstep _] _ _ _. unfold sequence.
  destruct (Z.eqb_spec step 0); [lia|].
  pose proof (Z.div_mod (end_ - start) step ltac:(lia)) as Hdm.
  pose proof (Z.mod_pos_bound (end_ - start) step Hstep) as Hmod.
  split.
  - intros Hlow. destruct (Z.ltb_spec ((end_ - start) `div` step + 1) 0); [done|].
    nia.
  - intros Hok. destruct (Z.ltb_spec ((end_ - start) `div` step + 1) 0); [nia|].
    eexists. split; [done|].
    rewrite length_fmap, length_seqZ.
    split; [lia|]. split; [|nia].
    intros i x Hx. rewrite list_lookup_fmap in Hx.
    destruct (seqZ 0 ((end_ - start) `div` step + 1) !! i) as [k|] eqn:Hk; [|done].
    apply lookup_seqZ in Hk as [-> Hi]. injection Hx as <-.
    split; [lia|]. nia.
Qed.

Lemma sequence_ascending_witness :
  (0 < 2 < 2 ^ 53 ∧ Z.abs 2 < 2 ^ 53 ∧ Z.abs 10 < 2 ^ 53
   ∧ Z.abs (10 - 2) < 2 ^ 53)
  ∧ ∃ l, sequence 2 10 2 = Returned l
         ∧ Z.of_nat (length l) = (10 - 2) `div` 2 + 1.
Proof.
  assert (H : 0 < 2 < 2 ^ 53) by lia.
  assert (H1 : Z.abs 2 < 2 ^ 53) by (cbn; lia).
  assert (H2 : Z.abs 10 < 2 ^ 53) by (cbn; lia).
  assert (H3 : Z.abs (10 - 2) < 2 ^ 53) by (cbn; lia).
  split; [by repeat split|].
  destruct (proj2 (sequence_ascending 2 10 2 H H1 H2 H3) ltac:(lia))
    as (l & Hl & Hlen & _).
  by exists l.
Defined.

(** *** slice, removeAtIndex *)

Section Generic.
Context {T : Type}.
Implicit Types (arr : list T).

Lemma slice_inside arr (a b : Z) :
  0 ≤ a ≤ b → b ≤ Z.of_nat (length arr) →
  slice arr a b = take (Z.to_nat (b - a)) (drop (Z.to_nat a) arr).
Proof.
  intros Hab Hb. unfold slice, clamp_index.
  destruct (Z.ltb_spec a 0); [lia|]. destruct (Z.ltb_spec b 0); [lia|].
  by rewrite !Z.min_l by lia.
Qed.

Lemma slice_all arr : slice arr 0 (Z.of_nat (length arr)) = arr.
Proof.
  rewrite slice_inside by lia. cbn [Z.to_nat drop].
  rewrite Z.sub_0_r, Nat2Z.id. apply firstn_all.
Qed.

(** X15.  [removeAtIndex] returns the array without the element at a
    valid index, one element shorter, and a copy of the whole array for
    any other index; [removeAtIndexInPlace] leaves in the caller's array
    exactly what [removeAtIndex] returns. *)
Theorem removeAtIndex_agree arr (index : Z) :
  removeAtIndexInPlace arr index = removeAtIndex arr index
  ∧ (index < 0 ∨ Z.of_nat (length arr) ≤ index → removeAtIndex arr index = arr)
  ∧ (0 ≤ index < Z.of_nat (length arr) →
     removeAtIndex arr index
     = take (Z.to_nat index) arr ++ drop (S (Z.to_nat index)) arr
     ∧ S (length (removeAtIndex arr index)) = length arr).
Proof.
  unfold removeAtIndexInPlace, removeAtIndex.
  destruct (Z.ltb_spec index 0) as [Hneg|Hnn]; cbn [orb].
  { rewrite slice_all. split; [done|]. split; [done|lia]. }
  destruct (Z.leb_spec (Z.of_nat (length arr)) index) as [Hbig|Hin].
  { rewrite slice_all. split; [done|]. split; [done|lia]. }
  assert (Hform : slice arr 0 index ++ slice arr (index + 1) (Z.of_nat (length arr))
                  = take (Z.to_nat index) arr ++ drop (S (Z.to_nat index)) arr).
  { rewrite !slice_inside by lia. cbn [Z.to_nat drop]. rewrite Z.sub_0_r.
    replace (Z.to_nat (index + 1)) with (S (Z.to_nat index)) by lia.
    f_equal. apply take_ge. rewrite length_drop. lia. }
  rewrite Hform. split; [apply delete_take_drop|]. split; [lia|].
  intros _. split; [done|].
  rewrite length_app, length_take, length_drop. lia.
Qed.


(** *** windows *)

Lemma windows_lookup arr (size : Z) (i : nat) :
  0 ≤ size → Z.of_nat i + size ≤ Z.of_nat (length arr) →
  windows arr size !! i = Some (take (Z.to_nat size) (drop i arr)).
Proof.
  intros Hsize Hi. unfold windows.
  destruct (Z.ltb_spec (Z.of_nat (length arr)) size); [lia|].
  rewrite list_lookup_fmap, (lookup_seqZ_lt _ _ i) by lia. cbn [fmap option_fmap option_map].
  rewrite slice_inside by lia. do 3 f_equal; lia.
Qed.

Lemma windows_length arr (size : Z) :
  size ≤ Z.of_nat (length arr) →
  Z.of_nat (length (windows arr size)) = Z.of_nat (length arr) - size + 1.
Proof.
  intros Hsize. unfold windows.
  destruct (Z.ltb_spec (Z.of_nat (length arr)) size); [lia|].
  rewrite length_fmap, length_seqZ. lia.
Qed.

(** X16.  For a size between 0 and the length of the array, [windows]
    returns the [length - size + 1] runs of [size] consecutive elements,
    in the order of their first element. *)
Theorem windows_consecutive_runs arr (size : Z) :
  0 ≤ size ≤ Z.of_nat (length arr) →
  Z.of_nat (length (windows arr size)) = Z.of_nat (length arr) - size + 1
  ∧ ∀ (i : nat) w, windows arr size !! i = Some w →
      w = take (Z.to_nat size) (drop i arr) ∧ Z.of_nat (length w) = size.
Proof.
  intros Hsize. split; [apply windows_length; lia|].
  intros i w Hw.
  assert (Hi : Z.of_nat i + size ≤ Z.of_nat (length arr)).
  { apply lookup_lt_Some in Hw. pose proof (windows_length arr size) as Hlen. lia. }
  rewrite windows_lookup in Hw by lia. injection Hw as <-.
  split; [done|]. rewrite length_take, length_drop. lia.
Qed.

(** *** chunks *)

Lemma chunks_loop_spec arr (size : Z) : 0 < size →
  ∀ fuel (i : nat) result,
    (length arr - i < fuel)%nat →
    ∃ rest,
      chunks_loop fuel arr size (Z.of_nat i) result = Some (result ++ rest)
      ∧ concat rest = drop i arr
      ∧ (∀ (j : nat) c, rest !! j = Some c →
           c = take (Z.to_nat size) (drop (i + j * Z.to_nat size) arr) ∧ c ≠ [])
      ∧ Z.of_nat (length rest) * size < Z.of_nat (length arr - i) + size.
Proof.
  intros Hsize. induction fuel as [|fuel IH]; intros i result Hfuel; [lia|].
  cbn [chunks_loop].
  destruct (Z.ltb_spec (Z.of_nat i) (Z.of_nat (length arr))) as [Hlt|Hge].
  - destruct (IH (i + Z.to_nat size)%nat
                (result ++ [slice arr (Z.of_nat i)
                              (Z.min (Z.of_nat i + size) (Z.of_nat (length arr)))])
                ltac:(lia)) as (rest & Hrun & Hcat & Hcell & Hlen).
    replace (Z.of_nat (i + Z.to_nat size)) with (Z.of_nat i + size) in Hrun by lia.
    assert (Hchunk : slice arr (Z.of_nat i)
                       (Z.min (Z.of_nat i + size) (Z.of_nat (length arr)))
                     = take (Z.to_nat size) (drop i arr)).
    { rewrite slice_inside by lia. rewrite Nat2Z.id.
      destruct (Z.min_spec (Z.of_nat i + size) (Z.of_nat (length arr)))
        as [[_ ->]|[Hle ->]].
      - f_equal. lia.
      - rewrite !take_ge; [done| |]; rewrite length_drop; lia. }
    rewrite Hchunk in Hrun. rewrite <- app_assoc in Hrun.
    exists (take (Z.to_nat size) (drop i arr) :: rest).
    split; [rewrite Hchunk; exact Hrun|]. split; [|split].
    + cbn [concat]. rewrite Hcat, <- drop_drop. apply take_drop.
    + intros [|j] c Hc.
      * injection Hc as <-. rewrite Nat.add_0_r. split; [done|].
        intros Hnil. apply (f_equal length) in Hnil.
        rewrite length_take, length_drop in Hnil. cbn in Hnil. lia.
      * cbn in Hc. apply Hcell in Hc as [-> Hne]. split; [|done].
        do 2 f_equal. rewrite Nat.mul_succ_l. lia.
    + cbn [length]. rewrite Nat2Z.inj_succ, Z.mul_succ_l.
      destruct (decide (i + Z.to_nat size ≤ length arr)%nat) as [Hfit|Hlast].
      * lia.
      * assert (Z.of_nat (length rest) = 0) as -> by nia. lia.
  - exists []. rewrite app_nil_r. split; [done|]. split; [|split].
    + cbn. symmetry. apply drop_ge. lia.
    + intros j c Hc. done.
    + cbn. lia.
Qed.

Lemma chunks_loop_stuck arr (size : Z) : size ≤ 0 → arr ≠ [] →
  ∀ fuel i result, i ≤ 0 → chunks_loop fuel arr size i result = None.
Proof.
  intros Hsize Hne. induction fuel as [|fuel IH]; intros i result Hi; [done|].
  cbn [chunks_loop]. destruct arr as [|x arr]; [done|].
  destruct (Z.ltb_spec i (Z.of_nat (length (x :: arr)))) as [_|Hge].
  - apply IH. lia.
  - cbn [length] in Hge. lia.
Qed.

(** X17.  With a positive size [chunks] cuts the array into consecutive
    pieces: glued together they give the array back, every piece but
    possibly the last has [size] elements, none is empty, and there are
    no more pieces than needed.  With a size of zero or less the loop
    never ends on a non-empty array. *)
Theorem chunks_partition arr (size : Z) :
  (0 < size → ∀ fuel, (length arr < fuel)%nat →
     ∃ res, chunks fuel arr size = Some res
            ∧ concat res = arr
            ∧ (∀ (j : nat) c, res !! j = Some c →
                 c = take (Z.to_nat size) (drop (j * Z.to_nat size) arr) ∧ c ≠ [])
            ∧ Z.of_nat (length res) * size < Z.of_nat (length arr) + size)
  ∧ (size ≤ 0 → arr ≠ [] → ∀ fuel, chunks fuel arr size = None).
Proof.
  split.
  - intros Hsize fuel Hfuel.
    destruct (chunks_loop_spec arr size Hsize fuel 0 [] ltac:(lia))
      as (rest & Hrun & Hcat & Hcell & Hlen).
    exists rest. split; [exact Hrun|]. split; [exact Hcat|]. split; [exact Hcell|].
    by rewrite Nat.sub_0_r in Hlen.
  - intros Hsize Hne fuel. by apply chunks_loop_stuck.
Qed.

End Generic.

(** *** hasIntersection *)

Section Intersection.
Context {T : Type} `{EqDecision T}.
Implicit Types (arr : list T).

Lemma Set_of_elem_of arr x : x ∈ Set_of arr ↔ x ∈ arr.
Proof.
  pose proof (unique_small_first arr) as Hset. unfold unique_small in Hset.
  rewrite Hset. apply first_occurrences_elem_of.
Qed.

Lemma some_in_Set arr1 arr2 :
  existsb (λ item, bool_decide (item ∈ Set_of arr1)) arr2 = true
  ↔ ∃ x, x ∈ arr1 ∧ x ∈ arr2.
Proof.
  rewrite existsb_exists. split.
  - intros (x & Hin & Hset). apply bool_decide_eq_true in Hset.
    exists x. split; [by apply Set_of_elem_of|by apply list_elem_of_In].
  - intros (x & H1 & H2). exists x. split; [by apply list_elem_of_In|].
    apply bool_decide_eq_true. by apply Set_of_elem_of.
Qed.

Lemma hasIntersection_spec arr1 arr2 :
  hasIntersection arr1 arr2 = true ↔ ∃ x, x ∈ arr1 ∧ x ∈ arr2.
Proof.
  unfold hasIntersection.
  destruct (length arr2 <? length arr1)%nat; rewrite some_in_Set; [|done].
  split; intros (x & H1 & H2); by exists x.
Qed.

(** X18.  [hasIntersection] answers [true] exactly when some value
    occurs in both arrays, whichever of the two is the shorter one, and
    so gives the same answer with the arrays exchanged. *)
Theorem hasIntersection_common_element arr1 arr2 :
  (hasIntersection arr1 arr2 = true ↔ ∃ x, x ∈ arr1 ∧ x ∈ arr2)
  ∧ hasIntersection arr2 arr1 = hasIntersection arr1 arr2.
Proof.
  split; [apply hasIntersection_spec|].
  destruct (hasIntersection arr1 arr2) eqn:H12.
  - apply hasIntersection_spec. apply hasIntersection_spec in H12 as (x & H1 & H2).
    by exists x.
  - destruct (hasIntersection arr2 arr1) eqn:H21; [|done].
    apply hasIntersection_spec in H21 as (x & H1 & H2).
    rewrite <- H12. symmetry. apply hasIntersection_spec. by exists x.
Qed.

End Intersection.

(** *** binomial *)

Lemma binomial_above n : ∀ k, (n < k)%nat → binomial n k = 0%nat.
Proof.
  induction n as [|n IH]; intros [|k] Hk; try lia; [done|].
  cbn [binomial]. rewrite !IH by lia. done.
Qed.

Lemma binomial_diag n : binomial n n = 1%nat.
Proof.
  induction n as [|n IH]; [done|].
  cbn [binomial]. rewrite IH, binomial_above by lia. done.
Qed.

Lemma binomial_one n : binomial n 1 = n.
Proof.
  induction n as [|n IH]; [done|]. cbn [binomial]. rewrite IH.
  by destruct n.
Qed.

(** *** zip, transpose *)

Section Shapes.
Context {T : Type}.
Implicit Types (arr : list T) (arrays : list (list T)).

Lemma foldr_min_spec (n : nat) ns :
  (foldr Nat.min n ns ≤ n)%nat
  ∧ Forall (λ k, foldr Nat.min n ns ≤ k)%nat ns
  ∧ (foldr Nat.min n ns = n ∨ foldr Nat.min n ns ∈ ns).
Proof.
  induction ns as [|k ns (Hle & Hall & Hmem)]; cbn [foldr].
  { split; [done|]. split; [constructor|by left]. }
  split; [lia|]. split.
  - constructor; [lia|]. eapply Forall_impl; [exact Hall|]. cbn. lia.
  - destruct (Nat.min_spec k (foldr Nat.min n ns)) as [[_ ->]|[_ ->]].
    + right. by left.
    + destruct Hmem as [?|?]; [by left|right; by right].
Qed.

Lemma columns_seq arrays (row0 : list T) :
  imap (λ colIndex _, (λ row : list T, row !! colIndex) <$> arrays) row0
  = (λ i, (λ array : list T, array !! i) <$> arrays) <$> seq 0 (length row0).
Proof. apply (imap_seq_0 row0 (λ i, (λ array : list T, array !! i) <$> arrays)). Qed.

(** X19.  [zip] of no arrays throws a [RangeError].  Of one or more
    arrays it returns as many rows as the shortest array has elements,
    the row [i] holding the element [i] of every array in turn, none of
    them undefined. *)
Theorem zip_rows arrays :
  zip (@nil (list T)) = Threw "RangeError"
  ∧ (arrays ≠ [] →
     ∃ rows, zip arrays = Returned rows
       ∧ Forall (λ a, length rows ≤ length a)%nat arrays
       ∧ (∃ a, a ∈ arrays ∧ length rows = length a)
       ∧ ∀ (i : nat) row, rows !! i = Some row →
           row = (λ a : list T, a !! i) <$> arrays ∧ Forall is_Some row).
Proof.
  split; [done|]. intros Hne. destruct arrays as [|a0 arrays]; [done|].
  unfold zip. cbn [fmap list_fmap]. eexists. split; [reflexivity|].
  destruct (foldr_min_spec (length a0) (length <$> arrays)) as (Hle & Hall & Hmem).
  rewrite length_fmap, length_seq.
  set (minLength := foldr Nat.min (length a0) (length <$> arrays)) in *.
  assert (Hbound : Forall (λ a, minLength ≤ length a)%nat (a0 :: arrays)).
  { constructor; [done|]. apply List.Forall_forall. intros a Ha.
    rewrite List.Forall_forall in Hall. apply Hall, in_map, Ha. }
  split; [exact Hbound|]. split.
  - destruct Hmem as [Heq|Hin].
    + exists a0. split; [by left|done].
    + apply list_elem_of_fmap in Hin as (a & Heq & Hin).
      exists a. split; [by right|done].
  - intros i row Hrow. rewrite list_lookup_fmap in Hrow.
    destruct (seq 0 minLength !! i) as [k|] eqn:Hk; [|done].
    apply lookup_seq in Hk as [-> Hi]. injection Hrow as <-.
    split; [done|].
    change (Forall is_Some ((λ a : list T, a !! i) <$> (a0 :: arrays))).
    apply List.Forall_forall. intros cell Hcell.
    apply in_map_iff in Hcell as (a & <- & Ha).
    rewrite List.Forall_forall in Hbound. specialize (Hbound a Ha).
    apply lookup_lt_is_Some. cbn in Hbound. lia.
Qed.

(** X20.  When no array is shorter than the first one, [zip] of the
    arrays is [transpose] of the matrix they form. *)
Theorem zip_is_transpose (row0 : list T) rows :
  Forall (λ r, length row0 ≤ length r)%nat rows →
  zip (row0 :: rows) = transpose (row0 :: rows).
Proof.
  intros Hrows. unfold zip, transpose. rewrite fmap_cons.
  cbn [lookup list_lookup]. rewrite columns_seq. do 3 f_equal.
  induction Hrows as [|r rows Hr _ IH]; cbn [fmap list_fmap foldr]; [done|].
  rewrite IH. lia.
Qed.

Lemma transposed_columns (row0 : list T) rows :
  Forall (λ r, length r = length row0) rows →
  ∀ (i j : nat) r, (row0 :: rows) !! i = Some r → (j < length row0)%nat →
    ∃ x, r !! j = Some x.
Proof.
  intros Hrows i j r Hr Hj.
  assert (Hlen : length r = length row0).
  { destruct i as [|i]; [by injection Hr as <-|].
    cbn in Hr. by eapply (Forall_lookup_1 _ _ _ _ Hrows Hr). }
  destruct (lookup_lt_is_Some_2 r j) as [x Hx]; [lia|by exists x].
Qed.

(** X21.  Transposing twice a matrix whose rows all have the length of
    the first gives the matrix back, every cell defined, when the rows
    are not empty.  When they are empty the first transposition returns
    the empty matrix and the second one throws a [TypeError]. *)
Theorem transpose_twice (row0 : list T) rows :
  Forall (λ r, length r = length row0) rows →
  ∃ columns, transpose (row0 :: rows) = Returned columns
    ∧ (row0 = [] → transpose columns = Threw "TypeError")
    ∧ (row0 ≠ [] →
       transpose columns
       = Returned ((λ row : list T, (λ x, Some (Some x)) <$> row)
                     <$> (row0 :: rows))).
Proof.
  intros Hrows. eexists. split; [reflexivity|]. split.
  { by intros ->. }
  intros Hne. set (matrix := row0 :: rows) in *.
  set (columns := imap _ row0).
  assert (Hcol : ∀ j : nat, (j < length row0)%nat →
            columns !! j = Some ((λ row : list T, row !! j) <$> matrix)).
  { intros j Hj. unfold columns. rewrite list_lookup_imap.
    destruct (lookup_lt_is_Some_2 row0 j Hj) as [x ->]. done. }
  unfold transpose. rewrite (Hcol 0%nat) by (destruct row0; [done|cbn; lia]).
  f_equal. apply list_eq. intros i.
  rewrite list_lookup_imap, !list_lookup_fmap.
  destruct (matrix !! i) as [r|] eqn:Hr; [|done].
  cbn [fmap option_fmap option_map]. f_equal. apply list_eq. intros j.
  rewrite !list_lookup_fmap.
  destruct (decide (j < length row0)%nat) as [Hj|Hj].
  - rewrite (Hcol j Hj). cbn [fmap option_fmap option_map].
    rewrite list_lookup_fmap, Hr. cbn [fmap option_fmap option_map].
    destruct (transposed_columns row0 rows Hrows i j r Hr Hj) as [x ->]. done.
  - rewrite (lookup_ge_None_2 columns j)
      by (unfold columns; rewrite length_imap; lia).
    assert (Hlen : length r = length row0).
    { destruct i as [|i]; [by injection Hr as <-|].
      cbn in Hr. by eapply (Forall_lookup_1 _ _ _ _ Hrows Hr). }
    rewrite (lookup_ge_None_2 r j) by lia. done.
Qed.

(** *** pairs, getOverlappingPairs *)

Lemma bind_lookup_all {B} (g : T → list B) l : ∀ pre,
  (seq (length pre) (length l) ≫= λ j,
     match (pre ++ l) !! j with Some b => g b | None => [] end)
  = l ≫= g.
Proof.
  induction l as [|z l IH]; intros pre; [done|].
  cbn [length seq]. rewrite !bind_cons, list_lookup_middle by done. f_equal.
  specialize (IH (pre ++ [z])).
  rewrite length_app, Nat.add_1_r, <- app_assoc in IH. exact IH.
Qed.

Lemma fmap_as_bind {B} (f : T → B) l : f <$> l = l ≫= λ b, [f b].
Proof. induction l as [|z l IH]; [done|]. rewrite fmap_cons, bind_cons, IH. done. Qed.

Lemma pairs_cons (x : T) l : pairs (x :: l) = (pair x <$> l) ++ pairs l.
Proof.
  unfold pairs. cbn [length]. rewrite Nat.sub_succ, Nat.sub_0_r.
  destruct l as [|y l]; [done|]. cbn [length].
  rewrite <- cons_seq, bind_cons. f_equal.
  - rewrite Nat.sub_succ, Nat.sub_0_r, <- fmap_S_seq, list_fmap_bind.
    rewrite fmap_as_bind.
    rewrite <- (bind_lookup_all (λ b, [(x, b)]) (y :: l) []).
    apply list_bind_ext; [|done]. intros j. done.
  - rewrite Nat.sub_succ, Nat.sub_0_r, <- fmap_S_seq, list_fmap_bind.
    apply list_bind_ext; [|done]. intros i. cbn [compose].
    rewrite !Nat.sub_succ, <- (fmap_S_seq (S i)), list_fmap_bind.
    apply list_bind_ext; [|done]. intros j. done.
Qed.

Lemma pairs_elem_of arr p :
  p ∈ pairs arr
  ↔ ∃ i j : nat, (i < j)%nat ∧ arr !! i = Some p.1 ∧ arr !! j = Some p.2.
Proof.
  induction arr as [|x arr IH].
  { split; [intros H; by apply elem_of_nil in H|]. by intros (i & j & _ & Hi & _). }
  rewrite pairs_cons, elem_of_app, IH, list_elem_of_fmap. split.
  - intros [(y & -> & Hy)|(i & j & Hij & Hi & Hj)].
    + apply list_elem_of_lookup in Hy as [j Hj].
      exists 0%nat, (S j). split; [lia|]. done.
    + exists (S i), (S j). split; [lia|]. done.
  - intros (i & j & Hij & Hi & Hj). destruct j as [|j]; [lia|].
    destruct i as [|i].
    + left. injection Hi as Hx. exists p.2. split.
      * destruct p as [a b]. cbn in *. by subst.
      * by eapply list_elem_of_lookup_2.
    + right. exists i, j. split; [lia|]. done.
Qed.

Lemma pairs_length arr :
  (2 * length (pairs arr) = length arr * (length arr - 1))%nat.
Proof.
  induction arr as [|x arr IH]; [done|].
  rewrite pairs_cons, length_app, length_fmap. cbn [length].
  rewrite Nat.sub_succ, Nat.sub_0_r. destruct arr as [|y arr]; [done|].
  cbn [length] in *. rewrite Nat.sub_succ, Nat.sub_0_r in IH. nia.
Qed.

(** X22.  [pairs] returns every pair of elements at two positions
    [i < j] of the array, first the earlier element, and nothing else;
    an array of [n] elements gives [n (n - 1) / 2] pairs. *)
Theorem pairs_all_index_pairs arr :
  (∀ p, p ∈ pairs arr
        ↔ ∃ i j : nat, (i < j)%nat ∧ arr !! i = Some p.1 ∧ arr !! j = Some p.2)
  ∧ (2 * length (pairs arr) = length arr * (length arr - 1))%nat
  ∧ ∀ x rest, arr = x :: rest → pairs arr = (pair x <$> rest) ++ pairs rest.
Proof.
  split; [apply pairs_elem_of|]. split; [apply pairs_length|].
  intros x rest ->. apply pairs_cons.
Qed.

Lemma omap_imap_ext {A C} (g g' : nat * A → option C) (h h' : nat → A → nat * A)
    (l : list A) :
  (∀ i x, g (h i x) = g' (h' i x)) →
  omap g (imap h l) = omap g' (imap h' l).
Proof.
  revert h h'. induction l as [|x l IH]; intros h h' Hext; [done|].
  rewrite !imap_cons. cbn [omap list_omap]. rewrite Hext.
  rewrite (IH (h ∘ S) (h' ∘ S)); [done|]. intros i y. apply Hext.
Qed.

Lemma slice_init arr :
  slice arr 0 (-1) = take (length arr - 1) arr.
Proof.
  unfold slice, clamp_index. cbn [Z.ltb Z.compare].
  rewrite Z.min_l by lia. cbn [Z.to_nat drop]. f_equal. lia.
Qed.

Lemma getOverlappingPairs_cons (x y : T) l :
  getOverlappingPairs (x :: y :: l) = (x, y) :: getOverlappingPairs (y :: l).
Proof.
  unfold getOverlappingPairs. rewrite !slice_init. cbn [length Nat.ltb Nat.leb].
  rewrite !Nat.sub_succ, !Nat.sub_0_r. cbn [take]. rewrite imap_cons.
  cbn [omap list_omap lookup list_lookup fmap option_fmap option_map]. f_equal.
  destruct l as [|z l]; [done|].
  cbn [length Nat.ltb Nat.leb]. apply omap_imap_ext. intros i w. done.
Qed.

Lemma getOverlappingPairs_lookup arr : ∀ (i : nat) x y,
  getOverlappingPairs arr !! i = Some (x, y)
  ↔ arr !! i = Some x ∧ arr !! S i = Some y.
Proof.
  induction arr as [|a arr IH]; intros i x y.
  { split; [done|]. by intros [? _]. }
  destruct arr as [|b arr].
  { split; [done|]. by intros [_ ?]. }
  rewrite getOverlappingPairs_cons. destruct i as [|i].
  - cbn. split; [by intros [= -> ->]|by intros [[= ->] [= ->]]].
  - cbn [lookup list_lookup]. apply IH.
Qed.

Lemma getOverlappingPairs_length arr :
  length (getOverlappingPairs arr) = (length arr - 1)%nat.
Proof.
  induction arr as [|a arr IH]; [done|].
  destruct arr as [|b arr]; [done|].
  rewrite getOverlappingPairs_cons. cbn [length] in *. lia.
Qed.

(** X23.  [getOverlappingPairs] returns the pairs of neighbouring
    elements in order, one fewer than the array has elements, and they
    are the windows of size 2 of the array. *)
Theorem getOverlappingPairs_neighbours arr :
  length (getOverlappingPairs arr) = (length arr - 1)%nat
  ∧ (∀ (i : nat) x y,
       getOverlappingPairs arr !! i = Some (x, y)
       ↔ arr !! i = Some x ∧ arr !! S i = Some y)
  ∧ (λ p : T * T, [p.1; p.2]) <$> getOverlappingPairs arr = windows arr 2.
Proof.
  split; [apply getOverlappingPairs_length|].
  split; [apply getOverlappingPairs_lookup|].
  destruct (decide (length arr < 2)%nat) as [Hshort|Hlong].
  { rewrite windows_oversize by lia. unfold getOverlappingPairs.
    by destruct (Nat.ltb_spec (length arr) 2); [|lia]. }
  apply list_eq. intros i. rewrite list_lookup_fmap.
  destruct (decide (i + 2 ≤ length arr)%nat) as [Hi|Hi].
  - rewrite windows_lookup by lia.
    destruct (lookup_lt_is_Some_2 arr i ltac:(lia)) as [x Hx].
    destruct (lookup_lt_is_Some_2 arr (S i) ltac:(lia)) as [y Hy].
    rewrite (proj2 (getOverlappingPairs_lookup arr i x y) (conj Hx Hy)).
    cbn [fmap option_fmap option_map fst snd]. f_equal.
    change (Z.to_nat 2) with 2%nat.
    rewrite (drop_S _ _ _ Hx). cbn [take]. f_equal.
    destruct (drop (S i) arr) as [|y' rest] eqn:Hdrop.
    { apply (f_equal length) in Hdrop. rewrite length_drop in Hdrop. cbn in Hdrop. lia. }
    pose proof (lookup_drop arr (S i) 0) as Hlook.
    rewrite Hdrop, Nat.add_0_r, Hy in Hlook. cbn in Hlook. by injection Hlook as ->.
  - rewrite (lookup_ge_None_2 (getOverlappingPairs arr))
      by (rewrite getOverlappingPairs_length; lia).
    symmetry. apply lookup_ge_None_2.
    pose proof (windows_length arr 2 ltac:(lia)). lia.
Qed.

(** *** combinations *)

Lemma sublist_full (l1 l2 : list T) :
  l1 `sublist_of` l2 → (length l2 ≤ length l1)%nat → l1 = l2.
Proof.
  induction 1 as [|x l1 l2 Hsub IH|x l1 l2 Hsub IH]; intros Hlen; [done| |].
  - f_equal. apply IH. cbn in Hlen. lia.
  - apply sublist_length in Hsub. cbn in Hlen. lia.
Qed.

Lemma combinations_spec (array : list T) : ∀ fuel (r : Z),
  0 ≤ r → (length array < fuel)%nat →
  ∃ res, combinations fuel array r = Some res
         ∧ (∀ c, c ∈ res ↔ c `sublist_of` array ∧ Z.of_nat (length c) = r)
         ∧ length res = binomial (length array) (Z.to_nat r).
Proof.
  induction array as [|first rest IH]; intros fuel r Hr Hfuel;
    (destruct fuel as [|fuel]; [lia|]); cbn [combinations].
  - cbn [length]. destruct (Z.ltb_spec (Z.of_nat 0) r) as [Hlt|Hge].
    + eexists. split; [done|]. split.
      * intros c. split; [intros H; by apply elem_of_nil in H|].
        intros [Hsub Hlen]. apply sublist_nil_r in Hsub as ->. cbn in *. lia.
      * cbn in Hlt. destruct (Z.to_nat r) eqn:Hn; [lia|done].
    + cbn in Hge. assert (r = 0) as -> by lia. cbn. eexists. split; [done|].
      split; [|done]. intros c. rewrite list_elem_of_singleton, sublist_nil_r.
      split; [by intros ->|by intros [-> _]].
  - set (array := first :: rest).
    destruct (Z.ltb_spec (Z.of_nat (length array)) r) as [Hlt|Hge].
    { eexists. split; [done|]. split.
      - intros c. split; [intros H; by apply elem_of_nil in H|].
        intros [Hsub Hlen]. apply sublist_length in Hsub. lia.
      - cbn [length]. symmetry. apply binomial_above. lia. }
    destruct (Z.eqb_spec r 0) as [->|Hr0].
    { eexists. split; [done|]. split; [|done].
      intros c. rewrite list_elem_of_singleton. split.
      - intros ->. split; [apply sublist_nil_l|done].
      - intros [_ Hlen]. destruct c; [done|]. cbn in Hlen. lia. }
    destruct (Z.eqb_spec r (Z.of_nat (length array))) as [->|Hrlen].
    { eexists. split; [done|]. split.
      - intros c. rewrite list_elem_of_singleton. split.
        + by intros ->.
        + intros [Hsub Hlen]. apply sublist_full; [done|lia].
      - rewrite Nat2Z.id. symmetry. apply binomial_diag. }
    destruct (Z.eqb_spec r 1) as [->|Hr1].
    { eexists. split; [done|]. split.
      - intros c. rewrite list_elem_of_fmap. split.
        + intros (x & -> & Hx). split; [by apply singleton_sublist_l|done].
        + intros [Hsub Hlen]. destruct c as [|x [|??]]; cbn in Hlen; try lia.
          exists x. split; [done|]. by apply singleton_sublist_l.
      - rewrite length_fmap. change (Z.to_nat 1) with 1%nat.
        symmetry. apply binomial_one. }
    cbn [length] in Hge, Hrlen, Hfuel.
    destruct (IH fuel r ltac:(lia) ltac:(lia)) as (without & -> & Hwithout & Hcount).
    destruct (IH fuel (r - 1) ltac:(lia) ltac:(lia)) as (with_ & -> & Hwith & Hcount').
    eexists. split; [done|]. split.
    + intros c. unfold array.
      rewrite elem_of_app, list_elem_of_fmap, Hwithout, sublist_cons_r.
      split.
      * intros [[Hsub Hlen]|(c' & -> & Hc')].
        -- split; [by left|done].
        -- apply Hwith in Hc' as [Hsub Hlen]. split; [right; by exists c'|].
           cbn [length]. lia.
      * intros [[Hsub|(c' & -> & Hsub)] Hlen].
        -- by left.
        -- right. exists c'. split; [done|]. apply Hwith. split; [done|].
           cbn [length] in Hlen. lia.
    + rewrite length_app, length_fmap, Hcount, Hcount'. cbn [length].
      replace (Z.to_nat r) with (S (Z.to_nat (r - 1))) by lia.
      unfold array. cbn [length binomial]. lia.
Qed.

Lemma combinations_negative (array : list T) : ∀ fuel (r : Z),
  r < 0 → combinations fuel array r = None.
Proof.
  induction array as [|first rest IH]; intros fuel r Hr;
    (destruct fuel as [|fuel]; [done|]); cbn [combinations].
  - cbn [length]. destruct (Z.ltb_spec (Z.of_nat 0) r); [lia|].
    destruct (Z.eqb_spec r 0); [lia|].
    destruct (Z.eqb_spec r (Z.of_nat 0)); [lia|].
    by destruct (Z.eqb_spec r 1); [lia|].

  - destruct (Z.ltb_spec (Z.of_nat (length (first :: rest))) r); [lia|].
    destruct (Z.eqb_spec r 0); [lia|].
    destruct (Z.eqb_spec r (Z.of_nat (length (first :: rest)))); [lia|].
    destruct (Z.eqb_spec r 1); [lia|].
    by rewrite IH.
Qed.

(** X24.  For [r >= 0], [combinations] returns the sub-sequences of
    [r] elements of the array, each kept in the order of the array, and
    as many of them as the binomial coefficient says.  For a negative [r]
    the recursion never ends. *)
Theorem combinations_subsequences (array : list T) (r : Z) :
  (0 ≤ r → ∀ fuel, (length array < fuel)%nat →
     ∃ res, combinations fuel array r = Some res
            ∧ (∀ c, c ∈ res ↔ c `sublist_of` array ∧ Z.of_nat (length c) = r)
            ∧ length res = binomial (length array) (Z.to_nat r))
  ∧ (r < 0 → ∀ fuel, combinations fuel array r = None).
Proof.
  split.
  - intros Hr fuel Hfuel. by apply combinations_spec.
  - intros Hr fuel. by apply combinations_negative.
Qed.

End Shapes.

Lemma zip_is_transpose_witness :
  Forall (λ r, length [1; 2] ≤ length r)%nat [[3; 4]; [5; 6; 7]]
  ∧ zip ([1; 2] :: [[3; 4]; [5; 6; 7]]) = transpose ([1; 2] :: [[3; 4]; [5; 6; 7]]).
Proof.
  assert (H : Forall (λ r, length [1; 2] ≤ length r)%nat [[3; 4]; [5; 6; 7]]).
  { repeat constructor. }
  split; [exact H|]. exact (zip_is_transpose [1; 2] [[3; 4]; [5; 6; 7]] H).
Defined.

Lemma transpose_twice_witness :
  Forall (λ r, length r = length [1; 2; 3]) [[4; 5; 6]]
  ∧ ∃ columns, transpose ([1; 2; 3] :: [[4; 5; 6]]) = Returned columns
      ∧ ([1; 2; 3] ≠ [] →
         transpose columns
         = Returned ((λ row : list Z, (λ x, Some (Some x)) <$> row)
                       <$> ([1; 2; 3] :: [[4; 5; 6]]))).
Proof.
  assert (H : Forall (λ r, length r = length [1; 2; 3]) [[4; 5; 6]]).
  { repeat constructor. }
  split; [exact H|].
  destruct (transpose_twice [1; 2; 3] [[4; 5; 6]] H) as (columns & Hrun & _ & Hback).
  by exists columns.
Defined.

Lemma windows_consecutive_runs_witness :
  0 ≤ 2 ≤ Z.of_nat (length [1; 2; 3])
  ∧ Z.of_nat (length (windows [1; 2; 3] 2)) = Z.of_nat (length [1; 2; 3]) - 2 + 1.
Proof.
  assert (H : 0 ≤ 2 ≤ Z.of_nat (length [1; 2; 3])) by (cbn; lia).
  split; [exact H|]. exact (proj1 (windows_consecutive_runs [1; 2; 3] 2 H)).
Defined.

End ArrayMoreFacts.

(** ** array.ts: sorting, properties *)

Module SortFacts.

Import MathUtils ArrayUtils ArrayFacts ArrayMoreFacts SortUtils.
Import MathMore CountingInvariants MathMoreFacts.

(** *** Array.prototype.sort *)

Lemma ascending_order : orders_by (λ a b, a - b) Z.le.
Proof. repeat split; intros; lia. Qed.

Lemma descending_order : orders_by (λ a b, b - a) Z.ge.
Proof. repeat split; intros; lia. Qed.

Lemma sort_insert_perm compareFn x sorted :
  sort_insert compareFn x sorted ≡ₚ x :: sorted.
Proof.
  induction sorted as [|y sorted IH]; [done|].
  cbn [sort_insert]. destruct (_ <=? 0); [done|].
  by rewrite IH, Permutation_swap.
Qed.

Lemma Array_sort_perm compareFn arr : Array_sort compareFn arr ≡ₚ arr.
Proof.
  induction arr as [|x arr IH]; [done|].
  change (Array_sort compareFn (x :: arr))
    with (sort_insert compareFn x (Array_sort compareFn arr)).
  by rewrite sort_insert_perm, IH.
Qed.

Lemma sort_insert_sorted compareFn R x sorted :
  orders_by compareFn R →
  StronglySorted R sorted → StronglySorted R (sort_insert compareFn x sorted).
Proof.
  intros (Hcmp & Htotal & Htrans & _).
  induction 1 as [|y sorted Hsorted IH Hall]; [repeat constructor|].
  cbn [sort_insert]. destruct (Z.leb_spec (compareFn x y) 0) as [Hle|Hgt].
  - apply Hcmp in Hle. constructor; [by constructor|].
    constructor; [done|]. eapply List.Forall_impl; [|exact Hall].
    intros z Hz. by eapply Htrans.
  - assert (Hyx : R y x).
    { destruct (Htotal x y) as [Hxy|?]; [|done]. apply Hcmp in Hxy. lia. }
    constructor; [exact IH|].
    rewrite sort_insert_perm. by constructor.
Qed.

Lemma Array_sort_sorted compareFn R arr :
  orders_by compareFn R → StronglySorted R (Array_sort compareFn arr).
Proof.
  intros Hord. induction arr as [|x arr IH]; [constructor|].
  by apply sort_insert_sorted.
Qed.

Lemma sorted_unique compareFn R : orders_by compareFn R →
  ∀ l1 l2, StronglySorted R l1 → StronglySorted R l2 → l1 ≡ₚ l2 → l1 = l2.
Proof.
  intros (_ & _ & _ & Hanti). induction l1 as [|x l1 IH]; intros l2 H1 H2 Hperm.
  { by apply Permutation_nil_l in Hperm. }
  destruct l2 as [|y l2]; [by apply Permutation_nil_r in Hperm|].
  apply StronglySorted_inv in H1 as [H1 Hx].
  apply StronglySorted_inv in H2 as [H2 Hy].
  assert (x = y) as <-.
  { assert (Hxin : x ∈ y :: l2) by (rewrite <- Hperm; by left).
    assert (Hyin : y ∈ x :: l1) by (rewrite Hperm; by left).
    apply elem_of_cons in Hxin as [?|Hxin]; [done|].
    apply elem_of_cons in Hyin as [?|Hyin]; [done|].
    rewrite List.Forall_forall in Hx, Hy.
    apply Hanti; [apply Hx|apply Hy]; by apply list_elem_of_In. }
  f_equal. apply IH; [done..|]. by apply Permutation_cons_inv in Hperm.
Qed.

Lemma Array_sort_unique compareFn R arr l :
  orders_by compareFn R →
  StronglySorted R l → l ≡ₚ arr → Array_sort compareFn arr = l.
Proof.
  intros Hord Hsorted Hperm.
  apply (sorted_unique compareFn R Hord); [by apply Array_sort_sorted|done|].
  by rewrite Array_sort_perm.
Qed.

Lemma sortNumbers_sorted arr : StronglySorted Z.le (sortNumbers arr).
Proof. apply Array_sort_sorted, ascending_order. Qed.

Lemma sortNumbers_perm arr : sortNumbers arr ≡ₚ arr.
Proof. unfold sortNumbers. by rewrite Array_sort_perm, slice_all. Qed.

Lemma sortNumbers_unique arr l :
  StronglySorted Z.le l → l ≡ₚ arr → sortNumbers arr = l.
Proof.
  intros Hsorted Hperm. unfold sortNumbers. rewrite slice_all.
  by apply (Array_sort_unique _ Z.le _ _ ascending_order).
Qed.

(** X25.  [sortNumbers] returns the ascending rearrangement of the
    array: its result is sorted, has the elements of the array with their
    multiplicities, and is the only such list, so that sorting a sorted
    array returns it unchanged. *)
Theorem sortNumbers_ascending (arr : list Z) :
  StronglySorted Z.le (sortNumbers arr)
  ∧ sortNumbers arr ≡ₚ arr
  ∧ (∀ l, StronglySorted Z.le l → l ≡ₚ arr → sortNumbers arr = l)
  ∧ sortNumbers (sortNumbers arr) = sortNumbers arr.
Proof.
  split; [apply sortNumbers_sorted|]. split; [apply sortNumbers_perm|].
  split; [apply sortNumbers_unique|].
  apply sortNumbers_unique; [apply sortNumbers_sorted|done].
Qed.

(** *** sortUnique *)

Lemma sorted_NoDup_strict l :
  StronglySorted Z.le l → NoDup l → StronglySorted Z.lt l.
Proof.
  induction 1 as [|x l Hsorted IH Hall]; intros Hnd; [constructor|].
  apply NoDup_cons in Hnd as [Hx Hnd]. constructor; [by apply IH|].
  rewrite List.Forall_forall in *. intros y Hy.
  specialize (Hall y Hy). apply list_elem_of_In in Hy.
  assert (x ≠ y) by (by intros ->). lia.
Qed.

(** X26.  [sortUnique] returns the distinct values of the array in
    strictly increasing order. *)
Theorem sortUnique_strictly_increasing (arr : list Z) :
  StronglySorted Z.lt (sortUnique arr)
  ∧ (∀ x, x ∈ sortUnique arr ↔ x ∈ arr)
  ∧ sortUnique arr = sortNumbers (unique arr).
Proof.
  assert (Hset : Set_of arr = first_occurrences arr).
  { pose proof (unique_small_first arr) as H. by unfold unique_small in H. }
  split; [|split].
  - apply sorted_NoDup_strict.
    + apply Array_sort_sorted, ascending_order.
    + unfold sortUnique. rewrite Array_sort_perm, Hset.
      apply first_occurrences_NoDup.
  - intros x. unfold sortUnique.
    rewrite Array_sort_perm, Hset. apply first_occurrences_elem_of.
  - unfold sortUnique, sortNumbers. rewrite slice_all. f_equal.
    unfold unique. destruct (length arr <? 1000)%nat; [done|].
    rewrite <- unique_branches_agree. done.
Qed.

(** *** getTopN *)

Lemma sorted_reverse l : StronglySorted Z.le l → StronglySorted Z.ge (reverse l).
Proof.
  induction 1 as [|x l Hsorted IH Hall]; [constructor|].
  rewrite reverse_cons. revert IH.
  assert (Hge : Forall (λ y : Z, y >= x) (reverse l)).
  { apply List.Forall_forall. intros y Hy. rewrite List.Forall_forall in Hall.
    apply list_elem_of_In, elem_of_reverse, list_elem_of_In, Hall in Hy. lia. }
  induction (reverse l) as [|y r IHr]; intros Hr; [repeat constructor|].
  apply Forall_cons in Hge as [Hy Hge].
  apply StronglySorted_inv in Hr as [Hr Hall'].
  cbn [app]. constructor; [by apply IHr|].
  apply Forall_app. split; [done|]. by constructor.
Qed.

Lemma descending_sort arr :
  Array_sort (λ a b, b - a) arr = reverse (sortNumbers arr).
Proof.
  apply (Array_sort_unique _ Z.ge _ _ descending_order).
  - apply sorted_reverse, sortNumbers_sorted.
  - by rewrite reverse_Permutation, sortNumbers_perm.
Qed.

(** X27.  For [n >= 0], [getTopN] returns the [n] largest elements in
    descending order (all of them when there are fewer).  A negative [n]
    counts from the other end: the result is the descending array without
    its [-n] smallest elements. *)
Theorem getTopN_largest (arr : list Z) (n : Z) :
  (0 ≤ n → getTopN arr n = take (Z.to_nat n) (reverse (sortNumbers arr)))
  ∧ (n < 0 →
     getTopN arr n
     = take (length arr - Z.to_nat (- n)) (reverse (sortNumbers arr))).
Proof.
  unfold getTopN. rewrite slice_all, descending_sort.
  assert (Hlen : length (reverse (sortNumbers arr)) = length arr).
  { by rewrite length_reverse, sortNumbers_perm. }
  unfold slice, clamp_index. rewrite Hlen. cbn [Z.ltb Z.compare].
  rewrite (Z.min_l 0) by lia. change (Z.to_nat 0) with 0%nat.
  rewrite drop_0, Z.sub_0_r.
  split; intros Hn.
  - destruct (Z.ltb_spec n 0); [lia|].
    destruct (Z.min_spec n (Z.of_nat (length arr))) as [[_ ->]|[Hle ->]]; [done|].
    rewrite Nat2Z.id, !take_ge; [done|lia..].
  - destruct (Z.ltb_spec n 0); [|lia]. f_equal. lia.
Qed.

(** *** quickSort *)

Lemma swap_same {A} (l : list A) i : swap l i i = l.
Proof.
  unfold swap. destruct (l !! i) as [x|] eqn:Hx; [|done].
  by rewrite !(list_insert_id l i x Hx).
Qed.

Lemma swap_apart {A} (P Q R : list A) g x :
  swap (P ++ g :: Q ++ x :: R) (length P) (length P + S (length Q))
  = P ++ x :: Q ++ g :: R.
Proof.
  unfold swap. rewrite list_lookup_middle by done.
  assert (Hx : (P ++ g :: Q ++ x :: R) !! (length P + S (length Q))%nat = Some x).
  { rewrite lookup_app_r by lia.
    replace (length P + S (length Q) - length P)%nat with (S (length Q)) by lia.
    cbn [lookup list_lookup]. by apply list_lookup_middle. }
  rewrite Hx.
  rewrite (insert_app_r_alt P _ (length P)) by lia.
  rewrite Nat.sub_diag. cbn [insert list_insert].
  rewrite insert_app_r_alt by lia.
  replace (length P + S (length Q) - length P)%nat with (S (length Q)) by lia.
  cbn [insert list_insert]. do 2 f_equal.
  rewrite (insert_app_r_alt Q _ (length Q)) by lia.
  by rewrite Nat.sub_diag.
Qed.

Lemma partition_loop (pivot : Z) (A T : list Z) : ∀ U Lo G,
  Forall (λ x, x ≤ pivot) Lo → Forall (λ x, pivot < x) G →
  ∃ Lo' G',
    fold_left (partition_step pivot)
      (seqZ (Z.of_nat (length A + length Lo + length G)) (Z.of_nat (length U)))
      (A ++ Lo ++ G ++ U ++ T, Z.of_nat (length A + length Lo) - 1)
    = (A ++ Lo' ++ G' ++ T, Z.of_nat (length A + length Lo') - 1)
    ∧ Lo' ++ G' ≡ₚ Lo ++ G ++ U
    ∧ Forall (λ x, x ≤ pivot) Lo' ∧ Forall (λ x, pivot < x) G'.
Proof.
  induction U as [|x U IH]; intros Lo G HS HG.
  { exists Lo, G. cbn. rewrite app_nil_r. done. }
  cbn [length]. rewrite seqZ_cons by lia. cbn [fold_left].
  replace (Z.pred (Z.of_nat (S (length U)))) with (Z.of_nat (length U)) by lia.
  unfold partition_step at 2. rewrite Nat2Z.id.
  assert (Hj : (A ++ Lo ++ G ++ (x :: U) ++ T) !! (length A + length Lo + length G)%nat
               = Some x).
  { rewrite !app_assoc, <- (app_assoc _ (x :: U) T). cbn [app].
    replace (length A + length Lo + length G)%nat
      with (length ((A ++ Lo) ++ G)) by (rewrite !length_app; lia).
    by apply list_lookup_middle. }
  rewrite Hj. destruct (Z.leb_spec x pivot) as [Hle|Hgt].
  - replace (Z.to_nat (Z.of_nat (length A + length Lo) - 1 + 1))
      with (length (A ++ Lo)) by (rewrite length_app; lia).
    assert (Hswap : swap (A ++ Lo ++ G ++ (x :: U) ++ T) (length (A ++ Lo))
                      (length A + length Lo + length G)
                    = A ++ (Lo ++ [x]) ++ match G with
                                         | [] => []
                                         | g :: G' => G' ++ [g]
                                         end ++ U ++ T).
    { destruct G as [|g G'].
      - cbn [app length]. rewrite Nat.add_0_r, <- length_app, swap_same.
        by rewrite <- !app_assoc.
      - rewrite (app_assoc A Lo). cbn [app length].
        replace (length A + length Lo + S (length G'))%nat
          with (length (A ++ Lo) + S (length G'))%nat by (rewrite length_app; lia).
        rewrite swap_apart. rewrite <- !app_assoc. done. }
    rewrite Hswap.
    destruct (IH (Lo ++ [x]) (match G with [] => [] | g :: G' => G' ++ [g] end))
      as (Lo' & G' & Hrun & Hperm & HS' & HG').
    { apply Forall_app. split; [done|]. by repeat constructor. }
    { destruct G as [|g G0]; [constructor|].
      apply Forall_cons in HG as [Hg HG0]. apply Forall_app. split; [done|].
      by repeat constructor. }
    exists Lo', G'. split; [|split; [|done]].
    + rewrite <- Hrun. f_equal.
      * f_equal. destruct G; rewrite ?length_app; cbn [length]; lia.
      * f_equal. rewrite length_app. cbn [length]. lia.
    + rewrite Hperm. destruct G as [|g G0].
      * cbn [app]. by rewrite <- app_assoc.
      * rewrite <- !app_assoc. cbn [app]. apply Permutation_app_head.
        rewrite (Permutation_app_comm G0 (g :: U)). cbn [app].
        rewrite Permutation_swap. constructor.
        rewrite (Permutation_app_comm G0 (x :: U)). cbn [app]. constructor.
        rewrite (Permutation_app_comm U G0). done.
  - destruct (IH Lo (G ++ [x])) as (Lo' & G' & Hrun & Hperm & HS' & HG').
    { done. }
    { apply Forall_app. split; [done|]. by repeat constructor. }
    exists Lo', G'. split; [|split; [|done]].
    + rewrite <- Hrun. f_equal.
      * f_equal. rewrite length_app. cbn [length]. lia.
      * f_equal. rewrite <- !app_assoc. done.
    + rewrite Hperm. by rewrite <- !app_assoc.
Qed.

Lemma partition_spec (A M B : list Z) (pivot : Z) :
  ∃ L R,
    partition (A ++ M ++ pivot :: B)
      (Z.of_nat (length A)) (Z.of_nat (length A + length M))
    = (A ++ L ++ pivot :: R ++ B, Z.of_nat (length A + length L))
    ∧ L ++ R ≡ₚ M
    ∧ Forall (λ x, x ≤ pivot) L ∧ Forall (λ x, pivot < x) R.
Proof.
  unfold partition. rewrite Nat2Z.id.
  assert (Hp : (A ++ M ++ pivot :: B) !! (length A + length M)%nat = Some pivot).
  { rewrite app_assoc, <- length_app. by apply list_lookup_middle. }
  rewrite Hp.
  destruct (partition_loop pivot A (pivot :: B) M [] [])
    as (L & G & Hrun & Hperm & HL & HG); [constructor..|].
  cbn [app length] in Hrun, Hperm. rewrite !Nat.add_0_r in Hrun.
  replace (Z.of_nat (length A + length M) - Z.of_nat (length A))
    with (Z.of_nat (length M)) by lia.
  rewrite Hrun.
  assert (Hlen : (length L + length G = length M)%nat).
  { apply Permutation_length in Hperm. by rewrite length_app in Hperm. }
  replace (Z.to_nat (Z.of_nat (length A + length L) - 1 + 1))
    with (length (A ++ L)) by (rewrite length_app; lia).
  replace (Z.of_nat (length A + length L) - 1 + 1)
    with (Z.of_nat (length A + length L)) by lia.
  destruct G as [|g G'].
  - exists L, []. cbn [app length] in *.
    replace (length A + length M)%nat with (length (A ++ L))
      by (rewrite length_app; lia).
    rewrite swap_same. split; [done|]. split; [done|]. split; [done|constructor].
  - exists L, (G' ++ [g]). cbn [length] in Hlen.
    replace (length A + length M)%nat with (length (A ++ L) + S (length G'))%nat
      by (rewrite length_app; lia).
    rewrite (app_assoc A L). cbn [app]. rewrite swap_apart.
    split; [by rewrite <- !app_assoc|]. split; [|split; [done|]].
    + rewrite <- Hperm. apply Permutation_app_head.
      by rewrite (Permutation_app_comm G' [g]).
    + apply Forall_cons in HG as [Hg HG']. apply Forall_app. split; [done|].
      by repeat constructor.
Qed.

Lemma sortNumbers_short (M : list Z) : (length M ≤ 1)%nat → sortNumbers M = M.
Proof.
  intros Hlen. apply sortNumbers_unique; [|done].
  destruct M as [|x [|y M]]; [repeat constructor..|cbn in Hlen; lia].
Qed.

Lemma sorted_around (l1 l2 : list Z) (p : Z) :
  StronglySorted Z.le l1 → StronglySorted Z.le l2 →
  Forall (λ x, x ≤ p) l1 → Forall (λ x, p < x) l2 →
  StronglySorted Z.le (l1 ++ p :: l2).
Proof.
  intros H1 H2 Hl1 Hl2. induction H1 as [|x l1 H1 IH Hall]; cbn [app].
  - constructor; [done|]. eapply List.Forall_impl; [|exact Hl2]. cbn. lia.
  - apply Forall_cons in Hl1 as [Hx Hl1]. constructor; [by apply IH|].
    apply Forall_app. split; [done|]. constructor; [done|].
    eapply List.Forall_impl; [|exact Hl2]. cbn. lia.
Qed.

Lemma sortNumbers_pivot (L R : list Z) (pivot : Z) M :
  L ++ R ≡ₚ M →
  Forall (λ x, x ≤ pivot) L → Forall (λ x, pivot < x) R →
  sortNumbers (M ++ [pivot]) = sortNumbers L ++ pivot :: sortNumbers R.
Proof.
  intros Hperm HL HR. apply sortNumbers_unique.
  - apply sorted_around; [apply sortNumbers_sorted..| |].
    + by rewrite sortNumbers_perm.
    + by rewrite sortNumbers_perm.
  - rewrite !sortNumbers_perm, <- Hperm, <- app_assoc.
    apply Permutation_app_head. by rewrite Permutation_app_comm.
Qed.

Lemma sort_spec : ∀ fuel (A M B : list Z),
  (length M < fuel)%nat →
  sort fuel (A ++ M ++ B) (Z.of_nat (length A))
    (Z.of_nat (length A + length M) - 1)
  = Some (A ++ sortNumbers M ++ B).
Proof.
  induction fuel as [|fuel IH]; intros A M B Hfuel; [lia|].
  cbn [sort].
  destruct (Z.ltb_spec (Z.of_nat (length A))
              (Z.of_nat (length A + length M) - 1)) as [Hlt|Hge].
  2: { rewrite sortNumbers_short by lia. done. }
  destruct M as [|p M0 _] using rev_ind; [cbn in Hlt; lia|].
  rewrite length_app in Hlt, Hfuel |- *. cbn [length] in Hlt, Hfuel |- *.
  rewrite <- (app_assoc M0 [p] B). cbn [app].
  replace (Z.of_nat (length A + (length M0 + 1)) - 1)
    with (Z.of_nat (length A + length M0)) by lia.
  destruct (partition_spec A M0 B p) as (L & R & -> & Hperm & HL & HR).
  assert (Hlen : (length L + length R = length M0)%nat).
  { apply Permutation_length in Hperm. by rewrite length_app in Hperm. }
  pose proof (IH A L (p :: R ++ B) ltac:(lia)) as HsortL.
  rewrite HsortL.
  pose proof (IH (A ++ sortNumbers L ++ [p]) R B ltac:(lia)) as HsortR.
  rewrite <- !app_assoc in HsortR. cbn [app] in HsortR.
  assert (HlenL : length (sortNumbers L) = length L).
  { by rewrite sortNumbers_perm. }
  rewrite !length_app, HlenL in HsortR. cbn [length] in HsortR.
  replace (Z.of_nat (length A + (length L + 1)))
    with (Z.of_nat (length A + length L) + 1) in HsortR by lia.
  replace (Z.of_nat (length A + (length L + 1) + length R) - 1)
    with (Z.of_nat (length A + length M0)) in HsortR by lia.
  rewrite HsortR. rewrite (sortNumbers_pivot L R p M0 Hperm HL HR).
  by rewrite <- !app_assoc.
Qed.

(** X28.  Given fuel for its recursion, [quickSort] ends and leaves in
    the caller's array what [sortNumbers] returns for it: the same
    elements in ascending order. *)
Theorem quickSort_sorts_in_place (fuel : nat) (arr : list Z) :
  (length arr < fuel)%nat →
  quickSort fuel arr = Some (sortNumbers arr).
Proof.
  intros Hfuel. unfold quickSort.
  pose proof (sort_spec fuel [] arr [] Hfuel) as Hsort.
  cbn [app length] in Hsort. rewrite !app_nil_r in Hsort.
  rewrite Nat.add_0_l in Hsort. exact Hsort.
Qed.

Lemma quickSort_sorts_in_place_witness :
  (length [3; 1; 4; 1; 5] < 6)%nat
  ∧ quickSort 6 [3; 1; 4; 1; 5] = Some (sortNumbers [3; 1; 4; 1; 5]).
Proof.
  assert (H : (length [3; 1; 4; 1; 5] < 6)%nat) by (cbn; lia).
  split; [exact H|]. exact (quickSort_sorts_in_place 6 [3; 1; 4; 1; 5] H).
Defined.

(** *** countingSort *)

Lemma count_step_length min count num :
  length (count_step min count num) = length count.
Proof.
  unfold count_step. destruct (_ && _); [apply length_alter|done].
Qed.

Lemma count_fold_length min arr : ∀ count,
  length (fold_left (count_step min) arr count) = length count.
Proof.
  induction arr as [|y arr IH]; intros count; [done|].
  cbn [fold_left]. by rewrite IH, count_step_length.
Qed.

Lemma count_fold_lookup min arr : ∀ count (i : nat),
  fold_left (count_step min) arr count !! i
  = (λ c, c + occurrences arr (Z.of_nat i + min)) <$> count !! i.
Proof.
  induction arr as [|y arr IH]; intros count i.
  { cbn [fold_left]. destruct (count !! i) as [c|]; [|done].
    cbn. f_equal. unfold occurrences. cbn. lia. }
  cbn [fold_left]. rewrite IH, count_cons. unfold count_step.
  destruct (Z.leb_spec 0 (y - min)) as [Hlow|Hlow]; cbn [andb];
    [destruct (Z.ltb_spec (y - min) (Z.of_nat (length count))) as [Hhigh|Hhigh]|].
  - destruct (decide (Z.to_nat (y - min) = i)) as [<-|Hne].
    + rewrite list_lookup_alter_eq, Z2Nat.id by lia.
      rewrite decide_True by lia.
      destruct (count !! Z.to_nat (y - min)) as [c|]; [|done]. cbn. f_equal. lia.
    + rewrite list_lookup_alter_ne by done.
      rewrite decide_False by lia.
      destruct (count !! i) as [c|]; [|done]. cbn. f_equal.
  - destruct (count !! i) as [c|] eqn:Hc; [|done].
    apply lookup_lt_Some in Hc. rewrite decide_False by lia. done.
  - destruct (count !! i) as [c|] eqn:Hc; [|done].
    rewrite decide_False by lia. done.
Qed.

Lemma filter_next_value (arr : list Z) (min : Z) (k : nat) :
  filter (λ x, min ≤ x < min + Z.of_nat (S k)) arr
  ≡ₚ filter (λ x, min ≤ x < min + Z.of_nat k) arr
     ++ replicate (Z.to_nat (occurrences arr (Z.of_nat k + min)))
          (Z.of_nat k + min).
Proof.
  induction arr as [|y arr IH].
  { done. }
  rewrite count_cons. pose proof (count_nonneg arr (Z.of_nat k + min)) as Hnn.
  destruct (decide (y = Z.of_nat k + min)) as [->|Hne].
  - rewrite filter_cons_True by lia. rewrite filter_cons_False by lia.
    replace (Z.to_nat (1 + occurrences arr (Z.of_nat k + min)))
      with (S (Z.to_nat (occurrences arr (Z.of_nat k + min)))) by lia.
    rewrite replicate_S, <- Permutation_middle. by constructor.
  - rewrite Z.add_0_l.
    destruct (decide (min ≤ y < min + Z.of_nat k)) as [Hin|Hout].
    + rewrite !filter_cons_True by lia. cbn [app]. by constructor.
    + rewrite !filter_cons_False by lia. done.
Qed.

Lemma sorted_then_constant (l : list Z) (c : nat) (v : Z) :
  StronglySorted Z.le l → Forall (λ x, x ≤ v) l →
  StronglySorted Z.le (l ++ replicate c v).
Proof.
  intros Hsorted Hall. induction Hsorted as [|x l Hsorted IH Hx]; cbn [app].
  - induction c as [|c IHc]; [constructor|].
    cbn [replicate]. constructor; [done|].
    apply Forall_replicate. lia.
  - apply Forall_cons in Hall as [Hxv Hall]. constructor; [by apply IH|].
    apply Forall_app. split; [done|]. by apply Forall_replicate.
Qed.

Lemma sort_next_value (arr : list Z) (min : Z) (k : nat) :
  sortNumbers (filter (λ x, min ≤ x < min + Z.of_nat (S k)) arr)
  = sortNumbers (filter (λ x, min ≤ x < min + Z.of_nat k) arr)
    ++ replicate (Z.to_nat (occurrences arr (Z.of_nat k + min)))
         (Z.of_nat k + min).
Proof.
  apply sortNumbers_unique.
  - apply sorted_then_constant; [apply sortNumbers_sorted|].
    rewrite sortNumbers_perm. apply List.Forall_forall. intros x Hx.
    apply list_elem_of_In, list_elem_of_filter in Hx as [Hx _]. lia.
  - by rewrite filter_next_value, sortNumbers_perm.
Qed.

Lemma emit_fills (c : nat) (v : Z) : ∀ (out : list Z) (n : nat),
  (c ≤ n)%nat →
  emit c v ((Some <$> out) ++ replicate n None, length out)
  = ((Some <$> (out ++ replicate c v)) ++ replicate (n - c) None,
     (length out + c)%nat).
Proof.
  induction c as [|c IH]; intros out n Hc.
  { cbn [emit replicate]. by rewrite app_nil_r, Nat.sub_0_r, Nat.add_0_r. }
  destruct n as [|n]; [lia|].
  cbn [emit fst snd]. unfold Array_set.
  destruct (Nat.ltb_spec (length out)
              (length ((Some <$> out) ++ replicate (S n) None))) as [_|Hge].
  2: { rewrite length_app, length_fmap, length_replicate in Hge. lia. }
  rewrite <- (length_fmap Some out) at 1.
  rewrite (insert_app_r_alt (Some <$> out) _ (length (Some <$> out))) by lia.
  rewrite Nat.sub_diag. cbn [replicate insert list_insert].
  specialize (IH (out ++ [v]) n ltac:(lia)).
  rewrite fmap_app, <- app_assoc, length_app in IH. cbn [fmap list_fmap app length] in IH.
  rewrite Nat.add_1_r in IH. rewrite IH.
  f_equal; [|lia]. rewrite <- !app_assoc. done.
Qed.

Lemma filter_none (arr : list Z) (min : Z) :
  filter (λ x, min ≤ x < min + Z.of_nat 0) arr = [].
Proof.
  induction arr as [|y arr IH]; [done|].
  rewrite filter_cons_False by lia. done.
Qed.

Lemma emit_all (arr : list Z) (min : Z) (count : list Z) :
  (∀ i : nat, (i < length count)%nat →
     count !! i = Some (occurrences arr (Z.of_nat i + min))) →
  ∀ k : nat, (k ≤ length count)%nat →
    fold_left (λ st '(i, c), emit (Z.to_nat c) (Z.of_nat i + min) st)
      (imap pair (take k count)) (replicate (length arr) None, 0%nat)
    = ((Some <$> sortNumbers (filter (λ x, min ≤ x < min + Z.of_nat k) arr))
         ++ replicate
              (length arr
               - length (filter (λ x, min ≤ x < min + Z.of_nat k) arr)) None,
       length (filter (λ x, min ≤ x < min + Z.of_nat k) arr)).
Proof.
  intros Hcount. induction k as [|k IH]; intros Hk.
  { rewrite filter_none. cbn. by rewrite Nat.sub_0_r. }
  rewrite (take_S_r count k _ (Hcount k ltac:(lia))).
  rewrite imap_app, fold_left_app, IH by lia.
  rewrite length_take, Nat.min_l by lia.
  cbn [imap fold_left]. rewrite Nat.add_0_r.
  set (kept := filter (λ x, min ≤ x < min + Z.of_nat k) arr).
  set (c := Z.to_nat (occurrences arr (Z.of_nat k + min))).
  pose proof (sort_next_value arr min k) as Hnext. fold kept c in Hnext.
  pose proof (filter_next_value arr min k) as Hperm. fold kept c in Hperm.
  set (kept' := filter (λ x, min ≤ x < min + Z.of_nat (S k)) arr) in *.
  assert (Hlen : length kept' = (length kept + c)%nat).
  { apply Permutation_length in Hperm.
    by rewrite length_app, length_replicate in Hperm. }
  assert (Hfit : (length kept' ≤ length arr)%nat) by apply length_filter.
  assert (Hsl : length (sortNumbers kept) = length kept)
    by (by rewrite sortNumbers_perm).
  rewrite <- Hsl, emit_fills by lia.
  rewrite <- Hnext, Hsl, Hlen. do 3 f_equal. lia.
Qed.

(** X29.  [countingSort] throws a [RangeError] when [max - min + 1] is
    negative or 2^32 or more.  Otherwise it returns an array as long as
    the input whose first entries are the elements between [min] and
    [max] in ascending order; the elements outside are dropped and leave
    holes at the end.  When all elements are between [min] and [max] the
    result is what [sortNumbers] returns. *)
Theorem countingSort_sorted_prefix (arr : list Z) (min max : Z) :
  (max - min + 1 < 0 ∨ 2 ^ 32 ≤ max - min + 1 →
   countingSort arr min max = Threw "RangeError")
  ∧ (0 ≤ max - min + 1 < 2 ^ 32 →
     countingSort arr min max
     = Returned
         ((Some <$> sortNumbers (filter (λ x, min ≤ x ≤ max) arr))
            ++ replicate
                 (length arr - length (filter (λ x, min ≤ x ≤ max) arr)) None))
  ∧ (0 ≤ max - min + 1 < 2 ^ 32 → Forall (λ x, min ≤ x ≤ max) arr →
     countingSort arr min max = Returned (Some <$> sortNumbers arr)).
Proof.
  assert (Hmain : 0 ≤ max - min + 1 < 2 ^ 32 →
     countingSort arr min max
     = Returned
         ((Some <$> sortNumbers (filter (λ x, min ≤ x ≤ max) arr))
            ++ replicate
                 (length arr - length (filter (λ x, min ≤ x ≤ max) arr)) None)).
  { intros Hrange. unfold countingSort.
    destruct (Z.ltb_spec (max - min + 1) 0); [lia|].
    destruct (Z.ltb_spec (2 ^ 32 - 1) (max - min + 1)); [lia|]. cbn [orb].
    set (count := fold_left (count_step min) arr
                    (replicate (Z.to_nat (max - min + 1)) 0)).
    assert (Hlen : length count = Z.to_nat (max - min + 1)).
    { unfold count. by rewrite count_fold_length, length_replicate. }
    assert (Hcount : ∀ i : nat, (i < length count)%nat →
              count !! i = Some (occurrences arr (Z.of_nat i + min))).
    { intros i Hi. unfold count. rewrite count_fold_lookup.
      rewrite lookup_replicate_2 by lia. done. }
    pose proof (emit_all arr min count Hcount (length count) ltac:(lia)) as Hrun.
    rewrite firstn_all in Hrun. rewrite Hrun. cbn [fst].
    assert (Hfilter : filter (λ x, min ≤ x < min + Z.of_nat (length count)) arr
                      = filter (λ x, min ≤ x ≤ max) arr).
    { apply list_filter_iff. intros x. lia. }
    by rewrite Hfilter. }
  split; [|split; [exact Hmain|]].
  - intros Hbad. unfold countingSort.
    destruct (Z.ltb_spec (max - min + 1) 0); [done|].
    destruct (Z.ltb_spec (2 ^ 32 - 1) (max - min + 1)); [done|]. lia.
  - intros Hrange Hall. rewrite (Hmain Hrange).
    assert (Hfilter : filter (λ x, min ≤ x ≤ max) arr = arr).
    { clear Hmain. induction Hall as [|x arr Hx Hall IH]; [done|].
      rewrite filter_cons_True by done. by rewrite IH. }
    rewrite Hfilter, Nat.sub_diag. cbn [replicate]. by rewrite app_nil_r.
Qed.

End SortFacts.

(** ** The frequency map *)

Module FrequencyFacts.

Import ArrayUtils ArrayFacts MathMore CountingInvariants MathMoreFacts.
Import ArrayMore ArrayMoreFacts.

Section Totals.
Context {T : Type} `{EqDecision T}.
Implicit Types (arr : list T).

Lemma Map_get_entry {V} (m : list (T * V)) k v :
  NoDup m.*1 → (k, v) ∈ m → Map_get m k = Some v.
Proof.
  induction m as [|[k' v'] m IH]; intros Hnd Hin.
  { by apply elem_of_nil in Hin. }
  cbn [fmap list_fmap fst] in Hnd. apply NoDup_cons in Hnd as [Hk' Hnd].
  cbn [Map_get]. apply elem_of_cons in Hin as [[= -> ->]|Hin].
  - by rewrite decide_True.
  - rewrite decide_False; [by apply IH|].
    intros ->. apply Hk'. apply list_elem_of_fmap. by exists (k, v).
Qed.

Lemma sum_indicator (y : T) (ks : list T) :
  NoDup ks →
  sum ((λ k, if decide (y = k) then 1 else 0) <$> ks)
  = if decide (y ∈ ks) then 1 else 0.
Proof.
  induction 1 as [|k ks Hk Hnd IH]; [done|].
  rewrite fmap_cons, sum_cons, IH.
  destruct (decide (y = k)) as [->|Hne].
  - rewrite decide_False by done. rewrite decide_True by (by left). done.
  - destruct (decide (y ∈ ks)) as [Hin|Hout].
    + rewrite decide_True by (by right). done.
    + rewrite decide_False; [done|]. by intros [?|?]%elem_of_cons.
Qed.

Lemma sum_fmap_add {A} (f g : A → Z) (l : list A) :
  sum ((λ k, f k + g k) <$> l) = sum (f <$> l) + sum (g <$> l).
Proof.
  induction l as [|x l IH]; [done|].
  rewrite !fmap_cons, !sum_cons, IH. lia.
Qed.

Lemma sum_counts arr (ks : list T) :
  NoDup ks → (∀ x, x ∈ arr → x ∈ ks) →
  sum (occurrences arr <$> ks) = Z.of_nat (length arr).
Proof.
  intros Hnd. induction arr as [|y arr IH]; intros Hks.
  { cbn [length]. clear Hnd Hks. induction ks as [|k ks IHk]; [done|].
    rewrite fmap_cons, sum_cons, IHk. done. }
  rewrite (list_fmap_ext (occurrences (y :: arr))
             (λ k, (if decide (y = k) then 1 else 0) + occurrences arr k))
    by (intros i k _; apply count_cons).
  rewrite (sum_fmap_add (λ k, if decide (y = k) then 1 else 0)), sum_indicator by done.
  rewrite decide_True by (apply Hks; by left).
  rewrite IH by (intros x Hx; apply Hks; by right).
  cbn [length]. lia.
Qed.

Lemma getFrequencyMap_keys arr :
  (getFrequencyMap arr).*1 = first_occurrences arr.
Proof.
  unfold getFrequencyMap. rewrite frequency_keys.
  pose proof (unique_small_first arr) as Hfirst.
  by unfold unique_small, Set_of in Hfirst.
Qed.

Lemma getFrequencyMap_get arr x :
  Map_get (getFrequencyMap arr) x
  = if decide (x ∈ arr) then Some (occurrences arr x) else None.
Proof.
  apply (frequency_fold arr [] []). intros y. cbn.
  rewrite decide_False; [done|apply not_elem_of_nil].
Qed.

Lemma getFrequencyMap_sum arr :
  sum (getFrequencyMap arr).*2 = Z.of_nat (length arr).
Proof.
  assert (Hnd : NoDup (getFrequencyMap arr).*1).
  { rewrite getFrequencyMap_keys. apply first_occurrences_NoDup. }
  assert (Hvalues : (getFrequencyMap arr).*2
                    = occurrences arr <$> (getFrequencyMap arr).*1).
  { rewrite <- list_fmap_compose. apply list_fmap_ext.
    intros i [k v] Hin. apply list_elem_of_lookup_2 in Hin.
    cbn. pose proof (Map_get_entry _ k v Hnd Hin) as Hentry.
    rewrite getFrequencyMap_get in Hentry. destruct (decide (k ∈ arr)); [|done].
    by injection Hentry as <-. }
  rewrite Hvalues, getFrequencyMap_keys.
  apply sum_counts; [apply first_occurrences_NoDup|].
  intros x Hx. by apply first_occurrences_elem_of.
Qed.

(** X30.  The frequency map lists the distinct elements in order of
    first occurrence (the keys are what [unique] returns); the entry of
    an element is the number of positions that hold it, which for every
    element but [NaN] is the number [countOccurrences] gives, and an
    element that does not occur has no entry.  The counts add up, by
    [sum], to the length of the array. *)
Theorem getFrequencyMap_counts (is_NaN : T → bool) arr :
  (getFrequencyMap arr).*1 = unique arr
  ∧ (∀ x, Map_get (getFrequencyMap arr) x
          = if decide (x ∈ arr) then Some (occurrences arr x) else None)
  ∧ (∀ x, is_NaN x = false →
       Map_get (getFrequencyMap arr) x
       = if decide (x ∈ arr) then Some (countOccurrences is_NaN arr x)
         else None)
  ∧ sum (getFrequencyMap arr).*2 = Z.of_nat (length arr).
Proof.
  split; [|split; [apply getFrequencyMap_get|split; [|apply getFrequencyMap_sum]]].
  - rewrite getFrequencyMap_keys, <- unique_small_first.
    unfold unique. destruct (length arr <? 1000)%nat; [done|].
    apply unique_branches_agree.
  - intros x Hx. by rewrite getFrequencyMap_get, countOccurrences_occurrences, Hx.
Qed.

End Totals.

End FrequencyFacts.
